(** * Skeleton post-processing (igneous/tasks/skeletonization/postprocess.py)

    A shallow embedding of the [trim_skeleton] pipeline: dust removal, loop
    removal, piece connection and tick removal, together with the library
    operations the passes call on a skeleton value.

    The parts of the merge task that work on file names and on the arrays
    of the fragments (igneous/tasks/skeletonization/tasks.py) and the process
    count of the command line (igneous_cli/cli.py) follow the pipeline.

    Numbers.  Coordinates, radii and thresholds are numpy floats in the
    source; here they are exact rationals ([Q]).  Squared distances are
    computed exactly; the square root of [np.linalg.norm] and of the k-d tree
    query is a parameter [fsqrt] of the development, so that every general
    statement holds for any square-root function.  Concrete runs instantiate
    it with [isqrtQ], which is exact on the perfect squares they use. *)

From Stdlib Require Import List Arith Bool Lia NArith ZArith QArith Qround Lqa
  Sorted Permutation.
From Stdlib Require Ascii String.
Import ListNotations.

Set Implicit Arguments.
Close Scope Q_scope.

(* ================================================================== *)
(** ** Outcomes: a small error monad *)

Inductive error : Type :=
| IndexError      (* numpy index out of range *)
| ValueError      (* min() of an empty sequence *)
| KeyError        (* set.remove / dict lookup of a missing key *)
| NoPath.         (* networkx.NetworkXNoPath *)

Inductive outcome (A : Type) : Type :=
| Returned (a : A)
| Raised (e : error)
| OutOfFuel.

Arguments Returned {A} a.
Arguments Raised {A} e.
Arguments OutOfFuel {A}.

Definition bind {A B : Type} (m : outcome A) (k : A -> outcome B) : outcome B :=
  match m with
  | Returned a => k a
  | Raised e => Raised e
  | OutOfFuel => OutOfFuel
  end.

Notation "x <- m ;; k" := (bind m (fun x => k))
  (at level 61, m at next level, right associativity).

Fixpoint mapM {A B : Type} (f : A -> outcome B) (l : list A) : outcome (list B) :=
  match l with
  | [] => Returned []
  | a :: l' => b <- f a ;; bs <- mapM f l' ;; Returned (b :: bs)
  end.

(* ================================================================== *)
(** ** Geometry *)

Definition point : Type := (Q * Q * Q)%type.

Definition px (p : point) : Q := fst (fst p).
Definition py (p : point) : Q := snd (fst p).
Definition pz (p : point) : Q := snd p.

Definition origin : point := (0, 0, 0)%Q.

Definition sq (x : Q) : Q := (x * x)%Q.

(** [np.sum((a - b) ** 2)] *)
Definition sqdist (a b : point) : Q :=
  (sq (px a - px b) + sq (py a - py b) + sq (pz a - pz b))%Q.

(** Integer square root lifted to [Q]: exact on perfect squares. *)
Definition isqrtQ (q : Q) : Q := inject_Z (Z.sqrt (Qfloor q)).

Definition Qsum (l : list Q) : Q := fold_right Qplus 0%Q l.

Definition Qltb (a b : Q) : bool := negb (Qle_bool b a).

(* ================================================================== *)
(** ** The skeleton value *)

Definition edge : Type := (nat * nat)%type.

Record Skeleton : Type := mkSkeleton {
  vertices : list point;
  edges : list edge;
  radii : list Q;
  id : Z
}.

Definition set_edges (s : Skeleton) (es : list edge) : Skeleton :=
  mkSkeleton (vertices s) es (radii s) (id s).

Definition empty_skeleton : Skeleton := mkSkeleton [] [] [] 0%Z.

(** Well-formed skeletons (spec, data model): edge endpoints are valid
    vertex indices and radii are aligned with vertices. *)
Definition edge_in_range (n : nat) (e : edge) : Prop := fst e < n /\ snd e < n.

Definition wf (s : Skeleton) : Prop :=
  Forall (edge_in_range (length (vertices s))) (edges s) /\
  length (radii s) = length (vertices s).

Definition edge_in_rangeb (n : nat) (e : edge) : bool :=
  (fst e <? n) && (snd e <? n).

Definition wfb (s : Skeleton) : bool :=
  forallb (edge_in_rangeb (length (vertices s))) (edges s) &&
  (length (radii s) =? length (vertices s)).

(** Sorted form of an edge, [np.sort(edges, axis=1)]. *)
Definition sort_edge (e : edge) : edge :=
  (Nat.min (fst e) (snd e), Nat.max (fst e) (snd e)).

Definition edge_eqb (e f : edge) : bool :=
  (fst e =? fst f) && (snd e =? snd f).

Definition touches (v : nat) (e : edge) : bool :=
  (fst e =? v) || (snd e =? v).

(** Number of occurrences of [v] in the flattened edge array: the counts of
    [np.unique(edges, return_counts=True)]. *)
Definition degree (es : list edge) (v : nat) : nat :=
  fold_right (fun e acc =>
    (if fst e =? v then 1 else 0) + (if snd e =? v then 1 else 0) + acc) 0 es.

Definition used (es : list edge) (v : nat) : bool := existsb (touches v) es.

(** Position of [x] in [l] ([length l] if absent). *)
Fixpoint index_of (x : nat) (l : list nat) : nat :=
  match l with
  | [] => 0
  | y :: l' => if y =? x then 0 else S (index_of x l')
  end.

Definition map_edge (f : nat -> nat) (e : edge) : edge := (f (fst e), f (snd e)).

(* ================================================================== *)
(** ** Connected components by label propagation *)

(** Component labels of the vertices [0..n-1]: every vertex starts in its
    own class and every edge merges the classes of its endpoints, the
    merged class taking the smaller label.  The label of a vertex is thus
    the smallest vertex index of its component, so that ordering classes by
    label orders them by their first vertex, as
    [scipy.sparse.csgraph.connected_components] numbers them. *)
Definition relabel (old new : nat) (l : list nat) : list nat :=
  map (fun x => if x =? old then new else x) l.

Definition merge_labels (l : list nat) (e : edge) : list nat :=
  let la := nth (fst e) l (fst e) in
  let lb := nth (snd e) l (snd e) in
  relabel (Nat.max la lb) (Nat.min la lb) l.

Definition labels (n : nat) (es : list edge) : list nat :=
  fold_left merge_labels es (seq 0 n).

Definition label_of (l : list nat) (v : nat) : nat := nth v l v.

(** Vertices whose label is [r], in increasing order. *)
Definition members (l : list nat) (r : nat) : list nat :=
  filter (fun v => label_of l v =? r) (seq 0 (length l)).

(** Class representatives: the vertices that carry their own index. *)
Definition representatives (l : list nat) : list nat :=
  filter (fun v => label_of l v =? v) (seq 0 (length l)).

(* ================================================================== *)
(** ** Library operations on skeletons *)

Section Pipeline.

(** The floating-point square root of the source. *)
Variable fsqrt : Q -> Q.

(** [igneous.skeletontricks.find_cycle(edges, num_verts)], a compiled module
    that is not part of the sources: the edges of some cycle of the graph, or
    the empty list.  The passes are defined for any such routine; a concrete
    one, [find_cycle], is given after the section. *)
Variable cycle_finder : list edge -> nat -> list edge.

(** [np.linalg.norm(a - b)] *)
Definition dist (a b : point) : Q := fsqrt (sqdist a b).

Definition vertex (s : Skeleton) (i : nat) : point := nth i (vertices s) origin.
Definition radius (s : Skeleton) (i : nat) : Q := nth i (radii s) 0%Q.

(** Modelled from the spec: [PrecomputedSkeleton.empty] of the cloudvolume
    library is not part of the sources.  The spec returns unchanged both an
    empty skeleton and a component with a single vertex, and the passes
    have no other early exit than [skeleton.empty()], so a skeleton is empty
    when it has no vertex or no edge. *)
Definition empty (s : Skeleton) : bool :=
  (length (vertices s) =? 0) || (length (edges s) =? 0).

(** Modelled from the spec: [PrecomputedSkeleton.cable_length], the sum of
    the euclidean lengths of the edges. *)
Definition cable_length (s : Skeleton) : Q :=
  Qsum (map (fun e => dist (vertex s (fst e)) (vertex s (snd e))) (edges s)).

(** The sub-skeleton on the vertex list [keep] (increasing), with vertices
    renumbered by their position in [keep]. *)
Definition restrict (s : Skeleton) (keep : list nat) (es : list edge) : Skeleton :=
  mkSkeleton (map (vertex s) keep)
             (map (map_edge (fun v => index_of v keep)) es)
             (map (radius s) keep)
             (id s).

(** Modelled from the spec: [PrecomputedSkeleton.consolidate]: remove the
    vertices of degree 0, renumber the remaining ones compactly, rewrite the
    edges and shrink the radii. *)
Definition consolidate (s : Skeleton) : Skeleton :=
  restrict s (filter (used (edges s)) (seq 0 (length (vertices s)))) (edges s).

(** Modelled from the spec: [PrecomputedSkeleton.components]: the standard
    undirected connected components over the vertices, each as a skeleton
    of its own, listed by smallest vertex index. *)
Definition components (s : Skeleton) : list Skeleton :=
  let l := labels (length (vertices s)) (edges s) in
  map (fun r => restrict s (members l r)
                 (filter (fun e => label_of l (fst e) =? r) (edges s)))
      (representatives l).

Definition shift_edge (k : nat) (e : edge) : edge := (k + fst e, k + snd e).

(** Modelled from the spec: [PrecomputedSkeleton.simple_merge]: concatenate
    the vertex, edge and radius arrays, shifting the edge indices of each
    skeleton by the number of vertices before it; no deduplication; the
    identifier is that of the first non-empty input. *)
Fixpoint merge_from (k : nat) (l : list Skeleton)
  : list point * list edge * list Q :=
  match l with
  | [] => ([], [], [])
  | s :: l' =>
      let '(vs, es, rs) := merge_from (k + length (vertices s)) l' in
      (vertices s ++ vs, map (shift_edge k) (edges s) ++ es, radii s ++ rs)
  end.

Definition merged_id (l : list Skeleton) : Z :=
  match filter (fun s => negb (empty s)) l with
  | s :: _ => id s
  | [] => 0%Z
  end.

Definition simple_merge (l : list Skeleton) : Skeleton :=
  let '(vs, es, rs) := merge_from 0 l in
  mkSkeleton vs es rs (merged_id l).

(* ================================================================== *)
(** ** Dust removal *)

Definition remove_dust (skeleton : Skeleton) (dust_threshold : Q) : Skeleton :=
  if empty skeleton then skeleton
  else
    let skels :=
      filter (fun skel => Qltb dust_threshold (cable_length skel))
             (components skeleton) in
    consolidate (simple_merge skels).

(* ================================================================== *)
(** ** Piece connection *)

(** [astype(np.uint16)] *)
Definition wrap16 (x : nat) : nat := N.to_nat (N.modulo (N.of_nat x) 65536).

(** [combination_pairs(n)]: the pairs [(i, i+j+1)], [i] in [range(n)],
    [j] in [range(n-i-1)], stored as 16-bit unsigned integers. *)
Definition combination_pairs (n : nat) : list (nat * nat) :=
  flat_map (fun i => map (fun j => (wrap16 i, wrap16 (i + j + 1)))
                         (seq 0 (n - i - 1)))
           (seq 0 n).

(** [find_connected(nodes, edges)]: boolean masks over the vertex indices,
    one per component that contains an edge, in increasing label order.  The
    assignment into the [s] by [s] matrix raises [IndexError] on an edge
    endpoint that is not below [s]. *)
Definition edge_labels (l : list nat) (es : list edge) : list nat :=
  filter (fun r => existsb (fun e => (label_of l (fst e) =? r)
                                     || (label_of l (snd e) =? r)) es)
         (seq 0 (length l)).

Definition find_connected (nodes : list point) (es : list edge)
  : outcome (list (list bool)) :=
  let s := length nodes in
  if forallb (edge_in_rangeb s) es then
    let l := labels s es in
    Returned (map (fun i => map (fun x => x =? i) l) (edge_labels l es))
  else Raised IndexError.

(** [np.where(mask)[0]] *)
Fixpoint where_from (k : nat) (mask : list bool) : list nat :=
  match mask with
  | [] => []
  | b :: m => if b then k :: where_from (S k) m else where_from (S k) m
  end.

Definition where_ (mask : list bool) : list nat := where_from 0 mask.

(** First element of [l] with the smallest key. *)
Fixpoint argmin_by {A : Type} (key : A -> Q) (best : A) (l : list A) : A :=
  match l with
  | [] => best
  | x :: l' => argmin_by key (if Qltb (key x) (key best) then x else best) l'
  end.

Definition first_min {A : Type} (key : A -> Q) (l : list A) : option A :=
  match l with
  | [] => None
  | x :: l' => Some (argmin_by key x l')
  end.

(** [tree.query(p)] for the k-d tree over the vertices [tree_idx]: the
    nearest vertex of the tree and its euclidean distance. *)
Definition query (nodes : list point) (tree_idx : list nat) (p : nat)
  : option (Q * nat) :=
  match first_min (fun q => dist (nth p nodes origin) (nth q nodes origin)) tree_idx with
  | Some q => Some (dist (nth p nodes origin) (nth q nodes origin), q)
  | None => None
  end.

(** The pair [(start_idx, end_idx)] with its distance [min_dist] for the
    piece [piece_idx] against the tree [tree_idx]. *)
Definition closest (nodes : list point) (piece_idx tree_idx : list nat)
  : option (nat * nat * Q) :=
  match tree_idx with
  | [] => None
  | q0 :: _ =>
      let d p := match query nodes tree_idx p with
                 | Some (d, _) => d
                 | None => 0%Q
                 end in
      match first_min d piece_idx with
      | Some p =>
          match query nodes tree_idx p with
          | Some (dmin, q) => Some (p, q, dmin)
          | None => None
          end
      | None => None
      end
  end.

Definition get {A : Type} (l : list A) (i : nat) : outcome A :=
  match nth_error l i with
  | Some a => Returned a
  | None => Raised IndexError
  end.

(** One examined pair of components: the bridge to add, if any. *)
Definition try_pair (nodes : list point) (rad : list Q)
           (connected : list (list bool)) (pr : nat * nat)
  : outcome (option edge) :=
  path_piece <- get connected (fst pr) ;;
  path_tree <- get connected (snd pr) ;;
  match closest nodes (where_ path_piece) (where_ path_tree) with
  | None => Raised ValueError
  | Some (start_idx, end_idx, min_dist) =>
      rs <- get rad start_idx ;;
      re <- get rad end_idx ;;
      if Qle_bool min_dist (rs + re)%Q
      then Returned (Some (start_idx, end_idx))
      else Returned None
  end.

(** The [for] loop over the pairs, left at the first bridge. *)
Fixpoint sweep (nodes : list point) (rad : list Q)
         (connected : list (list bool)) (pairs : list (nat * nat))
  : outcome (option edge) :=
  match pairs with
  | [] => Returned None
  | pr :: rest =>
      r <- try_pair nodes rad connected pr ;;
      match r with
      | Some e => Returned (Some e)
      | None => sweep nodes rad connected rest
      end
  end.

(** The [while all_connected] loop. *)
Fixpoint connect_loop (fuel : nat) (nodes : list point) (rad : list Q)
         (es : list edge) : outcome (list edge) :=
  match fuel with
  | 0 => OutOfFuel
  | S fuel' =>
      connected <- find_connected nodes es ;;
      r <- sweep nodes rad connected (combination_pairs (length connected)) ;;
      match r with
      | Some e => connect_loop fuel' nodes rad (es ++ [e])
      | None => Returned es
      end
  end.

Definition connect_pieces (fuel : nat) (skeleton : Skeleton) : outcome Skeleton :=
  if empty skeleton then Returned skeleton
  else
    es <- connect_loop fuel (vertices skeleton) (radii skeleton) (edges skeleton) ;;
    Returned (consolidate (set_edges skeleton es)).

(* ================================================================== *)
(** ** The networkx graph [G] *)

(** [nx.Graph] as the list of its edges in insertion order; an edge is
    stored once, whatever its orientation. *)
Definition same_edge (e f : edge) : bool := edge_eqb (sort_edge e) (sort_edge f).

Definition g_has (G : list edge) (e : edge) : bool := existsb (same_edge e) G.

Definition g_add (G : list edge) (e : edge) : list edge :=
  if g_has G e then G else G ++ [e].

Definition g_add_edges_from (G : list edge) (es : list edge) : list edge :=
  fold_left g_add es G.

Definition g_remove (G : list edge) (e : edge) : list edge :=
  filter (fun f => negb (same_edge e f)) G.

Definition g_remove_edges_from (G : list edge) (es : list edge) : list edge :=
  fold_left g_remove es G.

Definition neighbors (G : list edge) (u : nat) : list nat :=
  flat_map (fun e => if fst e =? u then [snd e]
                     else if snd e =? u then [fst e] else []) G.

Definition mem (x : nat) (l : list nat) : bool := existsb (Nat.eqb x) l.

Fixpoint lookup {A : Type} (k : nat) (l : list (nat * A)) : option A :=
  match l with
  | [] => None
  | (k', a) :: l' => if k' =? k then Some a else lookup k l'
  end.

(** Breadth-first search from the vertices [frontier]; [parent] records for
    every reached vertex the vertex it was reached from. *)
Definition visit (u : nat) (st : list nat * list (nat * nat)) (w : nat)
  : list nat * list (nat * nat) :=
  match lookup w (snd st) with
  | Some _ => st
  | None => (fst st ++ [w], snd st ++ [(w, u)])
  end.

Definition expand (G : list edge) (st : list nat * list (nat * nat)) (u : nat)
  : list nat * list (nat * nat) :=
  fold_left (visit u) (neighbors G u) st.

Fixpoint bfs (fuel : nat) (G : list edge) (frontier : list nat)
         (parent : list (nat * nat)) : list (nat * nat) :=
  match fuel with
  | 0 => parent
  | S fuel' =>
      let st := fold_left (expand G) frontier ([], parent) in
      match fst st with
      | [] => snd st
      | _ => bfs fuel' G (fst st) (snd st)
      end
  end.

(** The path from the source to [v], walking the parents back. *)
Fixpoint walk_back (fuel : nat) (parent : list (nat * nat)) (src v : nat)
         (acc : list nat) : option (list nat) :=
  if v =? src then Some (v :: acc)
  else match fuel with
       | 0 => None
       | S fuel' =>
           match lookup v parent with
           | Some u => walk_back fuel' parent src u (v :: acc)
           | None => None
           end
       end.

(** [nx.shortest_path(G, source, target)]: a path with the fewest edges,
    as a list of vertices; which of several shortest paths is returned is
    left to the library. *)
Definition shortest_path (G : list edge) (source target : nat)
  : outcome (list nat) :=
  let parent := bfs (S (length G)) G [source] [(source, source)] in
  match walk_back (S (length G)) parent source target [] with
  | Some p => Returned p
  | None => Raised NoPath
  end.

(** [path2edge(path)] *)
Fixpoint path2edge (path : list nat) : list edge :=
  match path with
  | u :: ((v :: _) as rest) => (u, v) :: path2edge rest
  | _ => []
  end.

(* ================================================================== *)
(** ** Loop removal *)

(** [remove_row(array, rows2remove)]: both arrays have their rows sorted;
    every row of the array equal to a row to remove is deleted. *)
Definition remove_row (array rows2remove : list edge) : list edge :=
  fold_left (fun arr r => filter (fun f => negb (edge_eqb f r)) arr)
            (map sort_edge rows2remove) (map sort_edge array).

(** [np.unique] of the flattened edge array. *)
Fixpoint insert_sorted (x : nat) (l : list nat) : list nat :=
  match l with
  | [] => [x]
  | y :: l' => if x <? y then x :: l
               else if x =? y then l
               else y :: insert_sorted x l'
  end.

Definition unique_nodes (es : list edge) : list nat :=
  fold_right (fun e acc => insert_sorted (fst e) (insert_sorted (snd e) acc)) [] es.

Definition is_branch (es : list edge) (v : nat) : bool := 3 <=? degree es v.
Definition is_terminal (es : list edge) (v : nat) : bool := degree es v =? 1.

(** First element of [l] with the largest key, [np.argmax]. *)
Fixpoint argmax_by {A : Type} (key : A -> Q) (best : A) (l : list A) : A :=
  match l with
  | [] => best
  | x :: l' => argmax_by key (if Qltb (key best) (key x) then x else best) l'
  end.

(** [np.mean(points, axis=0)] *)
Definition centroid (pts : list point) : point :=
  let n := inject_Z (Z.of_nat (length pts)) in
  (Qsum (map px pts) / n, Qsum (map py pts) / n, Qsum (map pz pts) / n)%Q.

(** The state of the loop: the graph [G] and the edge array. *)
Definition loop_state : Type := (list edge * list edge)%type.

Definition branch_cycle_of (es edges_cycle : list edge) : list nat :=
  filter (is_branch es) (unique_nodes edges_cycle).

(** Case of one branch vertex on the cycle. *)
Definition loop_case1 (nodes : list point) (st : loop_state)
           (edges_cycle : list edge) (b : nat) : loop_state :=
  let '(G, es) := st in
  let nodes_cycle := unique_nodes edges_cycle in
  let end_node :=
    match nodes_cycle with
    | [] => b
    | c :: cs =>
        argmax_by (fun v => sqdist (nth v nodes origin) (nth b nodes origin)) c cs
    end in
  (g_add (g_remove_edges_from G edges_cycle) (b, end_node),
   remove_row es edges_cycle ++ [(b, end_node)]).

(** Case of two branch vertices on the cycle. *)
Definition loop_case2 (st : loop_state) (edges_cycle : list edge) (b0 b1 : nat)
  : outcome loop_state :=
  let '(G, es) := st in
  path <- shortest_path G b0 b1 ;;
  let edge_path := map sort_edge (path2edge path) in
  let row_valid (r : edge) :=
    negb (length (filter (edge_eqb r) edge_path) =? 1) in
  let edge_path' := filter row_valid edges_cycle in
  Returned (g_remove_edges_from G edge_path', remove_row es edge_path').

(** Case of no branch vertex on the cycle. *)
Definition loop_case0 (st : loop_state) (edges_cycle : list edge) : loop_state :=
  let '(G, es) := st in
  (g_remove_edges_from G edges_cycle, remove_row es edges_cycle).

(** The vertex of the skeleton nearest to the centroid of the branch
    vertices, [np.argmin(dist)]. *)
Definition intersect_node_of (nodes : list point) (branch_cycle : list nat) : nat :=
  let c := centroid (map (fun v => nth v nodes origin) branch_cycle) in
  match seq 0 (length nodes) with
  | [] => 0
  | v :: vs => argmin_by (fun v => sqdist (nth v nodes origin) c) v vs
  end.

(** Case of three or more branch vertices on the cycle. *)
Definition loop_case3 (nodes : list point) (st : loop_state)
           (edges_cycle : list edge) (branch_cycle : list nat) : loop_state :=
  let '(G, es) := st in
  let intersect_node := intersect_node_of nodes branch_cycle in
  let new_edges :=
    map (fun b => (b, intersect_node))
        (filter (fun b => negb (b =? intersect_node)) branch_cycle) in
  (g_add_edges_from (g_remove_edges_from G edges_cycle) new_edges,
   remove_row es edges_cycle ++ new_edges).

(** One round of the [while True] loop on a detected cycle. *)
Definition loop_step (nodes : list point) (st : loop_state)
           (found : list edge) : outcome loop_state :=
  let edges_cycle := map sort_edge found in
  let branch_cycle := branch_cycle_of (snd st) edges_cycle in
  match branch_cycle with
  | [b] => Returned (loop_case1 nodes st edges_cycle b)
  | [b0; b1] => loop_case2 st edges_cycle b0 b1
  | [] => Returned (loop_case0 st edges_cycle)
  | _ => Returned (loop_case3 nodes st edges_cycle branch_cycle)
  end.

Fixpoint loop_removal (fuel : nat) (nodes : list point) (st : loop_state)
  : outcome loop_state :=
  match fuel with
  | 0 => OutOfFuel
  | S fuel' =>
      match cycle_finder (snd st) (length nodes) with
      | [] => Returned st
      | found =>
          st' <- loop_step nodes st found ;;
          loop_removal fuel' nodes st'
      end
  end.

Definition _remove_loops (fuel : nat) (skeleton : Skeleton) : outcome Skeleton :=
  let G := g_add_edges_from [] (edges skeleton) in
  st <- loop_removal fuel (vertices skeleton) (G, edges skeleton) ;;
  Returned (set_edges skeleton (snd st)).

Definition remove_loops (fuel : nat) (skeleton : Skeleton) : outcome Skeleton :=
  if empty skeleton then Returned skeleton
  else
    skels <- mapM (_remove_loops fuel) (components skeleton) ;;
    Returned (consolidate (simple_merge skels)).

(* ================================================================== *)
(** ** Tick removal *)

(** A dictionary keyed by superedges, in insertion order. *)
Definition dict : Type := list (edge * Q).

Fixpoint dict_get (k : edge) (d : dict) : option Q :=
  match d with
  | [] => None
  | (k', w) :: d' => if edge_eqb k' k then Some w else dict_get k d'
  end.

Fixpoint dict_set (k : edge) (w : Q) (d : dict) : dict :=
  match d with
  | [] => [(k, w)]
  | (k', w') :: d' =>
      if edge_eqb k' k then (k', w) :: d' else (k', w') :: dict_set k w d'
  end.

Definition dict_del (k : edge) (d : dict) : dict :=
  filter (fun kw => negb (edge_eqb (fst kw) k)) d.

(** [defaultdict(int)]: a missing key reads 0. *)
Definition counts : Type := list (nat * Z).

Definition count_get (k : nat) (c : counts) : Z :=
  match lookup k c with
  | Some z => z
  | None => 0%Z
  end.

Fixpoint count_set (k : nat) (z : Z) (c : counts) : counts :=
  match c with
  | [] => [(k, z)]
  | (k', z') :: c' =>
      if k' =? k then (k', z) :: c' else (k', z') :: count_set k z c'
  end.

(** A frame of the depth-first search: vertex, parent ([None] for the -1
    of the source), distance since the last critical vertex, and that
    critical vertex. *)
Record frame : Type := mkFrame {
  f_node : nat;
  f_parent : option nat;
  f_dist : Q;
  f_root : nat
}.

Definition is_parent (child : nat) (parent : option nat) : bool :=
  match parent with
  | Some p => child =? p
  | None => false
  end.

Fixpoint dedup (l : list nat) (seen : list nat) : list nat :=
  match l with
  | [] => []
  | x :: l' => if mem x seen then dedup l' seen else x :: dedup l' (x :: seen)
  end.

(** [tree[node]], the set of the neighbours of [node].  Python leaves the
    iteration order of a set open; the neighbours are taken here in the
    order of the rows that introduce them.  The order decides only in which
    order superedges enter the dictionary, hence which of several superedges
    of equal weight is the minimum. *)
Definition children_of (es : list edge) (node : nat) : list nat :=
  dedup (neighbors es node) [].

Definition is_critical (es : list edge) (v : nat) : bool :=
  is_terminal es v || is_branch es v.

(** The [while stack] loop of [_create_distance_graph]; the head of the
    list is the top of the stack. *)
Fixpoint dfs (fuel : nat) (s : Skeleton) (stack : list frame) (distgraph : dict)
  : outcome dict :=
  match stack with
  | [] => Returned distgraph
  | fr :: rest =>
      match fuel with
      | 0 => OutOfFuel
      | S fuel' =>
          let node := f_node fr in
          let hit := is_critical (edges s) node && negb (node =? f_root fr) in
          let distgraph' :=
            if hit then dict_set (f_root fr, node) (f_dist fr) distgraph
            else distgraph in
          let d := if hit then 0%Q else f_dist fr in
          let root := if hit then node else f_root fr in
          let pushed :=
            map (fun child =>
                   mkFrame child (Some node)
                           (d + dist (vertex s node) (vertex s child))%Q root)
                (filter (fun child => negb (is_parent child (f_parent fr)))
                        (children_of (edges s) node)) in
          dfs fuel' s (rev pushed ++ rest) distgraph'
      end
  end.

Definition terminal_nodes_of (es : list edge) : list nat :=
  filter (is_terminal es) (unique_nodes es).

Definition _create_distance_graph (fuel : nat) (s : Skeleton) : outcome dict :=
  match terminal_nodes_of (edges s) with
  | [] => Raised IndexError
  | t0 :: _ => dfs fuel s [mkFrame t0 None 0%Q t0] []
  end.

(** [fuse_edge(edg1)]: the superedges at [edg1] are replaced by one
    superedge between their other endpoints.  The new key is the tuple of
    the remaining endpoints; it is a superedge when there are exactly two
    (any other number makes the source fail when that key is unpacked,
    which is reported here at once). *)
Definition fuse_edge (dgraph : dict) (branch_counts : counts) (edg1 : nat)
  : outcome (dict * counts) :=
  let unify := filter (fun kw => touches edg1 (fst kw)) dgraph in
  let new_dist := Qsum (map snd unify) in
  let dgraph' := filter (fun kw => negb (touches edg1 (fst kw))) dgraph in
  let ends := unique_nodes (map fst unify) in
  if mem edg1 ends then
    match filter (fun v => negb (v =? edg1)) ends with
    | [a; b] =>
        Returned (dict_set (a, b) new_dist dgraph', count_set edg1 0%Z branch_counts)
    | _ => Raised ValueError
    end
  else Raised KeyError.

Definition fuse_if_two (st : dict * counts) (e : nat) : outcome (dict * counts) :=
  if (count_get e (snd st) =? 2)%Z then fuse_edge (fst st) (snd st) e
  else Returned st.

(** The state of the pruning loop: the graph [G], the supergraph and the
    branch counts. *)
Record tick_state : Type := mkTick {
  t_G : list edge;
  t_dgraph : dict;
  t_counts : counts
}.

Definition terminal_superedges (terminal_nodes : list nat) (dgraph : dict) : dict :=
  filter (fun kw => mem (fst (fst kw)) terminal_nodes
                    || mem (snd (fst kw)) terminal_nodes) dgraph.

(** What one round of the [while len(dgraph) > 1] loop does: leave the
    loop on its guard, on the branch-count test or on the threshold test, or
    prune the shortest terminal superedge. *)
Inductive round : Type :=
| StopGuard
| StopCounts
| StopThreshold
| Pruned (st : tick_state).

Definition prune (st : tick_state) (min_edge : edge) : outcome tick_state :=
  let '(e1, e2) := min_edge in
  path <- shortest_path (t_G st) e1 e2 ;;
  let G' := g_remove_edges_from (t_G st) (path2edge path) in
  let dgraph' := dict_del min_edge (t_dgraph st) in
  let c1 := count_set e1 (count_get e1 (t_counts st) - 1)%Z (t_counts st) in
  let c2 := count_set e2 (count_get e2 c1 - 1)%Z c1 in
  st1 <- fuse_if_two (dgraph', c2) e1 ;;
  st2 <- fuse_if_two st1 e2 ;;
  Returned (mkTick G' (fst st2) (snd st2)).

Definition tick_round (terminal_nodes : list nat) (threshold : Q)
           (st : tick_state) : outcome round :=
  if length (t_dgraph st) <=? 1 then Returned StopGuard
  else
    match first_min snd (terminal_superedges terminal_nodes (t_dgraph st)) with
    | None => Raised ValueError
    | Some (min_edge, w) =>
        if ((count_get (fst min_edge) (t_counts st) =? 1)
            && (count_get (snd min_edge) (t_counts st) =? 1))%Z
        then Returned StopCounts
        else if Qle_bool threshold w then Returned StopThreshold
        else st' <- prune st min_edge ;; Returned (Pruned st')
    end.

Fixpoint tick_loop (fuel : nat) (terminal_nodes : list nat) (threshold : Q)
         (st : tick_state) : outcome tick_state :=
  match fuel with
  | 0 => OutOfFuel
  | S fuel' =>
      r <- tick_round terminal_nodes threshold st ;;
      match r with
      | Pruned st' => tick_loop fuel' terminal_nodes threshold st'
      | _ => Returned st
      end
  end.

(** Vertices of [G] in insertion order. *)
Definition node_order (es : list edge) : list nat :=
  dedup (flat_map (fun e => [fst e; snd e]) es) [].

(** [list(G.edges)]: every vertex in insertion order with its neighbours
    not yet listed. *)
Fixpoint g_edges_from (G : list edge) (order : list nat) (seen : list nat)
  : list edge :=
  match order with
  | [] => []
  | n :: rest =>
      map (fun nbr => (n, nbr))
          (filter (fun nbr => negb (mem nbr seen)) (neighbors G n))
      ++ g_edges_from G rest (n :: seen)
  end.

Definition branch_counts_of (es : list edge) : counts :=
  map (fun v => (v, Z.of_nat (degree es v)))
      (filter (is_branch es) (unique_nodes es)).

Definition tick_init (skeleton : Skeleton) (dgraph : dict) : tick_state :=
  mkTick (g_add_edges_from [] (edges skeleton)) dgraph
         (branch_counts_of (edges skeleton)).

Definition _remove_ticks (fuel : nat) (skeleton : Skeleton) (threshold : Q)
  : outcome Skeleton :=
  if empty skeleton then Returned skeleton
  else
    dgraph <- _create_distance_graph fuel skeleton ;;
    st <- tick_loop fuel (terminal_nodes_of (edges skeleton)) threshold
                    (tick_init skeleton dgraph) ;;
    Returned (consolidate
                (set_edges skeleton
                   (g_edges_from (t_G st) (node_order (edges skeleton)) []))).

Definition remove_ticks (fuel : nat) (skeleton : Skeleton) (threshold : Q)
  : outcome Skeleton :=
  if empty skeleton then Returned skeleton
  else
    skels <- mapM (fun c => _remove_ticks fuel c threshold) (components skeleton) ;;
    Returned (consolidate (simple_merge skels)).

(* ================================================================== *)
(** ** The pipeline *)

Definition trim_skeleton (fuel : nat) (skeleton : Skeleton)
           (dust_threshold tick_threshold : Q) : outcome Skeleton :=
  let skeleton := remove_dust skeleton dust_threshold in
  skeleton <- remove_loops fuel skeleton ;;
  skeleton <- connect_pieces fuel skeleton ;;
  remove_ticks fuel skeleton tick_threshold.

End Pipeline.

(* ================================================================== *)
(** ** A cycle finder *)

(** Modelled from the spec: [igneous.skeletontricks.find_cycle] is a
    compiled module missing from the sources; the spec asks for any correct
    cycle detector.  This one reads the edges in the order of their first
    row (a repeated row is the same edge, the data model having no parallel
    edges), keeping the component labels of the edges read so far: the first
    edge whose endpoints are already connected closes a cycle, made of that
    edge and of a path between its endpoints among the earlier edges.  A
    self-loop is a cycle of one edge. *)
Fixpoint find_cycle_from (l : list nat) (seen : list edge) (es : list edge)
  : list edge :=
  match es with
  | [] => []
  | e :: es' =>
      if label_of l (fst e) =? label_of l (snd e) then
        match shortest_path seen (fst e) (snd e) with
        | Returned p => path2edge p ++ [(snd e, fst e)]
        | _ => [e]
        end
      else find_cycle_from (merge_labels l e) (seen ++ [e]) es'
  end.

(** One more than the largest vertex index of the rows. *)
Definition bound (es : list edge) : nat :=
  fold_right (fun e m => Nat.max (S (Nat.max (fst e) (snd e))) m) 0 es.

Definition find_cycle (es : list edge) (num_verts : nat) : list edge :=
  find_cycle_from (seq 0 (Nat.max num_verts (bound es))) []
                  (g_add_edges_from [] es).

(* ================================================================== *)
(** * Vocabulary of the properties *)

Unset Implicit Arguments.

(** ** Labels, components and consolidation *)

Definition alone (l : list nat) (v : nat) : Prop :=
  label_of l v = v /\ forall u, label_of l u = v -> u = v.

Definition kept (s : Skeleton) : list nat :=
  filter (used (edges s)) (seq 0 (length (vertices s))).

Definition canon (l : list nat) : Prop :=
  forall v, label_of l v <= v /\ label_of l (label_of l v) = label_of l v.

Definition comp_edges (l : list nat) (r : nat) (es : list edge) : list edge :=
  filter (fun e => label_of l (fst e) =? r) es.

(** ** Segments and structure *)

(** Same vertices with radii, and same undirected edges, up to a
    renumbering [sigma] of the vertices. *)
Definition same_structure (a b : Skeleton) : Prop :=
  exists sigma : list nat,
    Permutation sigma (seq 0 (length (vertices a))) /\
    vertices b = map (vertex a) sigma /\
    radii b = map (radius a) sigma /\
    forall u v,
      g_has (edges b) (u, v) = true
      <-> g_has (edges a) (nth u sigma 0, nth v sigma 0) = true.

Definition segment : Type := ((point * Q) * (point * Q))%type.

Definition seg_in (V : list point) (R : list Q) (e : edge) : segment :=
  ((nth (fst e) V origin, nth (fst e) R 0%Q),
   (nth (snd e) V origin, nth (snd e) R 0%Q)).

Definition segments (s : Skeleton) : list segment :=
  map (seg_in (vertices s) (radii s)) (edges s).

Definition seg_length (fsqrt : Q -> Q) (sg : segment) : Q :=
  dist fsqrt (fst (fst sg)) (fst (snd sg)).

(** The components that survive dust removal. *)
Definition survivors (fsqrt : Q -> Q) (s : Skeleton) (t : Q) : list Skeleton :=
  filter (fun c => Qltb t (cable_length fsqrt c)) (components s).

(** ** Connectivity, cycles and acyclicity *)

(** Two vertices are adjacent when some row of the edge array joins them,
    in either orientation. *)
Definition adj (es : list edge) (u v : nat) : Prop := g_has es (u, v) = true.

Inductive connected (es : list edge) : nat -> nat -> Prop :=
| conn_refl u : connected es u u
| conn_step u v w : adj es u v -> connected es v w -> connected es u w.

(** A graph is acyclic when every edge is a bridge: without it (and its
    duplicates) its endpoints are no longer connected.  A self-loop is never
    a bridge. *)
Definition acyclic (es : list edge) : Prop :=
  forall e, In e es -> ~ connected (g_remove es e) (fst e) (snd e).

(** A simple cycle, as the list of its vertices. *)
Fixpoint chain (es : list edge) (c : list nat) : Prop :=
  match c with
  | u :: ((v :: _) as rest) => adj es u v /\ chain es rest
  | _ => True
  end.

Definition simple_cycle (es : list edge) (c : list nat) : Prop :=
  3 <= length c /\ NoDup c /\ chain es c /\ adj es (last c 0) (hd 0 c).

Definition finder_ok (cf : list edge -> nat -> list edge) : Prop :=
  (forall es n, cf es n = [] -> acyclic es) /\
  (forall es n e, In e (cf es n) -> adj es (fst e) (snd e)).

Definition cycle_rows (c : list nat) : list edge :=
  path2edge c ++ [(last c 0, hd 0 c)].

(** An edge lies on a cycle when its endpoints stay connected without it. *)
Definition on_cycleb (n : nat) (es : list edge) (e : edge) : bool :=
  label_of (labels n (g_remove es e)) (fst e)
  =? label_of (labels n (g_remove es e)) (snd e).

Definition cycle_edge_count (n : nat) (es : list edge) : nat :=
  length (filter (on_cycleb n es) es).

(** ** Breadth-first search *)

Definition parent_ok (G : list edge) (src : nat) (parent : list (nat * nat)) : Prop :=
  forall w u, In (w, u) parent -> w = src \/ adj G u w.

(** The parent map of the search: the source first, every other vertex
    recorded once, after the vertex it was reached from. *)
Inductive tree_ok (src : nat) : list (nat * nat) -> Prop :=
| tree_root : tree_ok src [(src, src)]
| tree_snoc parent w u :
    tree_ok src parent ->
    lookup w parent = None ->
    lookup u parent <> None ->
    tree_ok src (parent ++ [(w, u)]).

Fixpoint pos (w : nat) (parent : list (nat * nat)) : nat :=
  match parent with
  | [] => 0
  | (k, _) :: rest => if k =? w then 0 else S (pos w rest)
  end.

Definition frontier_ok (frontier : list nat) (parent : list (nat * nat)) : Prop :=
  forall u, In u frontier -> lookup u parent <> None.

(** ** Supergraph and ticks *)








Fixpoint path_length (fsqrt : Q -> Q) (V : list point) (p : list nat) : Q :=
  match p with
  | u :: ((v :: _) as rest) =>
      (dist fsqrt (nth u V origin) (nth v V origin) + path_length fsqrt V rest)%Q
  | _ => 0%Q
  end.

(** ** Example skeletons *)

(** The two collinear paths of the end-to-end scenarios, 10 apart, with
    every radius equal to [r]. *)
Definition pt (x y z : Z) : point := (inject_Z x, inject_Z y, inject_Z z).

Definition two_paths (r : Q) : Skeleton :=
  mkSkeleton [pt 0 0 0; pt 10 0 0; pt 20 0 0; pt 30 0 0; pt 40 0 0; pt 50 0 0]
             [(0, 1); (1, 2); (3, 4); (4, 5)]
             [r; r; r; r; r; r] 1.

(** A triangle of three branch vertices 0, 1, 2 with the vertex 7 at its
    centroid, reached from 0 by the path 0-5-6-7. *)
Definition knot : Skeleton :=
  mkSkeleton [pt 0 0 0; pt 60 0 0; pt 0 60 0; pt 100 0 0; pt 0 100 0;
              pt 0 0 30; pt 20 20 30; pt 20 20 0]
             [(0, 1); (1, 2); (0, 2); (1, 3); (2, 4); (0, 5); (5, 6); (6, 7)]
             [1; 1; 1; 1; 1; 1; 1; 1]%Q 1.

(** The three-armed star with arms of length 30, 40 and 50 around vertex 0. *)
Definition tripod : Skeleton :=
  mkSkeleton [pt 0 0 0; pt 30 0 0; pt 0 40 0; pt 0 0 50]
             [(0, 1); (0, 2); (0, 3)] [1; 1; 1; 1]%Q 1.

Definition tripod_dgraph : dict := [((1, 0), 30%Q); ((0, 3), 50%Q); ((0, 2), 40%Q)].

(** The two paths with a seventh, isolated vertex of radius 100 lying
    between them. *)
Definition lone : Skeleton :=
  mkSkeleton (vertices (two_paths 3) ++ [pt 25 0 0])
             (edges (two_paths 3))
             (radii (two_paths 3) ++ [100%Q]) 1.

Definition tripod_trimmed : Skeleton :=
  mkSkeleton [pt 0 0 0; pt 0 40 0; pt 0 0 50] [(0, 1); (0, 2)] [1; 1; 1]%Q 1.

(** The ring of four vertices on a square. *)
Definition ring : Skeleton :=
  mkSkeleton [pt 0 0 0; pt 100 0 0; pt 100 100 0; pt 0 100 0]
             [(0, 1); (1, 2); (2, 3); (3, 0)] [1; 1; 1; 1]%Q 1.

(** A lollipop whose ring vertices all sit on the branch vertex: the round
    with one branch vertex adds the self-loop (0, 0), and with a finder that
    reports this self-loop every later round removes and adds it again. *)
Definition pinched : Skeleton :=
  mkSkeleton [pt 0 0 0; pt 0 0 0; pt 0 0 0; pt 5 0 0]
             [(0, 1); (1, 2); (2, 0); (0, 3)] [1; 1; 1; 1]%Q 1.

(** A triangle of branch vertices 1, 2, 3 whose centroid is nearest to the
    vertex 0, a neighbour of 1 at distance 30; long arms leave 2 and 3. *)
Definition burr : Skeleton :=
  mkSkeleton [pt 20 20 10; pt 0 0 0; pt 60 0 0; pt 0 60 0;
              pt 1060 0 0; pt 0 1060 0]
             [(1, 2); (2, 3); (3, 1); (0, 1); (2, 4); (3, 5)]
             [1; 1; 1; 1; 1; 1]%Q 1.



Set Implicit Arguments.

(** ** Orders *)

(** Lexicographic order on pairs of indices. *)
Definition pair_lt (p q : nat * nat) : Prop :=
  fst p < fst q \/ (fst p = fst q /\ snd p < snd q).
(* ================================================================== *)
(** ** Tick removal that prunes nothing *)

(** [list(G.edges)] for the graph built from the rows [es], before any
    edge is removed: every undirected edge once, from its end inserted
    first. *)
Definition graph_rows (es : list edge) : list edge :=
  g_edges_from (g_add_edges_from [] es) (node_order es) [].

(** A segment read from its other end. *)
Definition flip (sg : segment) : segment := (snd sg, fst sg).

(** The frame on top of the search stack of a skeleton without branch
    vertex: the source, or a vertex pushed by one of its neighbours. *)
Definition frame_ok (es : list edge) (fr : frame) : Prop :=
  match f_parent fr with
  | None => degree es (f_node fr) = 1 /\ f_root fr = f_node fr
  | Some y => In y (neighbors es (f_node fr))
  end.

(* ================================================================== *)
(** ** Double bookkeeping of loop removal *)

(** The graph [G] and the edge array hold the same undirected edges. *)
Definition same_graph (G es : list edge) : Prop :=
  forall u v, adj G u v <-> adj es u v.

(** A path 0-1-2 that ends on the ring 2-3-4. *)
Definition lollipop : Skeleton :=
  mkSkeleton [pt 0 0 0; pt 100 0 0; pt 200 0 0; pt 300 0 0; pt 300 200 0]
             [(0, 1); (1, 2); (2, 3); (3, 4); (4, 2)] [1; 1; 1; 1; 1]%Q 1.

(** The ring 1-2-3-4 with a tail at 1 and a tail at 3. *)
Definition two_tails : Skeleton :=
  mkSkeleton [pt 0 0 0; pt 100 0 0; pt 200 100 0; pt 300 0 0; pt 200 (-100) 0;
              pt 400 0 0]
             [(0, 1); (1, 2); (2, 3); (3, 4); (4, 1); (3, 5)]
             [1; 1; 1; 1; 1; 1]%Q 1.

(** ** The superedges of the distance graph *)

(** A route of the skeleton from the critical vertex [a] to the vertex [b]:
    a chain of edges whose vertices before the last are not critical, [a]
    apart. *)
Definition route (es : list edge) (a b : nat) (p : list nat) : Prop :=
  p <> [] /\ hd 0 p = a /\ last p 0 = b /\ chain es p /\
  Forall (fun v => is_critical es v = false \/ v = a) (removelast p).

(** The frame [fr] of the search was reached by a route from its root, of
    the length it carries. *)
Definition frame_route (fsqrt : Q -> Q) (s : Skeleton) (fr : frame) : Prop :=
  is_critical (edges s) (f_root fr) = true /\
  exists p, route (edges s) (f_root fr) (f_node fr) p /\
            (f_dist fr == path_length fsqrt (vertices s) p)%Q.

(** The superedge [kw] is the length of a route between two distinct
    critical vertices. *)
Definition superedge_ok (fsqrt : Q -> Q) (s : Skeleton) (kw : edge * Q) : Prop :=
  is_critical (edges s) (fst (fst kw)) = true /\
  is_critical (edges s) (snd (fst kw)) = true /\
  fst (fst kw) <> snd (fst kw) /\
  exists p, route (edges s) (fst (fst kw)) (snd (fst kw)) p /\
            (snd kw == path_length fsqrt (vertices s) p)%Q.

(** The skeleton of the example of [_create_distance_graph]: the path
    1-2-3-4 with the twigs 2-5 and 3-6. *)
Definition comb : Skeleton :=
  mkSkeleton [pt 0 0 0; pt 0 0 0; pt 60 0 0; pt 120 0 0; pt 180 0 0;
              pt 60 30 0; pt 120 70 0]
             [(1, 2); (2, 3); (3, 4); (2, 5); (3, 6)]
             [1; 1; 1; 1; 1; 1; 1]%Q 1.

(** ** Loops under the search of the distance graph *)

(** A set of vertices in which every vertex has two distinct neighbours of
    the set: the vertices of a loop, or of several loops. *)
Definition loop_core (es : list edge) (C : list nat) : Prop :=
  forall v, In v C ->
    exists w1 w2, w1 <> w2 /\ In w1 C /\ In w2 C /\ adj es v w1 /\ adj es v w2.

(** The frame [fr] is bound for [C]: a simple chain leads from its vertex
    into [C], and does not start with the edge that the frame came by. *)
Definition bound_for (es : list edge) (C : list nat) (fr : frame) : Prop :=
  exists q,
    chain es (f_node fr :: q) /\ NoDup (f_node fr :: q) /\
    In (last (f_node fr :: q) 0) C /\
    match q with
    | x1 :: _ => f_parent fr <> Some x1
    | [] => True
    end.
(* ================================================================== *)
(** ** Bridges *)


(* ================================================================== *)
(** * Row search and row deletion, step by step *)

(** [find_row] and the loop of [remove_row] as the source writes them; the
    properties compare them with [remove_row] above. *)

(** A two-dimensional integer array as the list of its rows; [ndim] is its
    number of columns, [array.shape[1]]. *)
Definition column_eq (i : nat) (r row : list nat) : bool :=
  nth i r 0 =? nth i row 0.

(** [row_loc] of [find_row]: set from the column tests for two and for
    three columns only, all zeros otherwise. *)
Definition row_loc (ndim : nat) (array : list (list nat)) (row : list nat)
  : list bool :=
  match ndim with
  | 2 => map (fun r => column_eq 0 r row && column_eq 1 r row) array
  | 3 => map (fun r => column_eq 0 r row && column_eq 1 r row
                       && column_eq 2 r row) array
  | _ => map (fun _ => false) array
  end.

(** [find_row(array, row)]: the indices of the rows equal to [row];
    [None] stands for the -1 returned when there is none. *)
Definition find_row (ndim : nat) (array : list (list nat)) (row : list nat)
  : outcome (option (list nat)) :=
  if negb (ndim =? length row) then Raised ValueError
  else
    match where_ (row_loc ndim array row) with
    | [] => Returned None
    | idx => Returned (Some idx)
    end.

(** [np.delete(array, idx, axis=0)] *)
Fixpoint delete_from {A : Type} (k : nat) (idx : list nat) (array : list A)
  : list A :=
  match array with
  | [] => []
  | r :: rest =>
      if mem k idx then delete_from (S k) idx rest
      else r :: delete_from (S k) idx rest
  end.

Definition np_delete {A : Type} (array : list A) (idx : list nat)
  : outcome (list A) :=
  if forallb (fun i => i <? length array) idx
  then Returned (delete_from 0 idx array)
  else Raised IndexError.

(** The [for] loop of [remove_row] on the sorted arrays. *)
Fixpoint remove_row_loop (array rows2remove : list (list nat))
  : outcome (list (list nat)) :=
  match rows2remove with
  | [] => Returned array
  | r :: rest =>
      idx <- find_row 2 array r ;;
      match idx with
      | None => remove_row_loop array rest
      | Some idx =>
          array' <- np_delete array idx ;;
          remove_row_loop array' rest
      end
  end.

Definition row_of (e : edge) : list nat := [fst e; snd e].

(** [remove_row(array, rows2remove)] on edge arrays, row by row through
    [find_row] and [np.delete]. *)
Definition remove_row_steps (array rows2remove : list edge)
  : outcome (list (list nat)) :=
  remove_row_loop (map (fun e => row_of (sort_edge e)) array)
                  (map (fun e => row_of (sort_edge e)) rows2remove).
(* ================================================================== *)
(** * The merge task (igneous/tasks/skeletonization/tasks.py) *)

(** ** File names of skeleton fragments *)

(** File names are ASCII strings. *)
Definition filename : Type := list Ascii.ascii.

Definition colon : Ascii.ascii := Ascii.ascii_of_N 58.

(** [\d] on ASCII text. *)
Definition is_digit (c : Ascii.ascii) : bool :=
  ((48 <=? Ascii.N_of_ascii c) && (Ascii.N_of_ascii c <=? 57))%N.

Definition digit_value (c : Ascii.ascii) : N := (Ascii.N_of_ascii c - 48)%N.

(** [\d+] at the head of [s], greedy: the longest run of digits and the
    text after it. *)
Fixpoint span_digits (s : filename) : filename * filename :=
  match s with
  | c :: s' =>
      if is_digit c
      then let '(ds, rest) := span_digits s' in (c :: ds, rest)
      else ([], s)
  | [] => ([], [])
  end.

(** [int(segid)] of a string of digits. *)
Definition int_of_digits (ds : filename) : N :=
  fold_left (fun acc c => (10 * acc + digit_value c)%N) ds 0%N.

(** The pattern [(\d+):] matched at the head of [s].  A shorter run of
    digits is followed by a digit, never by the colon, so that backtracking
    finds no other match. *)
Definition match_here (s : filename) : option N :=
  match span_digits s with
  | (d :: ds, c :: _) =>
      if Ascii.eqb c colon then Some (int_of_digits (d :: ds)) else None
  | _ => None
  end.

(** [re.search(r'(\d+):', filename)]: the segment identifier of the
    leftmost match. *)
Fixpoint search (s : filename) : option N :=
  match match_here s with
  | Some segid => Some segid
  | None =>
      match s with
      | [] => None
      | _ :: s' => search s'
      end
  end.

(** [skeletons[segid].append(filename)] on a [defaultdict(list)], in
    insertion order. *)
Fixpoint dict_append (segid : N) (f : filename) (d : list (N * list filename))
  : list (N * list filename) :=
  match d with
  | [] => [(segid, [f])]
  | (k, fs) :: d' =>
      if (k =? segid)%N then (k, fs ++ [f]) :: d'
      else (k, fs) :: dict_append segid f d'
  end.

(** [get_filenames_subset], on the listing that the storage yields for the
    prefix. *)
Definition get_filenames_subset (listing : list filename)
  : list (N * list filename) :=
  fold_left (fun skeletons f =>
               match search f with
               | Some segid => dict_append segid f skeletons
               | None => skeletons
               end)
            listing [].

(** [str(n)], the decimal digits of [n]. *)
Definition digit_char (d : N) : Ascii.ascii := Ascii.ascii_of_N (48 + d).

Fixpoint digits_from (fuel : nat) (n : N) (acc : filename) : filename :=
  match fuel with
  | 0 => acc
  | S fuel' =>
      let acc' := digit_char (n mod 10) :: acc in
      if (n <? 10)%N then acc' else digits_from fuel' (n / 10) acc'
  end.

Definition str (n : N) : filename := digits_from (S (N.to_nat (N.log2 n))) n [].

(** The name under which [SkeletonTask.upload] stores a fragment:
    ["{}:{}".format(skeleton.id, roi.to_filename())]. *)
Definition fragment_name (id : N) (roi : filename) : filename :=
  str id ++ colon :: roi.

(** The files of a group, the empty list for a missing key. *)
Fixpoint group_of (segid : N) (d : list (N * list filename)) : list filename :=
  match d with
  | [] => []
  | (k, fs) :: d' => if (k =? segid)%N then fs else group_of segid d'
  end.

(** Whether the name [f] carries the segment identifier [segid]. *)
Definition has_segid (segid : N) (f : filename) : bool :=
  match search f with
  | Some k => (k =? segid)%N
  | None => false
  end.

(** [name.startswith(prefix)], the test by which the storage lists the
    files of a prefix. *)
Fixpoint starts_with (prefix name : filename) : bool :=
  match prefix, name with
  | [], _ => true
  | c :: p, d :: n => Ascii.eqb c d && starts_with p n
  | _ :: _, [] => false
  end.

(** ** Pairs of overlapping fragments *)

Section Pairing.

(** [Bbox.from_filename] and [Bbox.intersects] of the cloudvolume
    library. *)
Variable bbox : Type.
Variable from_filename : filename -> bbox.
Variable intersects : bbox -> bbox -> bool.

(** [find_paired_skeletons(filenames)] *)
Definition find_paired_skeletons (filenames : list filename)
  : list (filename * filename) :=
  flat_map
    (fun i =>
       let adj1 := from_filename (nth i filenames []) in
       flat_map
         (fun j =>
            let adj2 := from_filename (nth j filenames []) in
            if intersects adj1 adj2
            then [(nth i filenames [], nth j filenames [])]
            else [])
         (seq (i + 1) (length filenames - (i + 1))))
    (seq 0 (length filenames - 1)).

End Pairing.

(** ** Fusing the fragments *)

(** [astype(np.uint32)] *)
Definition wrap32 (x : nat) : nat := N.to_nat (N.modulo (N.of_nat x) 4294967296).

(** [skel.edges.astype(np.uint32)] followed by [skel.edges += offset]. *)
Definition offset_edge (offset : nat) (e : edge) : edge :=
  (wrap32 (wrap32 (fst e) + offset), wrap32 (wrap32 (snd e) + offset)).

(** The loop of [fuse_skeletons] over [skeletons[1:]]: every fragment with
    an edge is appended to [fusing], its edges moved by [offset], and
    [offset] grows by the number of its vertices. *)
Fixpoint fusing_loop (fusing : Skeleton) (offset : nat) (rest : list Skeleton)
  : Skeleton :=
  match rest with
  | [] => fusing
  | skel :: rest' =>
      if length (edges skel) =? 0 then fusing_loop fusing offset rest'
      else
        fusing_loop
          (mkSkeleton (vertices fusing ++ vertices skel)
                      (edges fusing ++ map (offset_edge offset) (edges skel))
                      (radii fusing ++ radii skel)
                      (id fusing))
          (offset + length (vertices skel)) rest'
  end.

(** The fragments of [skeletons[1:]] that the loop appends. *)
Definition with_edges (rest : list Skeleton) : list Skeleton :=
  filter (fun skel => negb (length (edges skel) =? 0)) rest.

Definition total_vertices (l : list Skeleton) : nat :=
  list_sum (map (fun skel => length (vertices skel)) l).

(* ================================================================== *)
(** * The command line (igneous_cli/cli.py) *)

(** The process count that [main] stores in the context, from the option
    [--parallel] and [mp.cpu_count()]. *)
Definition main (cpu_count parallel : Z) : Z :=
  let parallel := if (parallel =? 0)%Z then cpu_count else parallel in
  Z.max (Z.min parallel cpu_count) 1.

(** The runs of [execute_helper] that [execute] starts, each with the
    arguments [args]: one in the calling process when [parallel] is 1, else
    one per worker submitted to a pool of [parallel] processes.
    [mp.Pool] raises [ValueError] for fewer than one process. *)
Definition execute {A : Type} (parallel : Z) (args : A) : outcome (list A) :=
  if (parallel =? 1)%Z then Returned [args]
  else if (parallel <? 1)%Z then Raised ValueError
  else Returned (repeat args (Z.to_nat parallel)).

Unset Implicit Arguments.

(* ================================================================== *)
(** * Properties *)

(** ** Order on rationals *)

Lemma Qltb_lt (a b : Q) : Qltb a b = true <-> (a < b)%Q.
Proof.
  unfold Qltb. rewrite negb_true_iff. split; intro H.
  - apply Qnot_le_lt. intro Hle. apply Qle_bool_iff in Hle. congruence.
  - destruct (Qle_bool b a) eqn:E; [|reflexivity].
    apply Qle_bool_iff in E. exfalso. apply (Qlt_not_le _ _ H E).
Qed.

Lemma Qltb_ge (a b : Q) : Qltb a b = false <-> (b <= a)%Q.
Proof.
  unfold Qltb. rewrite negb_false_iff. apply Qle_bool_iff.
Qed.

(** ** First minimum of a list *)

Section FirstMin.

Context {A : Type} (key : A -> Q).

Lemma argmin_by_spec (l : list A) (best : A) :
  let r := argmin_by key best l in
  (key r <= key best)%Q /\
  (forall y, In y l -> (key r <= key y)%Q) /\
  (r = best \/ In r l).
Proof.
  revert best. induction l as [|x l IH]; intro best; simpl.
  - split; [apply Qle_refl|]. split; [intros y []|now left].
  - destruct (Qltb (key x) (key best)) eqn:E.
    + apply Qltb_lt in E. destruct (IH x) as (H1 & H2 & H3).
      split; [eapply Qle_trans; [exact H1|apply Qlt_le_weak, E]|].
      split.
      * intros y [<-|Hy]; [exact H1|apply H2, Hy].
      * right. destruct H3 as [->|H3]; [now left|now right].
    + apply Qltb_ge in E. destruct (IH best) as (H1 & H2 & H3).
      split; [exact H1|]. split.
      * intros y [<-|Hy]; [eapply Qle_trans; eassumption|apply H2, Hy].
      * destruct H3 as [->|H3]; [now left|right; now right].
Qed.

Lemma first_min_spec (l : list A) (r : A) :
  first_min key l = Some r ->
  In r l /\ forall y, In y l -> (key r <= key y)%Q.
Proof.
  destruct l as [|x l]; simpl; [discriminate|].
  intro H. injection H as <-.
  destruct (argmin_by_spec l x) as (H1 & H2 & H3).
  split.
  - destruct H3 as [->|H3]; [now left|now right].
  - intros y [<-|Hy]; [exact H1|apply H2, Hy].
Qed.

Lemma first_min_none (l : list A) : first_min key l = None -> l = [].
Proof. destruct l; simpl; [reflexivity|discriminate]. Qed.

End FirstMin.

(** ** Piece connection: the bridging rule *)

Section Bridging.

Variable fsqrt : Q -> Q.

Local Abbreviation d_ nodes p q := (dist fsqrt (nth p nodes origin) (nth q nodes origin)).

Lemma query_spec nodes tree p d q :
  query fsqrt nodes tree p = Some (d, q) ->
  d = d_ nodes p q /\ In q tree /\
  forall q', In q' tree -> (d <= d_ nodes p q')%Q.
Proof.
  unfold query.
  destruct (first_min _ tree) as [q0|] eqn:E; [|discriminate].
  intro H. injection H as <- <-.
  apply first_min_spec in E. destruct E as [Hin Hmin].
  split; [reflexivity|]. split; [exact Hin|exact Hmin].
Qed.

Lemma query_some nodes tree p :
  tree <> [] -> exists d q, query fsqrt nodes tree p = Some (d, q).
Proof.
  intro Hne. unfold query.
  destruct (first_min _ tree) as [q0|] eqn:E.
  - eauto.
  - apply first_min_none in E. contradiction.
Qed.

Lemma closest_spec nodes piece tree p q d :
  closest fsqrt nodes piece tree = Some (p, q, d) ->
  In p piece /\ In q tree /\ d = d_ nodes p q /\
  forall p' q', In p' piece -> In q' tree -> (d <= d_ nodes p' q')%Q.
Proof.
  unfold closest. destruct tree as [|q0 tree0] eqn:Et; [discriminate|].
  rewrite <- Et. assert (Hne : tree <> []) by (rewrite Et; discriminate).
  clear Et.
  destruct (first_min _ piece) as [p0|] eqn:E; [|discriminate].
  destruct (query fsqrt nodes tree p0) as [[d0 q1]|] eqn:Eq; [|discriminate].
  intro H. injection H as -> -> ->.
  apply first_min_spec in E. destruct E as [Hin Hmin].
  pose proof (query_spec _ _ _ _ _ Eq) as (Hd & Hq & Hqmin).
  split; [exact Hin|]. split; [exact Hq|]. split; [exact Hd|].
  intros p' q' Hp' Hq'.
  specialize (Hmin p' Hp'). simpl in Hmin. rewrite Eq in Hmin.
  destruct (query_some nodes tree p' Hne) as (d' & q'' & Eq').
  rewrite Eq' in Hmin.
  pose proof (query_spec _ _ _ _ _ Eq') as (_ & _ & Hmin').
  eapply Qle_trans; [exact Hmin|apply Hmin', Hq'].
Qed.

Lemma where_from_In k mask v :
  In v (where_from k mask) <-> k <= v /\ nth_error mask (v - k) = Some true.
Proof.
  revert k. induction mask as [|b m IH]; intro k; simpl.
  - split; [intros []|]. intros [_ H]. destruct (v - k); discriminate.
  - assert (Hrec : In v (where_from (S k) m) <->
                   k <= v /\ v <> k /\ nth_error m (v - S k) = Some true).
    { rewrite IH. split.
      - intros [H1 H2]. repeat split; [lia|lia|exact H2].
      - intros (H1 & H2 & H3). split; [lia|exact H3]. }
    destruct b; simpl; rewrite ?Hrec.
    + split.
      * intros [<-|(H1 & H2 & H3)].
        -- split; [lia|]. now rewrite Nat.sub_diag.
        -- split; [exact H1|].
           replace (v - k) with (S (v - S k)) by lia. exact H3.
      * intros [H1 H2]. destruct (Nat.eq_dec k v) as [->|Hne]; [now left|].
        right. repeat split; [lia|lia|].
        replace (v - k) with (S (v - S k)) in H2 by lia. exact H2.
    + split.
      * intros (H1 & H2 & H3). split; [exact H1|].
        replace (v - k) with (S (v - S k)) by lia. exact H3.
      * intros [H1 H2]. destruct (Nat.eq_dec k v) as [->|Hne].
        -- rewrite Nat.sub_diag in H2. discriminate.
        -- repeat split; [lia|lia|].
           replace (v - k) with (S (v - S k)) in H2 by lia. exact H2.
Qed.

Lemma where_In mask v : In v (where_ mask) <-> nth_error mask v = Some true.
Proof.
  unfold where_. rewrite where_from_In, Nat.sub_0_r.
  split; [intros [_ H]; exact H|intro H; split; [lia|exact H]].
Qed.


End Bridging.



(** ** Edges and the graph [G] *)

Lemma edge_eqb_eq (e f : edge) : edge_eqb e f = true <-> e = f.
Proof.
  unfold edge_eqb. rewrite andb_true_iff, !Nat.eqb_eq.
  destruct e, f; simpl. split; [intros [-> ->]; reflexivity|].
  intro H. injection H as -> ->. split; reflexivity.
Qed.

Lemma edge_eqb_refl (e : edge) : edge_eqb e e = true.
Proof. apply edge_eqb_eq. reflexivity. Qed.

Lemma edge_eqb_neq (e f : edge) : edge_eqb e f = false <-> e <> f.
Proof.
  rewrite <- edge_eqb_eq. destruct (edge_eqb e f); split; congruence.
Qed.

Lemma sort_edge_idem (e : edge) : sort_edge (sort_edge e) = sort_edge e.
Proof. unfold sort_edge. simpl. f_equal; lia. Qed.

Lemma sort_edge_swap (u v : nat) : sort_edge (u, v) = sort_edge (v, u).
Proof. unfold sort_edge. simpl. f_equal; lia. Qed.

Lemma same_edge_iff (e f : edge) :
  same_edge e f = true <-> sort_edge e = sort_edge f.
Proof. unfold same_edge. apply edge_eqb_eq. Qed.

Lemma same_edge_refl (e : edge) : same_edge e e = true.
Proof. apply same_edge_iff. reflexivity. Qed.

Lemma same_edge_sym (e f : edge) : same_edge e f = same_edge f e.
Proof.
  destruct (same_edge e f) eqn:E1, (same_edge f e) eqn:E2; try reflexivity.
  - apply same_edge_iff in E1. symmetry in E1. apply same_edge_iff in E1. congruence.
  - apply same_edge_iff in E2. symmetry in E2. apply same_edge_iff in E2. congruence.
Qed.

Lemma remove_rows_In (rows arr : list edge) (r : edge) :
  In r (fold_left (fun a x => filter (fun f => negb (edge_eqb f x)) a) rows arr)
  <-> In r arr /\ ~ In r rows.
Proof.
  revert arr. induction rows as [|x rows IH]; intro arr; simpl.
  - tauto.
  - rewrite IH, filter_In, negb_true_iff, edge_eqb_neq. split.
    + intros [[H1 H2] H3]. split; [exact H1|]. intros [H|H]; [congruence|tauto].
    + intros [H1 H2]. split; [split; [exact H1|]|]; intro H; apply H2; auto.
Qed.

Lemma remove_row_In (arr rows : list edge) (r : edge) :
  In r (remove_row arr rows)
  <-> In r (map sort_edge arr) /\ ~ In r (map sort_edge rows).
Proof. unfold remove_row. apply remove_rows_In. Qed.

Lemma g_has_true (G : list edge) (e : edge) :
  g_has G e = true <-> exists f, In f G /\ sort_edge f = sort_edge e.
Proof.
  unfold g_has. rewrite existsb_exists. split; intros (f & H1 & H2); exists f;
    (split; [exact H1|]).
  - apply same_edge_iff in H2. congruence.
  - apply same_edge_iff. congruence.
Qed.

Lemma g_remove_edges_from_In (rs G : list edge) (f : edge) :
  In f (g_remove_edges_from G rs)
  <-> In f G /\ forall r, In r rs -> sort_edge r <> sort_edge f.
Proof.
  unfold g_remove_edges_from. revert G.
  induction rs as [|x rs IH]; intro G; simpl.
  - split; [intro H; split; [exact H|intros r []]|tauto].
  - rewrite IH. unfold g_remove at 1. rewrite filter_In, negb_true_iff. split.
    + intros [[H1 H2] H3]. split; [exact H1|].
      intros r [<-|Hr]; [|apply H3, Hr].
      intro E. apply same_edge_iff in E. congruence.
    + intros [H1 H2]. split; [split; [exact H1|]|].
      * destruct (same_edge x f) eqn:E; [|reflexivity].
        apply same_edge_iff in E. exfalso. apply (H2 x); auto.
      * intros r Hr. apply H2. auto.
Qed.

Lemma g_add_has (G : list edge) (a e : edge) :
  g_has (g_add G a) e = true
  <-> g_has G e = true \/ sort_edge a = sort_edge e.
Proof.
  unfold g_add. destruct (g_has G a) eqn:Ea.
  - split; [auto|]. intros [H|H]; [exact H|].
    apply g_has_true in Ea. destruct Ea as (f & H1 & H2).
    apply g_has_true. exists f. split; [exact H1|congruence].
  - rewrite !g_has_true. split.
    + intros (f & H1 & H2). apply in_app_or in H1. destruct H1 as [H1|[<-|[]]].
      * left. exists f. auto.
      * right. exact H2.
    + intros [(f & H1 & H2)|H].
      * exists f. split; [apply in_or_app; auto|exact H2].
      * exists a. split; [apply in_or_app; right; now left|exact H].
Qed.

Lemma g_add_edges_from_has (rs G : list edge) (e : edge) :
  g_has (g_add_edges_from G rs) e = true
  <-> g_has G e = true \/ exists r, In r rs /\ sort_edge r = sort_edge e.
Proof.
  unfold g_add_edges_from. revert G.
  induction rs as [|x rs IH]; intro G; simpl.
  - split; [auto|]. intros [H|(r & [] & _)]. exact H.
  - rewrite IH, g_add_has. split.
    + intros [[H|H]|(r & H1 & H2)]; [auto| |].
      * right. exists x. auto.
      * right. exists r. auto.
    + intros [H|(r & [<-|H1] & H2)]; [auto|auto|].
      right. exists r. auto.
Qed.

(** ** Loop removal: the multi-branch case *)



(** ** Sorted unique vertices *)

Lemma insert_sorted_In (x y : nat) (l : list nat) :
  In y (insert_sorted x l) <-> y = x \/ In y l.
Proof.
  induction l as [|z l IH]; simpl.
  - intuition.
  - destruct (x <? z) eqn:E1; [simpl; intuition|].
    destruct (x =? z) eqn:E2.
    + apply Nat.eqb_eq in E2. subst. simpl. intuition.
    + simpl. rewrite IH. intuition.
Qed.

Lemma insert_sorted_sorted (x : nat) (l : list nat) :
  Sorted.StronglySorted lt l -> Sorted.StronglySorted lt (insert_sorted x l).
Proof.
  induction 1 as [|z l Hs IH Hz]; simpl.
  - constructor; constructor.
  - destruct (x <? z) eqn:E1.
    + apply Nat.ltb_lt in E1. constructor; [constructor; assumption|].
      constructor; [exact E1|].
      rewrite Forall_forall in *. intros y Hy. specialize (Hz y Hy). lia.
    + destruct (x =? z) eqn:E2; [constructor; assumption|].
      apply Nat.ltb_ge in E1. apply Nat.eqb_neq in E2.
      constructor; [exact IH|].
      rewrite Forall_forall in *. intros y Hy.
      apply insert_sorted_In in Hy. destruct Hy as [->|Hy]; [lia|auto].
Qed.

Lemma unique_nodes_In (es : list edge) (v : nat) :
  In v (unique_nodes es) <-> exists e, In e es /\ (fst e = v \/ snd e = v).
Proof.
  induction es as [|e es IH]; simpl.
  - split; [intros []|intros (e & [] & _)].
  - rewrite !insert_sorted_In, IH. split.
    + intros [->|[->|(f & H1 & H2)]]; [exists e; auto|exists e; auto|exists f; auto].
    + intros (f & [<-|H1] & H2).
      * destruct H2; [left|right; left]; congruence.
      * right; right. exists f. auto.
Qed.

Lemma unique_nodes_sorted (es : list edge) :
  Sorted.StronglySorted lt (unique_nodes es).
Proof.
  induction es as [|e es IH]; simpl.
  - constructor.
  - apply insert_sorted_sorted, insert_sorted_sorted, IH.
Qed.



(** ** Tick removal: the branch counts *)



Lemma mem_In (x : nat) (l : list nat) : mem x l = true <-> In x l.
Proof.
  unfold mem. rewrite existsb_exists. split.
  - intros (y & H1 & H2). apply Nat.eqb_eq in H2. subst. exact H1.
  - intro H. exists x. split; [exact H|apply Nat.eqb_refl].
Qed.




Section TickCounts.

Variable fsqrt : Q -> Q.



End TickCounts.





Lemma min_edge_in_dgraph (T : list nat) (d : dict) (k : edge) (w : Q) :
  first_min snd (terminal_superedges T d) = Some (k, w) -> In (k, w) d.
Proof.
  intro H. apply first_min_spec in H. destruct H as [H _].
  unfold terminal_superedges in H. apply filter_In in H. apply H.
Qed.

Lemma tick_round_pruned (T : list nat) (thr : Q) (st st' : tick_state) :
  tick_round T thr st = Returned (Pruned st') ->
  exists k w, In (k, w) (t_dgraph st) /\ prune st k = Returned st'.
Proof.
  unfold tick_round. destruct (length (t_dgraph st) <=? 1); [discriminate|].
  destruct (first_min snd (terminal_superedges T (t_dgraph st))) as [[k w]|] eqn:E;
    [|discriminate].
  destruct (_ && _)%bool; [discriminate|].
  destruct (Qle_bool thr w); [discriminate|].
  destruct (prune st k) as [st1| |] eqn:Ep; simpl; try discriminate.
  intro H. injection H as <-. exists k, w.
  split; [eapply min_edge_in_dgraph; exact E|exact Ep].
Qed.








(** ** Labels *)

Lemma relabel_length (a b : nat) (l : list nat) : length (relabel a b l) = length l.
Proof. unfold relabel. apply length_map. Qed.

Lemma merge_labels_length (l : list nat) (e : edge) :
  length (merge_labels l e) = length l.
Proof. unfold merge_labels. apply relabel_length. Qed.

Lemma fold_merge_length (es : list edge) :
  forall l, length (fold_left merge_labels es l) = length l.
Proof.
  induction es as [|e es IH]; intro l; simpl; [reflexivity|].
  rewrite IH. apply merge_labels_length.
Qed.

Lemma labels_length (n : nat) (es : list edge) : length (labels n es) = n.
Proof. unfold labels. rewrite fold_merge_length. apply length_seq. Qed.

Lemma label_of_relabel (a b : nat) (l : list nat) (v : nat) :
  v < length l ->
  label_of (relabel a b l) v = if label_of l v =? a then b else label_of l v.
Proof.
  intro Hv. unfold label_of, relabel.
  rewrite (nth_indep _ v (if v =? a then b else v)) by (rewrite length_map; exact Hv).
  rewrite (map_nth (fun x => if x =? a then b else x)). reflexivity.
Qed.

Lemma label_of_out (l : list nat) (v : nat) : length l <= v -> label_of l v = v.
Proof. intro H. unfold label_of. apply nth_overflow. exact H. Qed.

(** ** Empty skeletons and malformed input *)




Section Malformed.

Variable fsqrt : Q -> Q.
Variable cycle_finder : list edge -> nat -> list edge.

Lemma trim_skeleton_empty (fuel : nat) (s : Skeleton) (d t : Q) :
  empty s = true -> trim_skeleton fsqrt cycle_finder fuel s d t = Returned s.
Proof.
  intro He. unfold trim_skeleton, remove_dust. rewrite He.
  unfold remove_loops. rewrite He. simpl.
  unfold connect_pieces. rewrite He. simpl.
  unfold remove_ticks. rewrite He. reflexivity.
Qed.


End Malformed.




(** ** Isolated vertices *)

Lemma used_false (es : list edge) (v : nat) :
  used es v = false <-> forall e, In e es -> touches v e = false.
Proof.
  unfold used. split.
  - intros H e He. destruct (touches v e) eqn:E; [|reflexivity].
    assert (existsb (touches v) es = true) by (apply existsb_exists; eauto).
    congruence.
  - intro H. destruct (existsb (touches v) es) eqn:E; [|reflexivity].
    apply existsb_exists in E. destruct E as (e & He & Ht).
    rewrite (H e He) in Ht. discriminate.
Qed.

Lemma used_true (es : list edge) (v : nat) :
  used es v = true <-> exists e, In e es /\ (fst e = v \/ snd e = v).
Proof.
  unfold used. rewrite existsb_exists. unfold touches.
  split; intros (e & He & H); exists e; (split; [exact He|]).
  - apply orb_true_iff in H. rewrite !Nat.eqb_eq in H. exact H.
  - apply orb_true_iff. rewrite !Nat.eqb_eq. exact H.
Qed.

Lemma touches_false (v : nat) (e : edge) :
  touches v e = false <-> fst e <> v /\ snd e <> v.
Proof.
  unfold touches. rewrite orb_false_iff, !Nat.eqb_neq. tauto.
Qed.

Lemma label_of_seq (n u : nat) : label_of (seq 0 n) u = u.
Proof.
  unfold label_of. destruct (Nat.lt_ge_cases u n) as [H|H].
  - rewrite seq_nth by exact H. reflexivity.
  - apply nth_overflow. rewrite length_seq. exact H.
Qed.

Lemma label_of_merge (l : list nat) (e : edge) (u : nat) :
  label_of (merge_labels l e) u
  = if u <? length l
    then (if label_of l u =? Nat.max (label_of l (fst e)) (label_of l (snd e))
          then Nat.min (label_of l (fst e)) (label_of l (snd e))
          else label_of l u)
    else u.
Proof.
  unfold merge_labels. fold (label_of l (fst e)). fold (label_of l (snd e)).
  destruct (u <? length l) eqn:E.
  - apply Nat.ltb_lt in E. apply label_of_relabel. exact E.
  - apply Nat.ltb_ge in E. apply label_of_out. rewrite relabel_length. exact E.
Qed.

Lemma alone_merge (l : list nat) (e : edge) (v : nat) :
  touches v e = false -> alone l v -> alone (merge_labels l e) v.
Proof.
  intros Ht [Hv Hu]. apply touches_false in Ht. destruct Ht as [H1 H2].
  assert (La : label_of l (fst e) <> v) by (intro H; apply H1, Hu, H).
  assert (Lb : label_of l (snd e) <> v) by (intro H; apply H2, Hu, H).
  split.
  - rewrite label_of_merge. destruct (v <? length l); [|reflexivity].
    rewrite Hv.
    destruct (v =? Nat.max _ _) eqn:E; [|reflexivity].
    apply Nat.eqb_eq in E. lia.
  - intros u. rewrite label_of_merge.
    destruct (u <? length l); [|auto].
    destruct (label_of l u =? Nat.max _ _) eqn:E; [lia|apply Hu].
Qed.

Lemma alone_fold (es : list edge) (v : nat) :
  forall l, (forall e, In e es -> touches v e = false) ->
            alone l v -> alone (fold_left merge_labels es l) v.
Proof.
  induction es as [|e es IH]; intros l Ht Ha; simpl; [exact Ha|].
  apply IH; [intros f Hf; apply Ht; now right|].
  apply alone_merge; [apply Ht; now left|exact Ha].
Qed.

Lemma alone_labels (n : nat) (es : list edge) (v : nat) :
  used es v = false -> alone (labels n es) v.
Proof.
  intro H. apply alone_fold; [apply used_false, H|].
  split; [apply label_of_seq|]. intro u. rewrite label_of_seq. auto.
Qed.

Lemma find_connected_mask (nodes : list point) (es : list edge)
      (connected : list (list bool)) (m : list bool) (p : nat) :
  find_connected nodes es = Returned connected ->
  In m connected -> nth_error m p = Some true -> used es p = true.
Proof.
  unfold find_connected.
  destruct (forallb _ es); [|discriminate].
  intro H. injection H as <-. intros Hm Hp.
  set (l := labels (length nodes) es) in *.
  apply in_map_iff in Hm. destruct Hm as (i & <- & Hi).
  apply filter_In in Hi. destruct Hi as [_ Hi].
  apply existsb_exists in Hi. destruct Hi as (e & He & Hl).
  rewrite nth_error_map in Hp.
  destruct (nth_error l p) as [x|] eqn:Ex; [|discriminate].
  simpl in Hp. injection Hp as Hp. apply Nat.eqb_eq in Hp. subst x.
  assert (Lp : label_of l p = i).
  { unfold label_of. apply nth_error_nth. exact Ex. }
  destruct (used es p) eqn:Eu; [reflexivity|exfalso].
  destruct (alone_labels (length nodes) es p Eu) as [H1 H2]. fold l in H1, H2.
  rewrite H1 in Lp. subst i.
  pose proof (proj1 (used_false es p) Eu e He) as Ht.
  apply touches_false in Ht. destruct Ht as [Ht1 Ht2].
  apply orb_true_iff in Hl. rewrite !Nat.eqb_eq in Hl.
  destruct Hl as [Hl|Hl]; apply H2 in Hl; congruence.
Qed.

Lemma get_some {A : Type} (l : list A) (i : nat) (a : A) :
  get l i = Returned a -> nth_error l i = Some a.
Proof. unfold get. destruct (nth_error l i); [intro H; injection H as ->; reflexivity|discriminate]. Qed.

Section Isolated.

Variable fsqrt : Q -> Q.

Lemma try_pair_some nodes rad connected pr p q :
  try_pair fsqrt nodes rad connected pr = Returned (Some (p, q)) ->
  exists Pm Qm, In Pm connected /\ In Qm connected /\
                nth_error Pm p = Some true /\ nth_error Qm q = Some true.
Proof.
  unfold try_pair.
  destruct (get connected (fst pr)) as [Pm| |] eqn:EP; simpl; try discriminate.
  destruct (get connected (snd pr)) as [Qm| |] eqn:EQ; simpl; try discriminate.
  destruct (closest fsqrt nodes (where_ Pm) (where_ Qm)) as [[[p0 q0] d]|] eqn:Ec;
    [|discriminate].
  destruct (get rad p0) as [rp| |]; simpl; try discriminate.
  destruct (get rad q0) as [rq| |]; simpl; try discriminate.
  destruct (Qle_bool d (rp + rq)); [|discriminate].
  intro H. injection H as -> ->.
  apply closest_spec in Ec. destruct Ec as (H1 & H2 & _).
  exists Pm, Qm. apply get_some in EP, EQ.
  split; [eapply nth_error_In; exact EP|].
  split; [eapply nth_error_In; exact EQ|].
  split; apply where_In; assumption.
Qed.

Lemma sweep_some nodes rad connected pairs e :
  sweep fsqrt nodes rad connected pairs = Returned (Some e) ->
  exists pr, In pr pairs /\ try_pair fsqrt nodes rad connected pr = Returned (Some e).
Proof.
  induction pairs as [|pr rest IH]; simpl; [discriminate|].
  destruct (try_pair fsqrt nodes rad connected pr) as [[e'|]| |] eqn:E; simpl;
    try discriminate.
  - intro H. injection H as ->. exists pr. auto.
  - intro H. destruct (IH H) as (pr' & H1 & H2). exists pr'. auto.
Qed.

Lemma sweep_bridge_used nodes rad es connected pairs p q :
  find_connected nodes es = Returned connected ->
  sweep fsqrt nodes rad connected pairs = Returned (Some (p, q)) ->
  used es p = true /\ used es q = true.
Proof.
  intros Hf Hs. apply sweep_some in Hs. destruct Hs as (pr & _ & Ht).
  apply try_pair_some in Ht. destruct Ht as (Pm & Qm & H1 & H2 & H3 & H4).
  split; [exact (find_connected_mask _ _ _ _ _ Hf H1 H3)
         |exact (find_connected_mask _ _ _ _ _ Hf H2 H4)].
Qed.

Lemma used_app (es fs : list edge) (v : nat) :
  used (es ++ fs) v = used es v || used fs v.
Proof. unfold used. apply existsb_app. Qed.

Lemma connect_loop_isolated (fuel : nat) nodes rad (v : nat) :
  forall es es',
    used es v = false ->
    connect_loop fsqrt fuel nodes rad es = Returned es' ->
    used es' v = false.
Proof.
  induction fuel as [|fuel IH]; intros es es' Hv H; simpl in H; [discriminate|].
  destruct (find_connected nodes es) as [connected| |] eqn:Ef; simpl in H;
    try discriminate.
  destruct (sweep fsqrt nodes rad connected _) as [[[p q]|]| |] eqn:Es; simpl in H;
    try discriminate.
  - apply IH with (es := es ++ [(p, q)]); [|exact H].
    rewrite used_app, Hv. simpl.
    destruct (sweep_bridge_used _ _ _ _ _ _ _ Ef Es) as [Hp Hq].
    unfold touches. simpl. rewrite orb_false_r. apply orb_false_iff.
    split; apply Nat.eqb_neq; intro; subst; congruence.
  - injection H as <-. exact Hv.
Qed.

End Isolated.

(** ** Consolidation *)

Lemma index_of_nth (l : list nat) (u d : nat) :
  NoDup l -> u < length l -> index_of (nth u l d) l = u.
Proof.
  revert u. induction l as [|x l IH]; intros u Hn Hu; simpl in *; [lia|].
  inversion Hn as [|? ? Hx Hl]; subst.
  destruct u as [|u].
  - rewrite Nat.eqb_refl. reflexivity.
  - destruct (x =? nth u l d) eqn:E.
    + apply Nat.eqb_eq in E. exfalso. apply Hx. rewrite E. apply nth_In. lia.
    + f_equal. apply IH; [exact Hl|lia].
Qed.

Lemma index_of_In (l : list nat) (x : nat) :
  In x l -> index_of x l < length l /\ nth (index_of x l) l 0 = x.
Proof.
  induction l as [|y l IH]; simpl; [intros []|].
  intro H. destruct (y =? x) eqn:E.
  - apply Nat.eqb_eq in E. split; [lia|exact E].
  - destruct H as [->|H]; [rewrite Nat.eqb_refl in E; discriminate|].
    destruct (IH H). split; [lia|assumption].
Qed.

Lemma kept_NoDup (s : Skeleton) : NoDup (kept s).
Proof. unfold kept. apply NoDup_filter, seq_NoDup. Qed.

Lemma consolidate_no_isolated (s : Skeleton) (u : nat) :
  u < length (vertices (consolidate s)) ->
  used (edges (consolidate s)) u = true.
Proof.
  unfold consolidate, restrict. simpl. fold (kept s). rewrite length_map.
  intro Hu.
  assert (Hin : In (nth u (kept s) 0) (kept s)) by (apply nth_In; exact Hu).
  unfold kept in Hin at 2. apply filter_In in Hin. destruct Hin as [_ Hused].
  apply used_true in Hused. destruct Hused as (e & He & Ht).
  apply used_true.
  exists (map_edge (fun v => index_of v (kept s)) e).
  split; [apply in_map; exact He|].
  unfold map_edge. simpl.
  destruct Ht as [Ht|Ht]; [left|right]; rewrite Ht;
    apply index_of_nth; auto using kept_NoDup.
Qed.

(** C10, as stated, fails: a skeleton made of one vertex and no edge is
    returned by piece connection with its isolated vertex. *)
Lemma connect_pieces_isolated_counterexample :
  ~ (forall s r, connect_pieces isqrtQ 5 s = Returned r ->
       forall u, u < length (vertices r) -> used (edges r) u = true).
Proof.
  intro H.
  specialize (H (mkSkeleton [pt 0 0 0] [] [1%Q] 1) _ eq_refl 0).
  simpl in H. specialize (H (Nat.lt_0_succ 0)). discriminate.
Qed.

(** C10, amended.  In piece connection of a skeleton with at least one
    edge, a vertex [v] that lies on no edge belongs to no component mask of
    [find_connected], is never an endpoint of a bridge, stays isolated in
    every edge array of the loop, and is dropped by the final consolidate,
    whose result has no isolated vertex.  (A skeleton without edges is
    returned as it is, isolated vertices included.) *)
Theorem connect_pieces_isolated
  (fsqrt : Q -> Q) (fuel : nat) (s r : Skeleton) (v : nat)
  (Hne : empty s = false)
  (Hv : used (edges s) v = false)
  (Hr : connect_pieces fsqrt fuel s = Returned r) :
  (forall es connected m,
     used es v = false ->
     find_connected (vertices s) es = Returned connected ->
     In m connected -> nth_error m v <> Some true) /\
  (forall es connected pairs p q,
     used es v = false ->
     find_connected (vertices s) es = Returned connected ->
     sweep fsqrt (vertices s) (radii s) connected pairs = Returned (Some (p, q)) ->
     p <> v /\ q <> v) /\
  (exists es',
     connect_loop fsqrt fuel (vertices s) (radii s) (edges s) = Returned es' /\
     used es' v = false /\
     r = consolidate (set_edges s es') /\
     ~ In v (kept (set_edges s es'))) /\
  (forall u, u < length (vertices r) -> used (edges r) u = true).
Proof.
  split; [|split; [|split]].
  - intros es connected m Hu Hf Hm Hn.
    rewrite (find_connected_mask _ _ _ _ _ Hf Hm Hn) in Hu. discriminate.
  - intros es connected pairs p q Hu Hf Hs.
    destruct (sweep_bridge_used fsqrt _ _ _ _ _ _ _ Hf Hs) as [Hp Hq].
    split; intro; subst; congruence.
  - unfold connect_pieces in Hr. rewrite Hne in Hr.
    destruct (connect_loop fsqrt fuel (vertices s) (radii s) (edges s))
      as [es'| |] eqn:El; simpl in Hr; try discriminate.
    injection Hr as <-. exists es'.
    pose proof (connect_loop_isolated fsqrt fuel _ _ v _ _ Hv El) as Hv'.
    split; [reflexivity|]. split; [exact Hv'|]. split; [reflexivity|].
    unfold kept. simpl. intro Hin. apply filter_In in Hin. destruct Hin as [_ Hin].
    congruence.
  - unfold connect_pieces in Hr. rewrite Hne in Hr.
    destruct (connect_loop fsqrt fuel (vertices s) (radii s) (edges s))
      as [es'| |]; simpl in Hr; try discriminate.
    injection Hr as <-. apply consolidate_no_isolated.
Qed.

Lemma connect_pieces_isolated_witness :
  used (edges lone) 6 = false /\
  connect_pieces isqrtQ 2 lone = Returned (two_paths 3) /\
  forall u, u < length (vertices (two_paths 3)) ->
            used (edges (two_paths 3)) u = true.
Proof.
  split; [reflexivity|]. split; [vm_compute; reflexivity|].
  apply (proj2 (proj2 (proj2
    (connect_pieces_isolated isqrtQ 2 lone (two_paths 3) 6
       eq_refl eq_refl eq_refl)))).
Defined.

(** ** The pipeline on the tripod *)

Lemma tripod_trim :
  trim_skeleton isqrtQ find_cycle 20 tripod 100 75 = Returned tripod_trimmed /\
  trim_skeleton isqrtQ find_cycle 20 tripod_trimmed 100 75
  = Returned empty_skeleton.
Proof. split; vm_compute; reflexivity. Qed.

(** C7, as stated, fails: trimming the tripod with a dust threshold of 100
    and a tick threshold of 75 leaves a path of length 90, which a second
    trimming removes as dust. *)
Lemma trim_idempotence_counterexample :
  ~ (forall s d t r r',
       wf s -> (0 <= d)%Q -> (0 <= t)%Q ->
       trim_skeleton isqrtQ find_cycle 20 s d t = Returned r ->
       trim_skeleton isqrtQ find_cycle 20 r d t = Returned r' ->
       same_structure r r').
Proof.
  intro H. destruct tripod_trim as [H1 H2].
  assert (Hw : wf tripod).
  { split; [|reflexivity]. repeat constructor; simpl; lia. }
  destruct (H tripod 100%Q 75%Q _ _ Hw ltac:(discriminate) ltac:(discriminate) H1 H2)
    as (sigma & Hp & Hv & _).
  apply Permutation_length in Hp.
  apply (f_equal (@length point)) in Hv. rewrite length_map in Hv.
  rewrite Hp in Hv. simpl in Hv. discriminate.
Qed.

(** ** Segments: the edges of a skeleton as geometry *)

Lemma nth_map_in {A B : Type} (f : A -> B) (l : list A) (i : nat) (da : A) (db : B) :
  i < length l -> nth i (map f l) db = f (nth i l da).
Proof.
  intro H. rewrite (nth_indep _ db (f da)) by (rewrite length_map; exact H).
  apply map_nth.
Qed.

Lemma restrict_lookup (s : Skeleton) (keep : list nat) (es : list edge) (v : nat) :
  In v keep ->
  nth (index_of v keep) (vertices (restrict s keep es)) origin = vertex s v /\
  nth (index_of v keep) (radii (restrict s keep es)) 0%Q = radius s v.
Proof.
  intro H. destruct (index_of_In keep v H) as [H1 H2]. simpl.
  rewrite (nth_map_in (vertex s) keep _ 0) by exact H1.
  rewrite (nth_map_in (radius s) keep _ 0) by exact H1.
  rewrite H2. split; reflexivity.
Qed.

Lemma restrict_segments (s : Skeleton) (keep : list nat) (es : list edge) :
  (forall e, In e es -> In (fst e) keep /\ In (snd e) keep) ->
  segments (restrict s keep es) = map (seg_in (vertices s) (radii s)) es.
Proof.
  intro H. unfold segments. simpl edges. rewrite map_map.
  apply map_ext_in. intros e He. destruct (H e He) as [H1 H2].
  unfold seg_in, map_edge. simpl fst. simpl snd.
  destruct (restrict_lookup s keep es _ H1) as [-> ->].
  destruct (restrict_lookup s keep es _ H2) as [-> ->].
  reflexivity.
Qed.

Lemma restrict_wf (s : Skeleton) (keep : list nat) (es : list edge) :
  (forall e, In e es -> In (fst e) keep /\ In (snd e) keep) ->
  wf (restrict s keep es).
Proof.
  intro H. split; simpl; [|rewrite !length_map; reflexivity].
  apply Forall_forall. intros e' He'. apply in_map_iff in He'.
  destruct He' as (e & <- & He). destruct (H e He) as [H1 H2].
  unfold edge_in_range, map_edge. simpl. rewrite length_map.
  split; apply index_of_In; assumption.
Qed.

Lemma wf_edge (s : Skeleton) (e : edge) :
  wf s -> In e (edges s) -> fst e < length (vertices s) /\ snd e < length (vertices s).
Proof.
  intros [H _] He. rewrite Forall_forall in H. apply (H e He).
Qed.

Lemma kept_edge (s : Skeleton) (e : edge) :
  wf s -> In e (edges s) -> In (fst e) (kept s) /\ In (snd e) (kept s).
Proof.
  intros Hw He. destruct (wf_edge s e Hw He) as [H1 H2].
  split; apply filter_In; (split; [apply in_seq; lia|]); apply used_true;
    exists e; auto.
Qed.

Lemma consolidate_segments (s : Skeleton) :
  wf s -> segments (consolidate s) = segments s.
Proof.
  intro Hw. unfold consolidate. fold (kept s).
  apply restrict_segments. intros e He. apply kept_edge; assumption.
Qed.

Lemma consolidate_wf (s : Skeleton) : wf s -> wf (consolidate s).
Proof.
  intro Hw. unfold consolidate. fold (kept s).
  apply restrict_wf. intros e He. apply kept_edge; assumption.
Qed.

(** ** Merging *)

Lemma merge_from_lengths (l : list Skeleton) :
  forall k, Forall wf l ->
    length (snd (merge_from k l)) = length (fst (fst (merge_from k l))).
Proof.
  induction l as [|s l IH]; intros k Hl; simpl; [reflexivity|].
  inversion Hl as [|? ? Hs Hl']; subst.
  specialize (IH (k + length (vertices s)) Hl').
  destruct (merge_from (k + length (vertices s)) l) as [[vs es] rs]. simpl in *.
  rewrite !length_app, IH. destruct Hs as [_ Hs]. rewrite Hs. reflexivity.
Qed.

Lemma merge_from_segments (l : list Skeleton) :
  forall k prev prer,
    length prev = k -> length prer = k -> Forall wf l ->
    map (seg_in (prev ++ fst (fst (merge_from k l))) (prer ++ snd (merge_from k l)))
        (snd (fst (merge_from k l)))
    = flat_map segments l.
Proof.
  induction l as [|s l IH]; intros k prev prer Hv Hr Hl; simpl; [reflexivity|].
  inversion Hl as [|? ? Hs Hl']; subst.
  specialize (IH (length prev + length (vertices s))
                 (prev ++ vertices s) (prer ++ radii s)).
  destruct (merge_from (length prev + length (vertices s)) l) as [[vs es] rs].
  simpl in *. rewrite map_app. f_equal.
  - unfold segments. rewrite map_map. apply map_ext_in. intros e He.
    destruct (wf_edge s e Hs He) as [H1 H2]. destruct Hs as [_ Hs].
    unfold seg_in, shift_edge. simpl.
    rewrite !app_nth2_plus.
    rewrite <- Hr at 1 2. rewrite !app_nth2_plus.
    rewrite !app_nth1 by lia. reflexivity.
  - rewrite !app_assoc. apply IH; [apply length_app| |exact Hl'].
    rewrite length_app. destruct Hs as [_ Hs]. lia.
Qed.

Lemma simple_merge_segments (l : list Skeleton) :
  Forall wf l -> segments (simple_merge l) = flat_map segments l.
Proof.
  intro Hl. pose proof (merge_from_segments l 0 [] [] eq_refl eq_refl Hl) as H.
  unfold simple_merge, segments.
  destruct (merge_from 0 l) as [[vs es] rs]. simpl in *. exact H.
Qed.

Lemma merge_from_wf (l : list Skeleton) :
  forall k, Forall wf l ->
    Forall (fun e => k <= fst e < k + length (fst (fst (merge_from k l))) /\
                     k <= snd e < k + length (fst (fst (merge_from k l))))
           (snd (fst (merge_from k l))).
Proof.
  induction l as [|s l IH]; intros k Hl; simpl; [constructor|].
  inversion Hl as [|? ? Hs Hl']; subst.
  specialize (IH (k + length (vertices s)) Hl').
  destruct (merge_from (k + length (vertices s)) l) as [[vs es] rs]. simpl in *.
  apply Forall_app. split.
  - apply Forall_forall. intros e' He'. apply in_map_iff in He'.
    destruct He' as (e & <- & He). destruct (wf_edge s e Hs He).
    unfold shift_edge. simpl. rewrite length_app. lia.
  - eapply Forall_impl; [|exact IH]. intros e He. simpl in He.
    rewrite length_app. lia.
Qed.

Lemma simple_merge_wf (l : list Skeleton) : Forall wf l -> wf (simple_merge l).
Proof.
  intro Hl. pose proof (merge_from_wf l 0 Hl) as He.
  pose proof (merge_from_lengths l 0 Hl) as Hr.
  unfold simple_merge. destruct (merge_from 0 l) as [[vs es] rs]. simpl in *.
  split; simpl; [|exact Hr].
  eapply Forall_impl; [|exact He]. intros e H. unfold edge_in_range. simpl in H. lia.
Qed.

(** ** Labels are canonical representatives *)

Lemma canon_seq (n : nat) : canon (seq 0 n).
Proof. intro v. rewrite !label_of_seq. split; [lia|reflexivity]. Qed.

Lemma canon_merge (l : list nat) (e : edge) : canon l -> canon (merge_labels l e).
Proof.
  intros Hc v.
  set (la := label_of l (fst e)). set (lb := label_of l (snd e)).
  assert (Ha : label_of l la = la) by apply Hc.
  assert (Hb : label_of l lb = lb) by apply Hc.
  assert (Hm : label_of l (Nat.min la lb) = Nat.min la lb).
  { destruct (Nat.min_spec la lb) as [[_ ->]|[_ ->]]; assumption. }
  destruct (Hc v) as [Hv1 Hv2].
  rewrite (label_of_merge l e v). fold la lb.
  destruct (v <? length l) eqn:Ev.
  - apply Nat.ltb_lt in Ev.
    destruct (label_of l v =? Nat.max la lb) eqn:E.
    + apply Nat.eqb_eq in E. split; [lia|].
      rewrite (label_of_merge l e (Nat.min la lb)). fold la lb.
      assert (Hlt : (Nat.min la lb <? length l) = true) by (apply Nat.ltb_lt; lia).
      rewrite Hlt, Hm. destruct (Nat.min la lb =? Nat.max la lb); reflexivity.
    + split; [exact Hv1|].
      rewrite (label_of_merge l e (label_of l v)). fold la lb.
      assert (Hlt : (label_of l v <? length l) = true) by (apply Nat.ltb_lt; lia).
      rewrite Hlt, Hv2, E. reflexivity.
  - split; [lia|]. rewrite (label_of_merge l e v), Ev. reflexivity.
Qed.

Lemma canon_fold (es : list edge) :
  forall l, canon l -> canon (fold_left merge_labels es l).
Proof.
  induction es as [|e es IH]; intros l Hc; simpl; [exact Hc|].
  apply IH, canon_merge, Hc.
Qed.

Lemma canon_labels (n : nat) (es : list edge) : canon (labels n es).
Proof. apply canon_fold, canon_seq. Qed.

Lemma merge_keeps_same (l : list nat) (e : edge) (a b : nat) :
  a < length l -> b < length l ->
  label_of l a = label_of l b ->
  label_of (merge_labels l e) a = label_of (merge_labels l e) b.
Proof.
  intros Ha Hb H. rewrite !label_of_merge.
  apply Nat.ltb_lt in Ha, Hb. rewrite Ha, Hb, H. reflexivity.
Qed.

Lemma fold_keeps_same (es : list edge) (a b : nat) :
  forall l, a < length l -> b < length l ->
    label_of l a = label_of l b ->
    label_of (fold_left merge_labels es l) a
    = label_of (fold_left merge_labels es l) b.
Proof.
  induction es as [|e es IH]; intros l Ha Hb H; simpl; [exact H|].
  apply IH; rewrite ?merge_labels_length; auto.
  apply merge_keeps_same; assumption.
Qed.

Lemma merge_joins (l : list nat) (e : edge) :
  fst e < length l -> snd e < length l ->
  label_of (merge_labels l e) (fst e) = label_of (merge_labels l e) (snd e).
Proof.
  intros Ha Hb. rewrite !label_of_merge.
  apply Nat.ltb_lt in Ha, Hb. rewrite Ha, Hb.
  set (la := label_of l (fst e)). set (lb := label_of l (snd e)).
  destruct (la =? Nat.max la lb) eqn:E1, (lb =? Nat.max la lb) eqn:E2;
    rewrite ?Nat.eqb_eq, ?Nat.eqb_neq in *; lia.
Qed.

Lemma fold_joins (es : list edge) (e : edge) :
  forall l, In e es ->
    Forall (edge_in_range (length l)) es ->
    label_of (fold_left merge_labels es l) (fst e)
    = label_of (fold_left merge_labels es l) (snd e).
Proof.
  induction es as [|x es IH]; intros l He Hr; simpl; [destruct He|].
  inversion Hr as [|? ? Hx Hes]; subst.
  assert (Hes' : Forall (edge_in_range (length (merge_labels l x))) es)
    by (rewrite merge_labels_length; exact Hes).
  destruct He as [->|He]; [|apply IH; assumption].
  destruct Hx as [H1 H2].
  apply fold_keeps_same; rewrite ?merge_labels_length; auto.
  apply merge_joins; assumption.
Qed.

Lemma labels_joins (n : nat) (es : list edge) (e : edge) :
  Forall (edge_in_range n) es -> In e es ->
  label_of (labels n es) (fst e) = label_of (labels n es) (snd e).
Proof.
  intros Hr He. unfold labels. apply fold_joins; [exact He|].
  rewrite length_seq. exact Hr.
Qed.

(** ** Components *)

Lemma comp_edges_members (s : Skeleton) (r : nat) (e : edge) :
  wf s ->
  let l := labels (length (vertices s)) (edges s) in
  In e (comp_edges l r (edges s)) ->
  In (fst e) (members l r) /\ In (snd e) (members l r).
Proof.
  intros Hw l He. apply filter_In in He. destruct He as [He Hl].
  destruct (wf_edge s e Hw He) as [H1 H2].
  assert (Hj : label_of l (fst e) = label_of l (snd e))
    by (apply labels_joins; [apply Hw|exact He]).
  unfold members. unfold l at 2 4. rewrite labels_length.
  split; apply filter_In; (split; [apply in_seq; lia|]).
  - exact Hl.
  - rewrite <- Hj. exact Hl.
Qed.

Lemma component_inv (s c : Skeleton) :
  wf s -> In c (components s) ->
  exists r,
    let l := labels (length (vertices s)) (edges s) in
    label_of l r = r /\
    c = restrict s (members l r) (comp_edges l r (edges s)) /\
    wf c /\
    segments c = map (seg_in (vertices s) (radii s)) (comp_edges l r (edges s)).
Proof.
  intros Hw Hc. unfold components in Hc. apply in_map_iff in Hc.
  destruct Hc as (r & <- & Hr). exists r. intro l.
  apply filter_In in Hr. destruct Hr as [_ Hr]. apply Nat.eqb_eq in Hr.
  split; [exact Hr|]. split; [reflexivity|].
  split; [apply restrict_wf|apply restrict_segments];
    intros e He; apply (comp_edges_members s r e Hw He).
Qed.

Lemma components_wf (s : Skeleton) : wf s -> Forall wf (components s).
Proof.
  intro Hw. apply Forall_forall. intros c Hc.
  destruct (component_inv s c Hw Hc) as (r & _ & _ & H & _). exact H.
Qed.

Lemma component_segments_incl (s c : Skeleton) (sg : segment) :
  wf s -> In c (components s) -> In sg (segments c) -> In sg (segments s).
Proof.
  intros Hw Hc Hs. destruct (component_inv s c Hw Hc) as (r & _ & _ & _ & E).
  rewrite E in Hs. apply in_map_iff in Hs. destruct Hs as (e & <- & He).
  apply filter_In in He. unfold segments. apply in_map. apply He.
Qed.

Lemma segment_in_component (s : Skeleton) (sg : segment) :
  wf s -> In sg (segments s) ->
  exists c, In c (components s) /\ In sg (segments c).
Proof.
  intros Hw Hs. unfold segments in Hs. apply in_map_iff in Hs.
  destruct Hs as (e & <- & He).
  set (l := labels (length (vertices s)) (edges s)).
  set (r := label_of l (fst e)).
  destruct (wf_edge s e Hw He) as [H1 _].
  destruct (canon_labels (length (vertices s)) (edges s) (fst e)) as [Hle Hid].
  fold l in Hle, Hid. fold r in Hle, Hid.
  assert (Hin : In (restrict s (members l r) (comp_edges l r (edges s)))
                   (components s)).
  { unfold components. fold l.
    apply (in_map (fun r => restrict s (members l r) (comp_edges l r (edges s)))).
    apply filter_In. split.
    - apply in_seq. unfold l. rewrite labels_length. lia.
    - apply Nat.eqb_eq. exact Hid. }
  eexists. split; [exact Hin|].
  destruct (component_inv s _ Hw Hin) as (r' & _ & _ & _ & _).
  rewrite restrict_segments.
  - apply in_map. apply filter_In. split; [exact He|apply Nat.eqb_refl].
  - intros e' He'. apply (comp_edges_members s r e' Hw He').
Qed.

(** ** Dust removal *)

Lemma Qsum_app (a b : list Q) : (Qsum (a ++ b) == Qsum a + Qsum b)%Q.
Proof.
  induction a as [|x a IH]; simpl; [ring|]. rewrite IH. ring.
Qed.

Section Dust.

Variable fsqrt : Q -> Q.

Lemma cable_length_segments (s : Skeleton) :
  cable_length fsqrt s = Qsum (map (seg_length fsqrt) (segments s)).
Proof. unfold cable_length, segments. rewrite map_map. reflexivity. Qed.

Lemma Qsum_flat_map (l : list Skeleton) :
  (Qsum (map (seg_length fsqrt) (flat_map segments l))
   == Qsum (map (cable_length fsqrt) l))%Q.
Proof.
  induction l as [|s l IH]; simpl; [reflexivity|].
  rewrite map_app, Qsum_app, IH, cable_length_segments. reflexivity.
Qed.

Lemma survivors_In (s : Skeleton) (t : Q) (c : Skeleton) :
  In c (survivors fsqrt s t) <-> In c (components s) /\ (t < cable_length fsqrt c)%Q.
Proof. unfold survivors. rewrite filter_In, Qltb_lt. reflexivity. Qed.

Lemma survivors_wf (s : Skeleton) (t : Q) : wf s -> Forall wf (survivors fsqrt s t).
Proof.
  intro Hw. apply Forall_forall. intros c Hc. apply survivors_In in Hc.
  pose proof (components_wf s Hw) as H. rewrite Forall_forall in H. apply H, Hc.
Qed.

Lemma remove_dust_wf (s : Skeleton) (t : Q) : wf s -> wf (remove_dust fsqrt s t).
Proof.
  intro Hw. unfold remove_dust. destruct (empty s); [exact Hw|].
  apply consolidate_wf, simple_merge_wf. fold (survivors fsqrt s t).
  apply survivors_wf, Hw.
Qed.

End Dust.

(** C1, as stated, fails in its last part: the tripod has a single
    component of cable length 120 > 100, and its trimmed form has a single
    component of cable length 90. *)
Lemma trim_dust_counterexample :
  ~ (forall s d t r,
       wf s -> trim_skeleton isqrtQ find_cycle 20 s d t = Returned r ->
       (forall c, In c (components r) -> (d < cable_length isqrtQ c)%Q) \/
       (forall c, In c (components s) -> ~ (d < cable_length isqrtQ c)%Q)).
Proof.
  intro H.
  assert (Hw : wf tripod).
  { split; [|reflexivity]. repeat constructor; simpl; lia. }
  destruct (H tripod 100%Q 75%Q _ Hw (proj1 tripod_trim)) as [H1|H1].
  - specialize (H1 tripod_trimmed (or_introl eq_refl)).
    vm_compute in H1. discriminate.
  - apply (H1 tripod (or_introl eq_refl)). vm_compute. reflexivity.
Qed.

(** C1, amended.  For a well-formed skeleton, dust removal returns an
    empty skeleton unchanged; otherwise it returns the consolidated merge of
    the components whose cable length strictly exceeds the threshold, in
    their original order: the edges of the result, read as segments between
    points with radii, are those of the surviving components one after the
    other, every one of which is a segment of the input, the cable length of
    the result is the sum of theirs, and the result is well formed without
    isolated vertex.  (Nothing is claimed for the output of [trim_skeleton]:
    the later passes shorten components.) *)
Theorem remove_dust_survivors
  (fsqrt : Q -> Q) (s : Skeleton) (t : Q) (Hw : wf s) :
  (empty s = true -> remove_dust fsqrt s t = s) /\
  (empty s = false ->
   remove_dust fsqrt s t = consolidate (simple_merge (survivors fsqrt s t)) /\
   survivors fsqrt s t
     = filter (fun c => Qltb t (cable_length fsqrt c)) (components s) /\
   (forall c, In c (survivors fsqrt s t)
              <-> In c (components s) /\ (t < cable_length fsqrt c)%Q) /\
   segments (remove_dust fsqrt s t) = flat_map segments (survivors fsqrt s t) /\
   (forall sg, In sg (segments (remove_dust fsqrt s t))
               <-> exists c, In c (components s) /\
                             (t < cable_length fsqrt c)%Q /\ In sg (segments c)) /\
   (forall sg, In sg (segments (remove_dust fsqrt s t)) -> In sg (segments s)) /\
   (cable_length fsqrt (remove_dust fsqrt s t)
    == Qsum (map (cable_length fsqrt) (survivors fsqrt s t)))%Q /\
   wf (remove_dust fsqrt s t) /\
   (forall u, u < length (vertices (remove_dust fsqrt s t)) ->
              used (edges (remove_dust fsqrt s t)) u = true)).
Proof.
  split; [intro He; unfold remove_dust; rewrite He; reflexivity|].
  intro He.
  assert (E : remove_dust fsqrt s t
              = consolidate (simple_merge (survivors fsqrt s t)))
    by (unfold remove_dust; rewrite He; reflexivity).
  pose proof (survivors_wf fsqrt s t Hw) as Hsw.
  assert (Hseg : segments (remove_dust fsqrt s t)
                 = flat_map segments (survivors fsqrt s t)).
  { rewrite E, consolidate_segments by (apply simple_merge_wf, Hsw).
    apply simple_merge_segments, Hsw. }
  assert (Hiff : forall sg, In sg (segments (remove_dust fsqrt s t))
               <-> exists c, In c (components s) /\
                             (t < cable_length fsqrt c)%Q /\ In sg (segments c)).
  { intro sg. rewrite Hseg, in_flat_map. split.
    - intros (c & Hc & Hsg). apply survivors_In in Hc. exists c. tauto.
    - intros (c & Hc & Ht & Hsg). exists c. split; [|exact Hsg].
      apply survivors_In. auto. }
  split; [exact E|]. split; [reflexivity|]. split; [apply survivors_In|].
  split; [exact Hseg|]. split; [exact Hiff|]. split; [|split; [|split]].
  - intros sg Hsg. apply Hiff in Hsg. destruct Hsg as (c & Hc & _ & Hsg).
    eapply component_segments_incl; eassumption.
  - rewrite cable_length_segments, Hseg. apply Qsum_flat_map.
  - rewrite E. apply consolidate_wf, simple_merge_wf, Hsw.
  - rewrite E. apply consolidate_no_isolated.
Qed.

Lemma remove_dust_survivors_witness :
  segments (remove_dust isqrtQ (two_paths 3) 10)
  = flat_map segments (survivors isqrtQ (two_paths 3) 10).
Proof.
  refine (proj1 (proj2 (proj2 (proj2
    (proj2 (remove_dust_survivors isqrtQ (two_paths 3) 10 _) eq_refl))))).
  split; [|reflexivity]. repeat constructor; simpl; lia.
Defined.

(** ** Connectivity and acyclicity *)

Lemma sort_edge_eq (a b c d : nat) :
  sort_edge (a, b) = sort_edge (c, d) <-> (a = c /\ b = d) \/ (a = d /\ b = c).
Proof.
  unfold sort_edge. simpl. split.
  - intro H. injection H as H1 H2. lia.
  - intros [[-> ->]|[-> ->]]; f_equal; lia.
Qed.

Lemma adj_iff (es : list edge) (u v : nat) :
  adj es u v <-> In (u, v) es \/ In (v, u) es.
Proof.
  unfold adj. rewrite g_has_true. split.
  - intros ([a b] & Hin & E). apply sort_edge_eq in E.
    destruct E as [[-> ->]|[-> ->]]; auto.
  - intros [H|H]; eexists; (split; [exact H|]); apply sort_edge_eq; auto.
Qed.

Lemma adj_sym (es : list edge) (u v : nat) : adj es u v -> adj es v u.
Proof. rewrite !adj_iff. tauto. Qed.

Lemma adj_app (es fs : list edge) (u v : nat) :
  adj (es ++ fs) u v <-> adj es u v \/ adj fs u v.
Proof. rewrite !adj_iff, !in_app_iff. tauto. Qed.

Lemma adj_remove (es : list edge) (e : edge) (u v : nat) :
  adj (g_remove es e) u v <-> adj es u v /\ sort_edge e <> sort_edge (u, v).
Proof.
  unfold adj. rewrite !g_has_true. unfold g_remove. split.
  - intros (f & Hf & E). apply filter_In in Hf. destruct Hf as [Hf Hn].
    split; [exists f; auto|].
    rewrite negb_true_iff in Hn. intro E'.
    assert (same_edge e f = true) by (apply same_edge_iff; congruence).
    congruence.
  - intros [(f & Hf & E) Hn]. exists f. split; [|exact E].
    apply filter_In. split; [exact Hf|]. rewrite negb_true_iff.
    destruct (same_edge e f) eqn:Es; [|reflexivity].
    apply same_edge_iff in Es. exfalso. apply Hn. congruence.
Qed.

Lemma conn_trans (es : list edge) (u v w : nat) :
  connected es u v -> connected es v w -> connected es u w.
Proof.
  induction 1 as [|u x v Ha _ IH]; [auto|].
  intro H. eapply conn_step; [exact Ha|apply IH, H].
Qed.

Lemma conn_one (es : list edge) (u v : nat) : adj es u v -> connected es u v.
Proof. intro H. eapply conn_step; [exact H|apply conn_refl]. Qed.

Lemma conn_sym (es : list edge) (u v : nat) :
  connected es u v -> connected es v u.
Proof.
  induction 1 as [|u x v Ha _ IH]; [apply conn_refl|].
  eapply conn_trans; [exact IH|apply conn_one, adj_sym, Ha].
Qed.

Lemma conn_mono (es fs : list edge) (u v : nat) :
  (forall a b, adj es a b -> adj fs a b) ->
  connected es u v -> connected fs u v.
Proof.
  intro H. induction 1 as [|u x v Ha _ IH]; [apply conn_refl|].
  eapply conn_step; [apply H, Ha|exact IH].
Qed.

(** A path that may use one extra edge. *)
Lemma conn_extra_edge (H : list edge) (u v a b : nat) :
  connected (H ++ [(u, v)]) a b ->
  connected H a b \/
  (connected H a u /\ connected H v b) \/
  (connected H a v /\ connected H u b).
Proof.
  induction 1 as [a|a x b Ha _ IH]; [left; apply conn_refl|].
  apply adj_app in Ha. destruct Ha as [Ha|Ha].
  - destruct IH as [IH|[[I1 I2]|[I1 I2]]].
    + left. eapply conn_step; eassumption.
    + right; left. split; [eapply conn_step; eassumption|exact I2].
    + right; right. split; [eapply conn_step; eassumption|exact I2].
  - apply adj_iff in Ha. simpl in Ha.
    assert (E : (a = u /\ x = v) \/ (a = v /\ x = u)).
    { destruct Ha as [[Ha|[]]|[Ha|[]]]; injection Ha as <- <-; auto. }
    destruct E as [[-> ->]|[-> ->]].
    + destruct IH as [IH|[[I1 I2]|[I1 I2]]].
      * right; left. split; [apply conn_refl|exact IH].
      * right; left. split; [apply conn_refl|exact I2].
      * left. exact I2.
    + destruct IH as [IH|[[I1 I2]|[I1 I2]]].
      * right; right. split; [apply conn_refl|exact IH].
      * left. exact I2.
      * right; right. split; [apply conn_refl|exact I2].
Qed.

Lemma g_remove_app (es fs : list edge) (e : edge) :
  g_remove (es ++ fs) e = g_remove es e ++ g_remove fs e.
Proof. unfold g_remove. apply filter_app. Qed.

Lemma conn_remove (es : list edge) (e : edge) (u v : nat) :
  connected (g_remove es e) u v -> connected es u v.
Proof. apply conn_mono. intros a b H. apply adj_remove in H. apply H. Qed.

(** Adding an edge between two vertices that are not connected keeps the
    graph acyclic. *)
Lemma acyclic_bridge (es : list edge) (u v : nat) :
  acyclic es -> ~ connected es u v -> acyclic (es ++ [(u, v)]).
Proof.
  intros Ha Hn e He Hc. rewrite g_remove_app in Hc.
  apply in_app_or in He. destruct He as [He|[<-|[]]].
  - simpl in Hc. destruct (same_edge e (u, v)) eqn:Es; simpl in Hc.
    + rewrite app_nil_r in Hc. apply Hn.
      apply same_edge_iff in Es. destruct e as [a b].
      apply sort_edge_eq in Es. apply conn_one, adj_iff.
      destruct Es as [[-> ->]|[-> ->]]; auto.
    + apply conn_extra_edge in Hc.
      assert (Hab : connected es (fst e) (snd e)).
      { apply conn_one, adj_iff. left. destruct e. exact He. }
      destruct Hc as [Hc|[[H1 H2]|[H1 H2]]].
      * apply (Ha e He Hc).
      * apply Hn. apply conn_remove in H1, H2.
        eapply conn_trans; [apply conn_sym, H1|].
        eapply conn_trans; [exact Hab|apply conn_sym, H2].
      * apply Hn. apply conn_remove in H1, H2.
        eapply conn_trans; [exact H2|].
        eapply conn_trans; [apply conn_sym, Hab|exact H1].
  - simpl in Hc. rewrite same_edge_refl in Hc. simpl in Hc.
    rewrite app_nil_r in Hc. apply Hn. eapply conn_remove. exact Hc.
Qed.

Lemma acyclic_nil : acyclic [].
Proof. intros e []. Qed.

(** A subgraph of an acyclic graph is acyclic. *)
Lemma acyclic_sub (es fs : list edge) :
  (forall a b, adj fs a b -> adj es a b) -> acyclic es -> acyclic fs.
Proof.
  intros Hs Ha [a b] He Hc.
  assert (Hadj : adj es a b) by (apply Hs, adj_iff; auto).
  apply adj_iff in Hadj.
  assert (Hmono : forall e', sort_edge e' = sort_edge (a, b) ->
                    connected (g_remove es e') a b).
  { intros e' E. eapply conn_mono; [|exact Hc].
    intros x y Hxy. apply adj_remove in Hxy. destruct Hxy as [H1 H2].
    apply adj_remove. split; [apply Hs, H1|]. simpl in H2. congruence. }
  destruct Hadj as [H|H].
  - apply (Ha (a, b) H). apply Hmono. reflexivity.
  - apply (Ha (b, a) H). simpl. apply conn_sym, Hmono, sort_edge_swap.
Qed.

Lemma chain_avoids (es : list edge) (a b : nat) (l : list nat) :
  forall x, chain es (x :: l) -> ~ In a (x :: l) ->
            connected (g_remove es (a, b)) x (last (x :: l) 0).
Proof.
  induction l as [|y l IH]; intros x Hc Hn; [apply conn_refl|].
  destruct Hc as [Hxy Hc].
  eapply conn_step; [|change (last (x :: y :: l) 0) with (last (y :: l) 0);
                      apply IH; [exact Hc|intro H; apply Hn; now right]].
  apply adj_remove. split; [exact Hxy|].
  intro E. apply sort_edge_eq in E. apply Hn.
  destruct E as [[-> _]|[-> _]]; [now left|right; now left].
Qed.

(** An acyclic graph has no simple cycle. *)
Lemma acyclic_no_simple_cycle (es : list edge) (c : list nat) :
  acyclic es -> ~ simple_cycle es c.
Proof.
  intros Ha (Hlen & Hnd & Hch & Hclose).
  destruct c as [|a [|b [|x rest]]]; simpl in Hlen; try lia.
  destruct Hch as [Hab Hch].
  inversion Hnd as [|? ? Ha_notin Hnd']; subst.
  inversion Hnd' as [|? ? Hb_notin _]; subst.
  assert (Hpath : connected (g_remove es (a, b)) b a).
  { eapply conn_trans; [apply (chain_avoids es a b (x :: rest) b Hch Ha_notin)|].
    apply conn_one, adj_remove. simpl hd in Hclose.
    change (last (a :: b :: x :: rest) 0) with (last (b :: x :: rest) 0) in Hclose.
    split; [exact Hclose|].
    intro E. apply sort_edge_eq in E.
    assert (Hl : In (last (b :: x :: rest) 0) (x :: rest)).
    { change (last (b :: x :: rest) 0) with (last (x :: rest) 0).
      clear. revert x. induction rest as [|y rest IH]; intro x; [now left|].
      right. apply IH. }
    destruct E as [[E _]|[_ E]].
    - apply Ha_notin. right. rewrite E. exact Hl.
    - apply Hb_notin. rewrite E. exact Hl. }
  apply adj_iff in Hab. destruct Hab as [H|H].
  - apply (Ha (a, b) H). apply conn_sym, Hpath.
  - apply (Ha (b, a) H). simpl. eapply conn_mono; [|exact Hpath].
    intros p q Hpq. apply adj_remove in Hpq. apply adj_remove.
    rewrite (sort_edge_swap b a). exact Hpq.
Qed.


(** Renaming the vertices. *)
Lemma adj_map (f : nat -> nat) (es : list edge) (u v : nat) :
  adj es u v -> adj (map (map_edge f) es) (f u) (f v).
Proof.
  rewrite !adj_iff. intros [H|H]; [left|right];
    apply (in_map (map_edge f)) in H; exact H.
Qed.

Lemma conn_map (f : nat -> nat) (es : list edge) (u v : nat) :
  connected es u v -> connected (map (map_edge f) es) (f u) (f v).
Proof.
  induction 1 as [|u x v Ha _ IH]; [apply conn_refl|].
  eapply conn_step; [apply adj_map, Ha|exact IH].
Qed.

Lemma acyclic_map (f g : nat -> nat) (es : list edge) :
  (forall e, In e es -> g (f (fst e)) = fst e /\ g (f (snd e)) = snd e) ->
  acyclic es -> acyclic (map (map_edge f) es).
Proof.
  intros Hg Ha e' He' Hc. apply in_map_iff in He'. destruct He' as (e & <- & He).
  apply (Ha e He). apply (conn_map g) in Hc. simpl in Hc.
  destruct (Hg e He) as [G1 G2]. rewrite G1, G2 in Hc.
  eapply conn_mono; [|exact Hc]. clear Hc.
  intros x y Hxy. apply adj_iff in Hxy.
  assert (Hin : forall p q, In (p, q) (map (map_edge g)
                   (g_remove (map (map_edge f) es) (map_edge f e))) ->
                 adj (g_remove es e) p q).
  { intros p q Hpq. apply in_map_iff in Hpq. destruct Hpq as (e2 & E2 & H2).
    unfold g_remove in H2. apply filter_In in H2. destruct H2 as [H2 Hn].
    apply in_map_iff in H2. destruct H2 as (e1 & <- & H1).
    destruct (Hg e1 H1) as [K1 K2]. unfold map_edge in E2. simpl in E2.
    rewrite K1, K2 in E2. apply adj_remove. split.
    - apply adj_iff. left. rewrite <- E2. destruct e1. exact H1.
    - intro E. rewrite negb_true_iff in Hn.
      assert (same_edge (map_edge f e) (map_edge f e1) = true); [|congruence].
      apply same_edge_iff. rewrite <- E2 in E. destruct e as [a b], e1 as [a1 b1].
      simpl in E. apply sort_edge_eq in E. unfold map_edge. simpl.
      apply sort_edge_eq. destruct E as [[-> ->]|[-> ->]]; auto. }
  destruct Hxy as [H|H]; [apply Hin, H|apply adj_sym, Hin, H].
Qed.

(** Disjoint union. *)
Lemma adj_used (es : list edge) (u v : nat) :
  adj es u v -> used es u = true /\ used es v = true.
Proof.
  rewrite adj_iff. intros [H|H]; split; apply used_true;
    eexists; (split; [exact H|]); simpl; auto.
Qed.

Lemma conn_disjoint (H F : list edge) (inH : nat -> Prop) (a b : nat) :
  (forall x y, adj H x y -> inH y) ->
  (forall x y, adj F x y -> ~ inH x) ->
  inH a ->
  connected (H ++ F) a b -> connected H a b.
Proof.
  intros H1 H2 Ha Hc. induction Hc as [|a x b Hax _ IH]; [apply conn_refl|].
  apply adj_app in Hax. destruct Hax as [Hax|Hax].
  - eapply conn_step; [exact Hax|]. apply IH. eapply H1, Hax.
  - exfalso. apply (H2 _ _ Hax Ha).
Qed.

Lemma acyclic_app (es fs : list edge) :
  (forall v, used es v = true -> used fs v = true -> False) ->
  acyclic es -> acyclic fs -> acyclic (es ++ fs).
Proof.
  intros Hd Ha Hb e He Hc. rewrite g_remove_app in Hc.
  apply in_app_or in He. destruct He as [He|He].
  - apply (Ha e He).
    apply (conn_disjoint _ _ (fun v => used es v = true) _ _) in Hc; [exact Hc| | |].
    + intros x y Hxy. apply adj_remove in Hxy. apply (adj_used es x y), Hxy.
    + intros x y Hxy Hx. apply adj_remove in Hxy.
      apply (Hd x Hx). apply (adj_used fs x y), Hxy.
    + apply used_true. exists e. auto.
  - apply (Hb e He).
    assert (Hc' : connected (g_remove fs e ++ g_remove es e) (fst e) (snd e)).
    { eapply conn_mono; [|exact Hc]. intros x y. rewrite !adj_app. tauto. }
    apply (conn_disjoint _ _ (fun v => used fs v = true) _ _) in Hc'; [exact Hc'| | |].
    + intros x y Hxy. apply adj_remove in Hxy. apply (adj_used fs x y), Hxy.
    + intros x y Hxy Hx. apply adj_remove in Hxy.
      apply (Hd x); [apply (adj_used es x y), Hxy|exact Hx].
    + apply used_true. exists e. auto.
Qed.

(** Labels and connectivity. *)
Lemma adj_same_label (n : nat) (es : list edge) (u v : nat) :
  Forall (edge_in_range n) es -> adj es u v ->
  label_of (labels n es) u = label_of (labels n es) v.
Proof.
  intros Hr Ha. apply adj_iff in Ha. destruct Ha as [H|H].
  - apply (labels_joins n es (u, v) Hr H).
  - symmetry. apply (labels_joins n es (v, u) Hr H).
Qed.

Lemma conn_same_label (n : nat) (es : list edge) (u v : nat) :
  Forall (edge_in_range n) es -> connected es u v ->
  label_of (labels n es) u = label_of (labels n es) v.
Proof.
  intros Hr. induction 1 as [|u x v Ha _ IH]; [reflexivity|].
  rewrite <- IH. apply adj_same_label; assumption.
Qed.

Lemma label_conn_fold (es : list edge) :
  forall seen l,
    (forall v, connected seen v (label_of l v)) ->
    forall v, connected (seen ++ es) v (label_of (fold_left merge_labels es l) v).
Proof.
  induction es as [|e es IH]; intros seen l Hl v; simpl.
  - rewrite app_nil_r. apply Hl.
  - replace (seen ++ e :: es) with ((seen ++ [e]) ++ es)
      by (rewrite <- app_assoc; reflexivity).
    apply IH. clear v. intro v.
    assert (Hup : forall x y, connected seen x y -> connected (seen ++ [e]) x y).
    { intros x y. apply conn_mono. intros a b. rewrite adj_app. auto. }
    rewrite label_of_merge.
    set (la := label_of l (fst e)). set (lb := label_of l (snd e)).
    assert (Hab : connected (seen ++ [e]) la lb).
    { eapply conn_trans; [apply conn_sym, Hup, Hl|].
      eapply conn_trans; [|apply Hup, Hl].
      apply conn_one, adj_app. right. apply adj_iff. left. destruct e. now left. }
    destruct (v <? length l); [|apply conn_refl].
    destruct (label_of l v =? Nat.max la lb) eqn:E; [|apply Hup, Hl].
    apply Nat.eqb_eq in E. eapply conn_trans; [apply Hup, Hl|]. rewrite E.
    destruct (Nat.max_spec la lb) as [[_ ->]|[_ ->]];
      destruct (Nat.min_spec la lb) as [[_ ->]|[_ ->]];
      try apply conn_refl; try exact Hab; apply conn_sym, Hab.
Qed.

Lemma label_conn (n : nat) (es : list edge) (v : nat) :
  connected es v (label_of (labels n es) v).
Proof.
  apply (label_conn_fold es [] (seq 0 n)).
  intro u. rewrite label_of_seq. apply conn_refl.
Qed.

Lemma same_label_conn (n : nat) (es : list edge) (u v : nat) :
  label_of (labels n es) u = label_of (labels n es) v -> connected es u v.
Proof.
  intro H. eapply conn_trans; [apply label_conn|].
  rewrite H. apply conn_sym, label_conn.
Qed.

(** ** Breadth-first search *)

Lemma neighbors_adj (G : list edge) (u w : nat) :
  In w (neighbors G u) -> adj G u w.
Proof.
  unfold neighbors. rewrite in_flat_map. intros ([a b] & He & Hw). simpl in Hw.
  apply adj_iff.
  destruct (a =? u) eqn:E1.
  - apply Nat.eqb_eq in E1. subst a. destruct Hw as [<-|[]]. auto.
  - destruct (b =? u) eqn:E2; [|destruct Hw].
    apply Nat.eqb_eq in E2. subst b. destruct Hw as [<-|[]]. auto.
Qed.

Lemma lookup_In {A : Type} (k : nat) (l : list (nat * A)) (a : A) :
  lookup k l = Some a -> In (k, a) l.
Proof.
  induction l as [|[k' a'] l IH]; simpl; [discriminate|].
  destruct (k' =? k) eqn:E.
  - apply Nat.eqb_eq in E. intro H. injection H as ->. subst. now left.
  - intro H. right. apply IH, H.
Qed.

Lemma visit_ok (G : list edge) (src u w : nat) (st : list nat * list (nat * nat)) :
  adj G u w -> parent_ok G src (snd st) -> parent_ok G src (snd (visit u st w)).
Proof.
  intros Ha Hp. unfold visit. destruct (lookup w (snd st)); [exact Hp|].
  simpl. intros x y Hxy. apply in_app_or in Hxy.
  destruct Hxy as [Hxy|[Hxy|[]]]; [apply Hp, Hxy|].
  injection Hxy as <- <-. right. exact Ha.
Qed.

Lemma expand_ok (G : list edge) (src u : nat) (st : list nat * list (nat * nat)) :
  parent_ok G src (snd st) -> parent_ok G src (snd (expand G st u)).
Proof.
  unfold expand.
  assert (H : forall ws st, (forall w, In w ws -> adj G u w) ->
            parent_ok G src (snd st) ->
            parent_ok G src (snd (fold_left (visit u) ws st))).
  { induction ws as [|w ws IH]; intros st0 Hw Hp; simpl; [exact Hp|].
    apply IH; [intros x Hx; apply Hw; now right|].
    apply visit_ok; [apply Hw; now left|exact Hp]. }
  apply H. intros w Hw. apply neighbors_adj, Hw.
Qed.

Lemma bfs_ok (G : list edge) (src : nat) (fuel : nat) :
  forall frontier parent,
    parent_ok G src parent -> parent_ok G src (bfs fuel G frontier parent).
Proof.
  induction fuel as [|fuel IH]; intros frontier parent Hp; simpl; [exact Hp|].
  assert (H : forall us st, parent_ok G src (snd st) ->
            parent_ok G src (snd (fold_left (expand G) us st))).
  { induction us as [|u us IHu]; intros st Hs; simpl; [exact Hs|].
    apply IHu, expand_ok, Hs. }
  specialize (H frontier ([], parent) Hp).
  destruct (fst (fold_left (expand G) frontier ([], parent))); [exact H|].
  apply IH, H.
Qed.

Lemma walk_back_ok (G : list edge) (src : nat) (parent : list (nat * nat)) (fuel : nat) :
  parent_ok G src parent ->
  forall v acc p,
    chain G (v :: acc) ->
    walk_back fuel parent src v acc = Some p ->
    chain G p /\ hd 0 p = src /\ exists q, p = q ++ v :: acc.
Proof.
  intro Hp. induction fuel as [|fuel IH]; intros v acc p Hc H; simpl in H.
  - destruct (v =? src) eqn:E; [|discriminate].
    apply Nat.eqb_eq in E. injection H as <-.
    split; [exact Hc|]. split; [exact E|]. exists []. reflexivity.
  - destruct (v =? src) eqn:E.
    + apply Nat.eqb_eq in E. injection H as <-.
      split; [exact Hc|]. split; [exact E|]. exists []. reflexivity.
    + destruct (lookup v parent) as [u|] eqn:El; [|discriminate].
      apply lookup_In in El. destruct (Hp v u El) as [Hs|Ha].
      * apply Nat.eqb_neq in E. contradiction.
      * destruct (IH u (v :: acc) p) as (H1 & H2 & q & Hq); [split; assumption|exact H|].
        split; [exact H1|]. split; [exact H2|].
        exists (q ++ [u]). rewrite <- app_assoc. exact Hq.
Qed.

Lemma shortest_path_ok (G : list edge) (a b : nat) (p : list nat) :
  shortest_path G a b = Returned p ->
  chain G p /\ hd 0 p = a /\ last p 0 = b /\ p <> [].
Proof.
  unfold shortest_path.
  destruct (walk_back _ _ a b []) as [p'|] eqn:E; [|discriminate].
  intro H. injection H as <-.
  apply walk_back_ok with (G := G) in E; [|apply bfs_ok|exact I].
  - destruct E as (H1 & H2 & q & ->). split; [exact H1|]. split; [exact H2|].
    split; [apply last_last|]. destruct q; discriminate.
  - intros w u [H|[]]. injection H as <- <-. now left.
Qed.

Lemma path2edge_adj (G : list edge) (p : list nat) (e : edge) :
  chain G p -> In e (path2edge p) -> adj G (fst e) (snd e).
Proof.
  induction p as [|u [|v rest] IH]; simpl; try tauto.
  intros [Huv Hc] [<-|He]; [exact Huv|]. apply IH; assumption.
Qed.

Lemma adj_add_edges_from_nil (es : list edge) (a b : nat) :
  adj (g_add_edges_from [] es) a b <-> adj es a b.
Proof.
  unfold adj. rewrite g_add_edges_from_has. split.
  - intros [H|H]; [discriminate|]. apply g_has_true. exact H.
  - intro H. right. apply g_has_true. exact H.
Qed.

Lemma used_range (n : nat) (es : list edge) (v : nat) :
  Forall (edge_in_range n) es -> used es v = true -> v < n.
Proof.
  intros Hr Hu. apply used_true in Hu. destruct Hu as (e & He & Hv).
  rewrite Forall_forall in Hr. destruct (Hr e He). destruct Hv; subst; assumption.
Qed.

Lemma adj_range (n : nat) (es : list edge) (a b : nat) :
  Forall (edge_in_range n) es -> adj es a b -> a < n /\ b < n.
Proof.
  intros Hr Ha. apply adj_used in Ha. destruct Ha.
  split; eapply used_range; eassumption.
Qed.

(** ** The cycle finder is correct *)

Lemma bound_range (es : list edge) : Forall (edge_in_range (bound es)) es.
Proof.
  induction es as [|e es IH]; [constructor|].
  change (bound (e :: es)) with (Nat.max (S (Nat.max (fst e) (snd e))) (bound es)).
  constructor.
  - unfold edge_in_range. lia.
  - eapply Forall_impl; [|exact IH]. unfold edge_in_range. intros; lia.
Qed.

Lemma range_mono (n m : nat) (es : list edge) :
  n <= m -> Forall (edge_in_range n) es -> Forall (edge_in_range m) es.
Proof.
  intros H. apply Forall_impl. unfold edge_in_range. intros; lia.
Qed.

Lemma labels_snoc (n : nat) (es : list edge) (e : edge) :
  labels n (es ++ [e]) = merge_labels (labels n es) e.
Proof. unfold labels. rewrite fold_left_app. reflexivity. Qed.

Lemma find_cycle_from_complete (N : nat) (es : list edge) :
  forall seen,
    Forall (edge_in_range N) (seen ++ es) ->
    acyclic seen ->
    find_cycle_from (labels N seen) seen es = [] ->
    acyclic (seen ++ es).
Proof.
  induction es as [|e es IH]; intros seen Hr Ha H; simpl in H.
  - rewrite app_nil_r. exact Ha.
  - destruct (label_of (labels N seen) (fst e) =? label_of (labels N seen) (snd e))
      eqn:E.
    + exfalso. destruct (shortest_path seen (fst e) (snd e)) as [p| |];
        try discriminate.
      destruct (path2edge p); discriminate.
    + replace (seen ++ e :: es) with ((seen ++ [e]) ++ es) in *
        by (rewrite <- app_assoc; reflexivity).
      apply IH; [exact Hr| |rewrite labels_snoc; exact H].
      destruct e as [u v]. apply acyclic_bridge; [exact Ha|].
      intro Hc. apply Nat.eqb_neq in E. apply E. simpl.
      apply conn_same_label; [|exact Hc].
      apply Forall_app in Hr. destruct Hr as [Hr _].
      apply Forall_app in Hr. apply Hr.
Qed.

Lemma find_cycle_from_sound (es : list edge) :
  forall l seen e,
    In e (find_cycle_from l seen es) -> adj (seen ++ es) (fst e) (snd e).
Proof.
  induction es as [|x es IH]; intros l seen e He; simpl in He; [destruct He|].
  destruct (label_of l (fst x) =? label_of l (snd x)).
  - assert (Hx : adj (seen ++ x :: es) (fst x) (snd x)).
    { apply adj_app. right. apply adj_iff. left. destruct x. now left. }
    destruct (shortest_path seen (fst x) (snd x)) as [p| |] eqn:Ep.
    + apply in_app_or in He. destruct He as [He|[<-|[]]].
      * apply shortest_path_ok in Ep. destruct Ep as [Hc _].
        apply adj_app. left. eapply path2edge_adj; eassumption.
      * simpl. apply adj_sym, Hx.
    + destruct He as [<-|[]]. exact Hx.
    + destruct He as [<-|[]]. exact Hx.
  - replace (seen ++ x :: es) with ((seen ++ [x]) ++ es)
      by (rewrite <- app_assoc; reflexivity).
    eapply IH. exact He.
Qed.

Lemma find_cycle_ok : finder_ok find_cycle.
Proof.
  split.
  - intros es n H. unfold find_cycle in H.
    apply acyclic_sub with (es := g_add_edges_from [] es);
      [intros a b; apply adj_add_edges_from_nil|].
    apply (find_cycle_from_complete (Nat.max n (bound es)) _ []);
      [|apply acyclic_nil|exact H].
    simpl. apply Forall_forall. intros [a b] He.
    assert (Ha : adj es a b) by (apply adj_add_edges_from_nil, adj_iff; auto).
    apply (adj_range _ es); [|exact Ha].
    eapply range_mono; [|apply bound_range]. lia.
  - intros es n e He. unfold find_cycle in He.
    apply find_cycle_from_sound in He. apply adj_add_edges_from_nil. exact He.
Qed.

(** ** Acyclicity through the library operations *)

Lemma acyclic_consolidate (s : Skeleton) :
  wf s -> acyclic (edges s) -> acyclic (edges (consolidate s)).
Proof.
  intros Hw Ha. unfold consolidate, restrict. simpl. fold (kept s).
  apply acyclic_map with (g := fun i => nth i (kept s) 0); [|exact Ha].
  intros e He. destruct (kept_edge s e Hw He) as [H1 H2].
  split; apply index_of_In; assumption.
Qed.

Lemma acyclic_merge_from (l : list Skeleton) :
  forall k, Forall wf l -> Forall (fun s => acyclic (edges s)) l ->
            acyclic (snd (fst (merge_from k l))).
Proof.
  induction l as [|s l IH]; intros k Hw Ha; simpl; [apply acyclic_nil|].
  inversion Hw as [|? ? Hs Hw']; subst. inversion Ha as [|? ? As Ha']; subst.
  specialize (IH (k + length (vertices s)) Hw' Ha').
  pose proof (merge_from_wf l (k + length (vertices s)) Hw') as Hr.
  destruct (merge_from (k + length (vertices s)) l) as [[vs es] rs]. simpl in *.
  apply acyclic_app; [| |exact IH].
  - intros v H1 H2. apply used_true in H1, H2.
    destruct H1 as (e1 & He1 & Hv1), H2 as (e2 & He2 & Hv2).
    apply in_map_iff in He1. destruct He1 as (e0 & <- & He0).
    destruct (wf_edge s e0 Hs He0) as [B1 B2].
    rewrite Forall_forall in Hr. specialize (Hr e2 He2).
    unfold shift_edge in Hv1. simpl in Hv1. lia.
  - apply acyclic_map with (g := fun x => x - k); [|exact As].
    intros e _. split; lia.
Qed.

Lemma acyclic_simple_merge (l : list Skeleton) :
  Forall wf l -> Forall (fun s => acyclic (edges s)) l ->
  acyclic (edges (simple_merge l)).
Proof.
  intros Hw Ha. pose proof (acyclic_merge_from l 0 Hw Ha) as H.
  unfold simple_merge. destruct (merge_from 0 l) as [[vs es] rs]. exact H.
Qed.

Lemma adj_filter (f : edge -> bool) (es : list edge) (a b : nat) :
  adj (filter f es) a b -> adj es a b.
Proof.
  rewrite !adj_iff. intros [H|H]; apply filter_In in H; tauto.
Qed.

Lemma acyclic_components (s c : Skeleton) :
  wf s -> acyclic (edges s) -> In c (components s) -> acyclic (edges c).
Proof.
  intros Hw Ha Hc. destruct (component_inv s c Hw Hc) as (r & _ & -> & _ & _).
  unfold restrict. simpl.
  set (l := labels (length (vertices s)) (edges s)).
  apply acyclic_map with (g := fun i => nth i (members l r) 0).
  - intros e He. destruct (comp_edges_members s r e Hw He) as [H1 H2].
    split; apply index_of_In; assumption.
  - eapply acyclic_sub; [|exact Ha]. intros a b. apply adj_filter.
Qed.

Lemma mapM_inv {A B : Type} (f : A -> outcome B) (l : list A) (bs : list B) :
  mapM f l = Returned bs -> Forall2 (fun a b => f a = Returned b) l bs.
Proof.
  revert bs. induction l as [|a l IH]; intros bs H; simpl in H.
  - injection H as <-. constructor.
  - destruct (f a) as [b| |] eqn:E; simpl in H; try discriminate.
    destruct (mapM f l) as [bs'| |]; simpl in H; try discriminate.
    injection H as <-. constructor; [exact E|apply IH; reflexivity].
Qed.

Lemma Forall2_Forall {A B : Type} (R : A -> B -> Prop) (P : A -> Prop)
      (Q : B -> Prop) (l : list A) (bs : list B) :
  (forall a b, P a -> R a b -> Q b) ->
  Forall P l -> Forall2 R l bs -> Forall Q bs.
Proof.
  intros H Hl HR. induction HR as [|a b l bs Hab _ IH]; [constructor|].
  inversion Hl; subst. constructor; [eapply H; eauto|apply IH; assumption].
Qed.

(** ** Loop removal returns an acyclic graph *)

Lemma remove_rows_range (n : nat) (rows arr : list edge) :
  Forall (edge_in_range n) arr ->
  Forall (edge_in_range n)
         (fold_left (fun a x => filter (fun f => negb (edge_eqb f x)) a) rows arr).
Proof.
  intro H. rewrite Forall_forall in *. intros e He.
  apply remove_rows_In in He. apply H, He.
Qed.

Lemma sort_edge_range (n : nat) (es : list edge) :
  Forall (edge_in_range n) es -> Forall (edge_in_range n) (map sort_edge es).
Proof.
  intro H. rewrite Forall_forall in *. intros e' He'.
  apply in_map_iff in He'. destruct He' as (e & <- & He).
  destruct (H e He) as [H1 H2]. unfold edge_in_range, sort_edge. simpl. lia.
Qed.

Lemma remove_row_range (n : nat) (es rows : list edge) :
  Forall (edge_in_range n) es -> Forall (edge_in_range n) (remove_row es rows).
Proof.
  intro H. unfold remove_row. apply remove_rows_range, sort_edge_range, H.
Qed.

Lemma argmax_by_In {A : Type} (key : A -> Q) (l : list A) (best : A) :
  argmax_by key best l = best \/ In (argmax_by key best l) l.
Proof.
  revert best. induction l as [|x l IH]; intro best; simpl; [now left|].
  destruct (IH (if Qltb (key best) (key x) then x else best)) as [H|H].
  - rewrite H. destruct (Qltb (key best) (key x)); auto.
  - auto.
Qed.

Lemma cycle_nodes_range (n : nat) (es found : list edge) (v : nat) :
  Forall (edge_in_range n) es ->
  (forall e, In e found -> adj es (fst e) (snd e)) ->
  In v (unique_nodes (map sort_edge found)) -> v < n.
Proof.
  intros Hr Hf Hv. apply unique_nodes_In in Hv. destruct Hv as (e' & He' & Hv).
  apply in_map_iff in He'. destruct He' as (e & <- & He).
  destruct (adj_range n es _ _ Hr (Hf e He)) as [H1 H2].
  unfold sort_edge in Hv. simpl in Hv. lia.
Qed.

Lemma intersect_node_lt (nodes : list point) (B : list nat) :
  0 < length nodes -> intersect_node_of nodes B < length nodes.
Proof.
  intro Hn. unfold intersect_node_of.
  destruct (length nodes) as [|n] eqn:En; [lia|]. simpl seq.
  destruct (argmin_by_spec
              (fun v => sqdist (nth v nodes origin)
                               (centroid (map (fun v0 => nth v0 nodes origin) B)))
              (seq 1 n) 0) as (_ & _ & [->|H]); [lia|].
  apply in_seq in H. lia.
Qed.

Lemma loop_case3_range (nodes : list point) (G es cyc : list edge) (B : list nat) :
  Forall (edge_in_range (length nodes)) es ->
  (forall b, In b B -> b < length nodes) ->
  0 < length nodes ->
  Forall (edge_in_range (length nodes)) (snd (loop_case3 nodes (G, es) cyc B)).
Proof.
  intros Hr HB Hn. unfold loop_case3. cbn [snd]. apply Forall_app. split.
  - apply remove_row_range, Hr.
  - apply Forall_forall. intros e He. apply in_map_iff in He.
    destruct He as (b & <- & Hb). apply filter_In in Hb. destruct Hb as [Hb _].
    split; simpl; [apply HB, Hb|]. apply intersect_node_lt, Hn.
Qed.

Lemma loop_step_range (nodes : list point) (st st' : loop_state) (found : list edge) :
  Forall (edge_in_range (length nodes)) (snd st) ->
  (forall e, In e found -> adj (snd st) (fst e) (snd e)) ->
  loop_step nodes st found = Returned st' ->
  Forall (edge_in_range (length nodes)) (snd st').
Proof.
  intros Hr Hf. destruct st as [G es]. simpl in Hr, Hf. unfold loop_step. simpl snd.
  set (cyc := map sort_edge found).
  assert (HB : forall b, In b (branch_cycle_of es cyc) -> b < length nodes).
  { intros b Hb. unfold branch_cycle_of in Hb. apply filter_In in Hb.
    eapply cycle_nodes_range; [exact Hr|exact Hf|apply Hb]. }
  destruct (branch_cycle_of es cyc) as [|b0 [|b1 [|b2 B]]] eqn:EB.
  - intro H. injection H as <-. simpl. apply remove_row_range, Hr.
  - intro H. injection H as <-. simpl. apply Forall_app. split.
    + apply remove_row_range, Hr.
    + constructor; [|constructor]. split; simpl; [apply HB; now left|].
      destruct (unique_nodes cyc) as [|c cs] eqn:Ec; [apply HB; now left|].
      destruct (argmax_by_In
                  (fun v => sqdist (nth v nodes origin) (nth b0 nodes origin)) cs c)
        as [->|H];
        (eapply cycle_nodes_range; [exact Hr|exact Hf|]); fold cyc; rewrite Ec;
        [now left|right; exact H].
  - unfold loop_case2.
    destruct (shortest_path G b0 b1) as [p| |]; simpl; try discriminate.
    intro H. injection H as <-. simpl. apply remove_row_range, Hr.
  - intro H. injection H as <-. apply loop_case3_range; [exact Hr|exact HB|].
    specialize (HB b0 (or_introl eq_refl)). lia.
Qed.

Section LoopsAcyclic.

Variable cycle_finder : list edge -> nat -> list edge.
Hypothesis finder : finder_ok cycle_finder.

Lemma loop_removal_acyclic (nodes : list point) (fuel : nat) :
  forall st st',
    Forall (edge_in_range (length nodes)) (snd st) ->
    loop_removal cycle_finder fuel nodes st = Returned st' ->
    acyclic (snd st') /\ Forall (edge_in_range (length nodes)) (snd st').
Proof.
  destruct finder as [Hcomplete Hsound].
  induction fuel as [|fuel IH]; intros st st' Hr H; simpl in H; [discriminate|].
  destruct (cycle_finder (snd st) (length nodes)) as [|e found] eqn:Ef.
  - injection H as <-. split; [eapply Hcomplete; exact Ef|exact Hr].
  - destruct (loop_step nodes st (e :: found)) as [st1| |] eqn:Es; simpl in H;
      try discriminate.
    apply (IH st1 st'); [|exact H].
    eapply loop_step_range; [exact Hr| |exact Es].
    intros x Hx. apply (Hsound (snd st) (length nodes)). rewrite Ef. exact Hx.
Qed.

Lemma _remove_loops_acyclic (fuel : nat) (c r : Skeleton) :
  wf c -> _remove_loops cycle_finder fuel c = Returned r ->
  wf r /\ acyclic (edges r).
Proof.
  intros Hw H. unfold _remove_loops in H.
  destruct (loop_removal cycle_finder fuel (vertices c) _) as [st| |] eqn:El;
    simpl in H; try discriminate.
  injection H as <-. apply loop_removal_acyclic in El; [|apply Hw].
  destruct El as [Ha Hr]. split; [|exact Ha].
  split; [exact Hr|apply Hw].
Qed.

Lemma remove_loops_acyclic (fuel : nat) (s r : Skeleton) :
  wf s -> remove_loops cycle_finder fuel s = Returned r ->
  empty s = false ->
  wf r /\ acyclic (edges r).
Proof.
  intros Hw H He. unfold remove_loops in H. rewrite He in H.
  destruct (mapM (_remove_loops cycle_finder fuel) (components s)) as [skels| |] eqn:Em;
    simpl in H; try discriminate.
  injection H as <-. apply mapM_inv in Em.
  assert (H1 : Forall (fun x => wf x /\ acyclic (edges x)) skels).
  { eapply Forall2_Forall; [|apply (components_wf s Hw)|exact Em].
    intros a b Ha Hab. simpl in Hab. eapply _remove_loops_acyclic; eassumption. }
  assert (Hwf : Forall wf skels)
    by (eapply Forall_impl; [|exact H1]; intros a Ha; apply Ha).
  assert (Hac : Forall (fun x => acyclic (edges x)) skels)
    by (eapply Forall_impl; [|exact H1]; intros a Ha; apply Ha).
  split.
  - apply consolidate_wf, simple_merge_wf, Hwf.
  - apply acyclic_consolidate; [apply simple_merge_wf, Hwf|].
    apply acyclic_simple_merge; assumption.
Qed.

End LoopsAcyclic.

(** ** Piece connection keeps the graph acyclic *)

Lemma forallb_range (n : nat) (es : list edge) :
  forallb (edge_in_rangeb n) es = true <-> Forall (edge_in_range n) es.
Proof.
  rewrite forallb_forall, Forall_forall. unfold edge_in_rangeb, edge_in_range.
  split; intros H e He; specialize (H e He).
  - apply andb_true_iff in H. rewrite !Nat.ltb_lt in H. exact H.
  - apply andb_true_iff. rewrite !Nat.ltb_lt. exact H.
Qed.

Lemma find_connected_inv (nodes : list point) (es : list edge)
      (connected : list (list bool)) :
  find_connected nodes es = Returned connected ->
  Forall (edge_in_range (length nodes)) es /\
  connected = map (fun i => map (fun x => x =? i) (labels (length nodes) es))
                  (edge_labels (labels (length nodes) es) es).
Proof.
  unfold find_connected.
  destruct (forallb (edge_in_rangeb (length nodes)) es) eqn:E; [|discriminate].
  intro H. injection H as <-. split; [apply forallb_range, E|reflexivity].
Qed.

Lemma mask_lt (nodes : list point) (es : list edge) (connected : list (list bool))
      (m : list bool) (p : nat) :
  find_connected nodes es = Returned connected ->
  In m connected -> nth_error m p = Some true -> p < length nodes.
Proof.
  intros Hf Hm Hp. apply find_connected_inv in Hf. destruct Hf as [_ ->].
  apply in_map_iff in Hm. destruct Hm as (i & <- & _).
  assert (H : nth_error (map (fun x => x =? i) (labels (length nodes) es)) p <> None)
    by congruence.
  apply nth_error_Some in H. rewrite length_map, labels_length in H. exact H.
Qed.

Lemma relabel_same (a : nat) (l : list nat) : relabel a a l = l.
Proof.
  unfold relabel. rewrite <- (map_id l) at 2. apply map_ext.
  intro x. destruct (x =? a) eqn:E; [apply Nat.eqb_eq in E; auto|reflexivity].
Qed.

Lemma labels_same_class (n : nat) (es : list edge) (p q : nat) :
  label_of (labels n es) p = label_of (labels n es) q ->
  labels n (es ++ [(p, q)]) = labels n es.
Proof.
  intro H. rewrite labels_snoc. unfold merge_labels. simpl fst. simpl snd.
  fold (label_of (labels n es) p). fold (label_of (labels n es) q).
  rewrite H, Nat.max_id, Nat.min_id. apply relabel_same.
Qed.

Lemma find_connected_same (nodes : list point) (es : list edge)
      (connected : list (list bool)) (p q : nat) :
  find_connected nodes es = Returned connected ->
  used es p = true -> p < length nodes -> q < length nodes ->
  label_of (labels (length nodes) es) p = label_of (labels (length nodes) es) q ->
  find_connected nodes (es ++ [(p, q)]) = Returned connected.
Proof.
  intros Hf Hu Hp Hq Hl.
  destruct (find_connected_inv _ _ _ Hf) as [Hr ->].
  unfold find_connected.
  assert (E : forallb (edge_in_rangeb (length nodes)) (es ++ [(p, q)]) = true).
  { apply forallb_range, Forall_app. split; [exact Hr|].
    constructor; [split; assumption|constructor]. }
  rewrite E, (labels_same_class _ _ _ _ Hl). f_equal. f_equal.
  unfold edge_labels. apply filter_ext. intro r.
  rewrite existsb_app. simpl. rewrite orb_false_r, <- Hl, orb_diag.
  set (l := labels (length nodes) es).
  destruct (label_of l p =? r) eqn:Er; [|apply orb_false_r].
  rewrite orb_true_r. symmetry. apply existsb_exists.
  apply used_true in Hu. destruct Hu as (e & He & Hv).
  exists e. split; [exact He|]. apply orb_true_iff.
  destruct Hv as [<-|<-]; [left|right]; exact Er.
Qed.

Section ConnectAcyclic.

Variable fsqrt : Q -> Q.

Lemma connect_loop_stuck (nodes : list point) (rad : list Q)
      (connected : list (list bool)) (p q : nat) (fuel : nat) :
  sweep fsqrt nodes rad connected (combination_pairs (length connected))
    = Returned (Some (p, q)) ->
  p < length nodes -> q < length nodes ->
  forall es es',
    find_connected nodes es = Returned connected ->
    used es p = true ->
    label_of (labels (length nodes) es) p = label_of (labels (length nodes) es) q ->
    connect_loop fsqrt fuel nodes rad es <> Returned es'.
Proof.
  intros Hs Hp Hq. induction fuel as [|fuel IH]; intros es es' Hf Hu Hl;
    simpl; [discriminate|].
  rewrite Hf. simpl. rewrite Hs.
  apply IH.
  - apply find_connected_same; assumption.
  - rewrite used_app, Hu. reflexivity.
  - exact (eq_ind_r (fun L => label_of L p = label_of L q) Hl
             (labels_same_class _ _ _ _ Hl)).
Qed.

Lemma connect_loop_acyclic (nodes : list point) (rad : list Q) (fuel : nat) :
  forall es es',
    acyclic es ->
    connect_loop fsqrt fuel nodes rad es = Returned es' ->
    acyclic es' /\ Forall (edge_in_range (length nodes)) es'.
Proof.
  induction fuel as [|fuel IH]; intros es es' Ha H; [discriminate|].
  pose proof H as H0. simpl in H.
  destruct (find_connected nodes es) as [connected| |] eqn:Ef; simpl in H;
    try discriminate.
  destruct (sweep fsqrt nodes rad connected _) as [[[p q]|]| |] eqn:Es; simpl in H;
    try discriminate.
  - pose proof Es as Es'. apply sweep_some in Es'. destruct Es' as (pr & _ & Ht).
    apply try_pair_some in Ht. destruct Ht as (Pm & Qm & H1 & H2 & H3 & H4).
    pose proof (mask_lt _ _ _ _ _ Ef H1 H3) as Hp.
    pose proof (mask_lt _ _ _ _ _ Ef H2 H4) as Hq.
    pose proof (find_connected_mask _ _ _ _ _ Ef H1 H3) as Hu.
    destruct (Nat.eq_dec (label_of (labels (length nodes) es) p)
                         (label_of (labels (length nodes) es) q)) as [El|El].
    + exfalso.
      apply (connect_loop_stuck nodes rad connected p q (S fuel) Es Hp Hq
               es es' Ef Hu El H0).
    + apply (IH (es ++ [(p, q)])); [|exact H].
      apply acyclic_bridge; [exact Ha|]. intro Hc. apply El.
      apply conn_same_label; [|exact Hc].
      apply (find_connected_inv _ _ _ Ef).
  - injection H as <-. split; [exact Ha|apply (find_connected_inv _ _ _ Ef)].
Qed.

Lemma connect_pieces_acyclic (fuel : nat) (s r : Skeleton) :
  wf s -> acyclic (edges s) ->
  connect_pieces fsqrt fuel s = Returned r ->
  wf r /\ acyclic (edges r).
Proof.
  intros Hw Ha H. unfold connect_pieces in H.
  destruct (empty s); [injection H as <-; auto|].
  destruct (connect_loop fsqrt fuel (vertices s) (radii s) (edges s))
    as [es'| |] eqn:El; simpl in H; try discriminate.
  injection H as <-. apply connect_loop_acyclic in El; [|exact Ha].
  destruct El as [Ha' Hr'].
  assert (Hw' : wf (set_edges s es')) by (split; [exact Hr'|apply Hw]).
  split; [apply consolidate_wf, Hw'|apply acyclic_consolidate; assumption].
Qed.

End ConnectAcyclic.

(** ** Tick removal keeps the graph acyclic *)

Lemma adj_remove_edges_from (G rs : list edge) (a b : nat) :
  adj (g_remove_edges_from G rs) a b -> adj G a b.
Proof.
  rewrite !adj_iff. intros [H|H]; apply g_remove_edges_from_In in H; tauto.
Qed.

Lemma prune_adj (st st' : tick_state) (k : edge) (a b : nat) :
  prune st k = Returned st' -> adj (t_G st') a b -> adj (t_G st) a b.
Proof.
  destruct k as [e1 e2]. unfold prune.
  destruct (shortest_path (t_G st) e1 e2) as [path| |]; simpl; try discriminate.
  destruct (fuse_if_two _ e1) as [st1| |]; simpl; try discriminate.
  destruct (fuse_if_two st1 e2) as [st2| |]; simpl; try discriminate.
  intro H. injection H as <-. simpl. apply adj_remove_edges_from.
Qed.

Lemma tick_loop_adj (T : list nat) (thr : Q) (fuel : nat) :
  forall st st' a b,
    tick_loop fuel T thr st = Returned st' ->
    adj (t_G st') a b -> adj (t_G st) a b.
Proof.
  induction fuel as [|fuel IH]; intros st st' a b H Ha; simpl in H; [discriminate|].
  destruct (tick_round T thr st) as [r| |] eqn:E; simpl in H; try discriminate.
  destruct r as [| | |st1]; try (injection H as <-; exact Ha).
  apply tick_round_pruned in E. destruct E as (k & w & _ & Hp).
  eapply prune_adj; [exact Hp|]. eapply IH; eassumption.
Qed.

Lemma g_edges_from_adj (G : list edge) (order : list nat) :
  forall seen a b, In (a, b) (g_edges_from G order seen) -> adj G a b.
Proof.
  induction order as [|n order IH]; intros seen a b H; simpl in H; [destruct H|].
  apply in_app_or in H. destruct H as [H|H]; [|eapply IH; exact H].
  apply in_map_iff in H. destruct H as (nbr & E & Hn). injection E as <- <-.
  apply filter_In in Hn. apply neighbors_adj, Hn.
Qed.

Section TicksAcyclic.

Variable fsqrt : Q -> Q.

Lemma _remove_ticks_acyclic (fuel : nat) (c r : Skeleton) (t : Q) :
  wf c -> acyclic (edges c) ->
  _remove_ticks fsqrt fuel c t = Returned r ->
  wf r /\ acyclic (edges r).
Proof.
  intros Hw Ha H. unfold _remove_ticks in H.
  destruct (empty c); [injection H as <-; auto|].
  destruct (_create_distance_graph fsqrt fuel c) as [dgraph| |]; simpl in H;
    try discriminate.
  destruct (tick_loop fuel _ t (tick_init c dgraph)) as [st| |] eqn:El; simpl in H;
    try discriminate.
  injection H as <-.
  set (E := g_edges_from (t_G st) (node_order (edges c)) []).
  assert (Hsub : forall a b, adj E a b -> adj (edges c) a b).
  { intros a b Hab.
    assert (H0 : adj (t_G st) a b).
    { apply adj_iff in Hab. destruct Hab as [H|H];
        apply g_edges_from_adj in H; [exact H|apply adj_sym, H]. }
    apply (tick_loop_adj _ _ _ _ _ _ _ El) in H0. simpl in H0.
    exact (proj1 (adj_add_edges_from_nil _ _ _) H0). }
  assert (Hw' : wf (set_edges c E)).
  { split; [|apply Hw]. simpl. apply Forall_forall. intros [a b] He.
    apply (adj_range _ (edges c)); [apply Hw|].
    apply Hsub, adj_iff. auto. }
  split; [apply consolidate_wf, Hw'|].
  apply acyclic_consolidate; [exact Hw'|].
  simpl. eapply acyclic_sub; [exact Hsub|exact Ha].
Qed.

Lemma remove_ticks_acyclic (fuel : nat) (s r : Skeleton) (t : Q) :
  wf s -> acyclic (edges s) ->
  remove_ticks fsqrt fuel s t = Returned r ->
  wf r /\ acyclic (edges r).
Proof.
  intros Hw Ha H. unfold remove_ticks in H.
  destruct (empty s); [injection H as <-; auto|].
  destruct (mapM _ (components s)) as [skels| |] eqn:Em; simpl in H; try discriminate.
  injection H as <-. apply mapM_inv in Em.
  assert (H0 : Forall (fun c => wf c /\ acyclic (edges c)) (components s)).
  { apply Forall_forall. intros c Hc. split.
    - pose proof (components_wf s Hw) as Hcw. rewrite Forall_forall in Hcw. auto.
    - eapply acyclic_components; eassumption. }
  assert (H1 : Forall (fun x => wf x /\ acyclic (edges x)) skels).
  { eapply Forall2_Forall; [|exact H0|exact Em].
    intros a b [Hwa Haa] Hab. simpl in Hab.
    eapply _remove_ticks_acyclic; eassumption. }
  assert (Hwf : Forall wf skels)
    by (eapply Forall_impl; [|exact H1]; intros a Hx; apply Hx).
  assert (Hac : Forall (fun x => acyclic (edges x)) skels)
    by (eapply Forall_impl; [|exact H1]; intros a Hx; apply Hx).
  split.
  - apply consolidate_wf, simple_merge_wf, Hwf.
  - apply acyclic_consolidate; [apply simple_merge_wf, Hwf|].
    apply acyclic_simple_merge; assumption.
Qed.

End TicksAcyclic.

Lemma empty_acyclic (s : Skeleton) : wf s -> empty s = true -> acyclic (edges s).
Proof.
  intros [Hr _] He. unfold empty in He. apply orb_true_iff in He.
  destruct He as [He|He]; apply Nat.eqb_eq in He.
  - destruct (edges s) as [|e es]; [apply acyclic_nil|].
    inversion Hr as [|? ? [H _] _]; subst. lia.
  - destruct (edges s); [apply acyclic_nil|discriminate].
Qed.



(** ** Shortest paths are simple *)

Lemma lookup_app_some {A : Type} (k : nat) (l1 l2 : list (nat * A)) (a : A) :
  lookup k l1 = Some a -> lookup k (l1 ++ l2) = Some a.
Proof.
  induction l1 as [|[k' a'] l1 IH]; simpl; [discriminate|].
  destruct (k' =? k); auto.
Qed.

Lemma lookup_app_none {A : Type} (k : nat) (l1 l2 : list (nat * A)) :
  lookup k l1 = None -> lookup k (l1 ++ l2) = lookup k l2.
Proof.
  induction l1 as [|[k' a'] l1 IH]; simpl; [reflexivity|].
  destruct (k' =? k); [discriminate|auto].
Qed.

Lemma pos_some {A : Type} (k : nat) (l : list (nat * nat)) :
  lookup k l <> None -> pos k l < length l.
Proof.
  induction l as [|[k' a'] l IH]; simpl; [congruence|].
  destruct (k' =? k); [lia|]. intro H. specialize (IH H). lia.
Qed.

Lemma pos_app_some (k : nat) (l1 l2 : list (nat * nat)) :
  lookup k l1 <> None -> pos k (l1 ++ l2) = pos k l1.
Proof.
  induction l1 as [|[k' a'] l1 IH]; simpl; [congruence|].
  destruct (k' =? k); [reflexivity|]. intro H. f_equal. apply IH, H.
Qed.

Lemma pos_app_none (k : nat) (l1 l2 : list (nat * nat)) :
  lookup k l1 = None -> pos k (l1 ++ l2) = length l1 + pos k l2.
Proof.
  induction l1 as [|[k' a'] l1 IH]; simpl; [reflexivity|].
  destruct (k' =? k); [discriminate|]. intro H. f_equal. apply IH, H.
Qed.

Lemma tree_parent_before (src : nat) (parent : list (nat * nat)) :
  tree_ok src parent ->
  forall v u, lookup v parent = Some u -> v <> src ->
              lookup u parent <> None /\ pos u parent < pos v parent.
Proof.
  induction 1 as [|parent w u0 Ht IH Hw Hu]; intros v u Hl Hv.
  - simpl in Hl. destruct (src =? v) eqn:E; [|discriminate].
    apply Nat.eqb_eq in E. congruence.
  - destruct (lookup v parent) as [u'|] eqn:El.
    + rewrite (lookup_app_some _ _ _ _ El) in Hl. injection Hl as ->.
      destruct (IH v u El Hv) as [H1 H2]. split.
      * destruct (lookup u parent) as [x|] eqn:Ex; [|congruence].
        rewrite (lookup_app_some _ _ _ _ Ex). discriminate.
      * rewrite !pos_app_some by congruence. exact H2.
    + rewrite (lookup_app_none _ _ _ El) in Hl. simpl in Hl.
      destruct (w =? v) eqn:E; [|discriminate].
      apply Nat.eqb_eq in E. subst w. injection Hl as ->. split.
      * destruct (lookup u parent) as [x|] eqn:Ex; [|congruence].
        rewrite (lookup_app_some _ _ _ _ Ex). discriminate.
      * rewrite (pos_app_some u) by exact Hu.
        rewrite (pos_app_none v) by exact El.
        pose proof (@pos_some nat u parent Hu). lia.
Qed.

Lemma walk_back_NoDup (src : nat) (parent : list (nat * nat)) (fuel : nat) :
  tree_ok src parent ->
  forall v acc p,
    NoDup acc ->
    (forall x, In x acc -> pos v parent < pos x parent) ->
    walk_back fuel parent src v acc = Some p ->
    NoDup p.
Proof.
  intro Ht.
  assert (Hcons : forall v acc, NoDup acc ->
            (forall x, In x acc -> pos v parent < pos x parent) ->
            NoDup (v :: acc)).
  { intros v acc Hn Hp. constructor; [|exact Hn].
    intro Hin. specialize (Hp v Hin). lia. }
  induction fuel as [|fuel IH]; intros v acc p Hn Hp H; simpl in H.
  - destruct (v =? src); [|discriminate]. injection H as <-. auto.
  - destruct (v =? src) eqn:E; [injection H as <-; auto|].
    apply Nat.eqb_neq in E.
    destruct (lookup v parent) as [u|] eqn:El; [|discriminate].
    destruct (tree_parent_before src parent Ht v u El E) as [_ Hlt].
    apply (IH u (v :: acc) p); [auto| |exact H].
    intros x [<-|Hx]; [exact Hlt|]. specialize (Hp x Hx). lia.
Qed.

Lemma lookup_app_mono {A : Type} (k : nat) (l1 l2 : list (nat * A)) :
  lookup k l1 <> None -> lookup k (l1 ++ l2) <> None.
Proof.
  intro H. destruct (lookup k l1) as [a|] eqn:E; [|congruence].
  rewrite (lookup_app_some _ _ _ _ E). discriminate.
Qed.

Lemma visit_tree (src u w : nat) (st : list nat * list (nat * nat)) :
  tree_ok src (snd st) -> lookup u (snd st) <> None ->
  frontier_ok (fst st) (snd st) ->
  tree_ok src (snd (visit u st w)) /\
  frontier_ok (fst (visit u st w)) (snd (visit u st w)) /\
  (forall x, lookup x (snd st) <> None -> lookup x (snd (visit u st w)) <> None).
Proof.
  intros Ht Hu Hf. unfold visit. destruct (lookup w (snd st)) eqn:El.
  - split; [exact Ht|]. split; [exact Hf|auto].
  - simpl. split; [apply tree_snoc; assumption|]. split.
    + intros x Hx. apply in_app_or in Hx. destruct Hx as [Hx|[<-|[]]].
      * apply lookup_app_mono, Hf, Hx.
      * rewrite (lookup_app_none _ _ _ El). simpl. rewrite Nat.eqb_refl. discriminate.
    + intros x Hx. apply lookup_app_mono, Hx.
Qed.

Lemma expand_tree (G : list edge) (src u : nat) (st : list nat * list (nat * nat)) :
  tree_ok src (snd st) -> lookup u (snd st) <> None ->
  frontier_ok (fst st) (snd st) ->
  tree_ok src (snd (expand G st u)) /\
  frontier_ok (fst (expand G st u)) (snd (expand G st u)) /\
  (forall x, lookup x (snd st) <> None -> lookup x (snd (expand G st u)) <> None).
Proof.
  unfold expand. generalize (neighbors G u) as ws.
  intro ws. revert st. induction ws as [|w ws IH]; intros st Ht Hu Hf; simpl.
  - split; [exact Ht|]. split; [exact Hf|auto].
  - destruct (visit_tree src u w st Ht Hu Hf) as (H1 & H2 & H3).
    destruct (IH (visit u st w) H1 (H3 u Hu) H2) as (K1 & K2 & K3).
    split; [exact K1|]. split; [exact K2|]. intros x Hx. apply K3, H3, Hx.
Qed.

Lemma bfs_tree (G : list edge) (src : nat) (fuel : nat) :
  forall frontier parent,
    tree_ok src parent -> frontier_ok frontier parent ->
    tree_ok src (bfs fuel G frontier parent).
Proof.
  induction fuel as [|fuel IH]; intros frontier parent Ht Hf; simpl; [exact Ht|].
  assert (H : forall us st,
            tree_ok src (snd st) -> frontier_ok (fst st) (snd st) ->
            (forall u, In u us -> lookup u (snd st) <> None) ->
            tree_ok src (snd (fold_left (expand G) us st)) /\
            frontier_ok (fst (fold_left (expand G) us st))
                        (snd (fold_left (expand G) us st))).
  { induction us as [|u us IHu]; intros st Hs Hfs Hus; simpl; [auto|].
    destruct (expand_tree G src u st Hs (Hus u (or_introl eq_refl)) Hfs)
      as (H1 & H2 & H3).
    apply IHu; [exact H1|exact H2|].
    intros x Hx. apply H3, Hus. now right. }
  destruct (H frontier ([], parent) Ht (fun u (Hu : In u []) => match Hu with end) Hf)
    as [H1 H2].
  destruct (fst (fold_left (expand G) frontier ([], parent))) eqn:E; [exact H1|].
  apply IH; [exact H1|exact H2].
Qed.

Lemma shortest_path_NoDup (G : list edge) (a b : nat) (p : list nat) :
  shortest_path G a b = Returned p -> NoDup p.
Proof.
  unfold shortest_path.
  destruct (walk_back _ _ a b []) as [p'|] eqn:E; [|discriminate].
  intro H. injection H as <-.
  eapply walk_back_NoDup; [| | |exact E].
  - apply bfs_tree; [apply tree_root|].
    intros u [<-|[]]. simpl. rewrite Nat.eqb_refl. discriminate.
  - constructor.
  - intros x [].
Qed.

(** ** Rows of paths and cycles *)

Lemma path2edge_vertices (p : list nat) (e : edge) :
  In e (path2edge p) -> In (fst e) p /\ In (snd e) p.
Proof.
  induction p as [|u [|v rest] IH]; simpl; try tauto.
  intros [<-|He]; simpl; [auto|].
  destruct (IH He) as [H1 H2]. auto.
Qed.

Lemma path2edge_length (p : list nat) : length (path2edge p) = length p - 1.
Proof.
  induction p as [|u [|v rest] IH]; simpl in *; try reflexivity.
  rewrite IH. lia.
Qed.

Lemma cycle_rows_length (c : list nat) : c <> [] -> length (cycle_rows c) = length c.
Proof.
  intro H. unfold cycle_rows. rewrite length_app, path2edge_length. simpl.
  destruct c; [congruence|simpl; lia].
Qed.

Lemma in_sorted_rows (es : list edge) (a b : nat) :
  In (sort_edge (a, b)) (map sort_edge es) <-> adj es a b.
Proof.
  unfold adj. rewrite g_has_true, in_map_iff. split; intros (f & H1 & H2);
    exists f; auto.
Qed.

Lemma path_rows_NoDup (p : list nat) :
  NoDup p -> NoDup (map sort_edge (path2edge p)).
Proof.
  induction p as [|u [|v rest] IH]; intro Hn;
    [constructor|constructor|].
  change (path2edge (u :: v :: rest)) with ((u, v) :: path2edge (v :: rest)).
  rewrite map_cons. constructor.
  - inversion Hn as [|? ? Hu Hn']; subst. intro Hin.
    apply in_sorted_rows in Hin. apply adj_used in Hin. destruct Hin as [Hin _].
    apply used_true in Hin. destruct Hin as (e & He & Hv).
    apply path2edge_vertices in He. destruct He as [H1 H2].
    destruct Hv as [Hv|Hv]; rewrite Hv in *; contradiction.
  - apply IH. inversion Hn; assumption.
Qed.

Lemma last_in {A : Type} (l : list A) (d : A) : l <> [] -> In (last l d) l.
Proof.
  induction l as [|x [|y l] IH]; intro H; [congruence|now left|].
  right. apply IH. discriminate.
Qed.

Lemma cycle_rows_NoDup (c : list nat) :
  NoDup c -> 3 <= length c -> NoDup (map sort_edge (cycle_rows c)).
Proof.
  intros Hn Hl. unfold cycle_rows. rewrite map_app. simpl.
  apply NoDup_app_remove_l with (l := []). simpl.
  apply Permutation_NoDup with (l := sort_edge (last c 0, hd 0 c)
                                      :: map sort_edge (path2edge c)).
  - apply Permutation_cons_append.
  - constructor; [|apply path_rows_NoDup, Hn].
    destruct c as [|a [|b [|x rest]]]; simpl in Hl; try lia.
    simpl hd. change (last (a :: b :: x :: rest) 0) with (last (x :: rest) 0).
    inversion Hn as [|? ? Ha Hn']; subst. inversion Hn' as [|? ? Hb _]; subst.
    assert (Hlast : In (last (x :: rest) 0) (x :: rest))
      by (apply last_in; discriminate).
    change (path2edge (a :: b :: x :: rest))
      with ((a, b) :: path2edge (b :: x :: rest)).
    rewrite map_cons. intro Hor. apply in_inv in Hor. destruct Hor as [E|Hin].
    + apply sort_edge_eq in E. destruct E as [[E _]|[_ E]].
      * apply Ha. right. rewrite E. exact Hlast.
      * apply Hb. rewrite E. exact Hlast.
    + apply in_sorted_rows in Hin. apply adj_used in Hin. destruct Hin as [_ Hin].
      apply used_true in Hin. destruct Hin as (e & He & Hv).
      apply path2edge_vertices in He. destruct He as [H1 H2].
      destruct Hv as [Hv|Hv]; rewrite Hv in *; contradiction.
Qed.

Lemma chain_mono (es fs : list edge) (c : list nat) :
  (forall a b, adj es a b -> adj fs a b) -> chain es c -> chain fs c.
Proof.
  intro H. induction c as [|u [|v rest] IH]; simpl; try tauto.
  intros [H1 H2]. split; [apply H, H1|apply IH, H2].
Qed.

Lemma chain_path2edge (p : list nat) : chain (path2edge p) p.
Proof.
  induction p as [|u [|v rest] IH]; [exact I|exact I|].
  change (path2edge (u :: v :: rest)) with ((u, v) :: path2edge (v :: rest)).
  split; [apply adj_iff; left; now left|].
  eapply chain_mono; [|exact IH]. intros a b. rewrite !adj_iff.
  intros [H|H]; [left|right]; right; exact H.
Qed.

Lemma cycle_rows_simple_cycle (c : list nat) :
  NoDup c -> 3 <= length c -> simple_cycle (cycle_rows c) c.
Proof.
  intros Hn Hl. split; [exact Hl|]. split; [exact Hn|]. split.
  - eapply chain_mono; [|apply chain_path2edge].
    intros a b H. apply adj_app. now left.
  - apply adj_app. right. apply adj_iff. left. now left.
Qed.

Lemma acyclic_path (p : list nat) : NoDup p -> acyclic (path2edge p).
Proof.
  induction p as [|u [|v rest] IH]; intro Hn; try apply acyclic_nil.
  inversion Hn as [|? ? Hu Hn']; subst.
  change (path2edge (u :: v :: rest)) with ((u, v) :: path2edge (v :: rest)).
  apply acyclic_sub with (es := path2edge (v :: rest) ++ [(u, v)]).
  - intros a b. rewrite !adj_iff, !in_app_iff. simpl. tauto.
  - apply acyclic_bridge; [apply IH, Hn'|].
    intro Hc. inversion Hc as [|? x ? Hux _]; subst.
    + apply Hu. now left.
    + apply adj_used in Hux. destruct Hux as [Hux _].
      apply used_true in Hux. destruct Hux as (e & He & Hv).
      apply path2edge_vertices in He. destruct He as [H1 H2].
      destruct Hv as [Hv|Hv]; rewrite Hv in *; contradiction.
Qed.

(** ** Counting rows *)

Lemma filter_length_le {A : Type} (f : A -> bool) (l : list A) :
  length (filter f l) <= length l.
Proof.
  induction l as [|x l IH]; simpl; [lia|]. destruct (f x); simpl; lia.
Qed.

Lemma filter_length_lt {A : Type} (f : A -> bool) (l : list A) (x : A) :
  In x l -> f x = false -> length (filter f l) < length l.
Proof.
  induction l as [|y l IH]; simpl; [intros []|].
  intros [->|Hx] Hf.
  - rewrite Hf. pose proof (filter_length_le f l). lia.
  - specialize (IH Hx Hf). destruct (f y); simpl; lia.
Qed.

Lemma remove_rows_length (rows : list edge) :
  forall arr,
    NoDup rows -> (forall r, In r rows -> In r arr) ->
    length (fold_left (fun a x => filter (fun f => negb (edge_eqb f x)) a) rows arr)
    + length rows <= length arr.
Proof.
  induction rows as [|r rows IH]; intros arr Hn Hin; simpl; [lia|].
  inversion Hn as [|? ? Hr Hn']; subst.
  assert (Hlt : length (filter (fun f => negb (edge_eqb f r)) arr) < length arr).
  { apply filter_length_lt with (x := r); [apply Hin; now left|].
    rewrite edge_eqb_refl. reflexivity. }
  specialize (IH (filter (fun f => negb (edge_eqb f r)) arr) Hn').
  assert (Hin' : forall r', In r' rows ->
                   In r' (filter (fun f => negb (edge_eqb f r)) arr)).
  { intros r' Hr'. apply filter_In. split; [apply Hin; now right|].
    rewrite negb_true_iff. apply edge_eqb_neq. intro E. subst. contradiction. }
  specialize (IH Hin'). lia.
Qed.

Lemma remove_rows_length_le (rows arr : list edge) :
  length (fold_left (fun a x => filter (fun f => negb (edge_eqb f x)) a) rows arr)
  <= length arr.
Proof.
  revert arr. induction rows as [|r rows IH]; intro arr; simpl; [lia|].
  etransitivity; [apply IH|apply filter_length_le].
Qed.

Lemma remove_row_length (es rows : list edge) :
  NoDup (map sort_edge rows) ->
  (forall r, In r rows -> adj es (fst r) (snd r)) ->
  length (remove_row es rows) + length rows <= length es.
Proof.
  intros Hn Hin. unfold remove_row.
  rewrite <- (length_map sort_edge rows).
  rewrite <- (length_map sort_edge es).
  apply remove_rows_length; [exact Hn|].
  intros r Hr. apply in_map_iff in Hr. destruct Hr as ([a b] & <- & Hr).
  apply in_sorted_rows. apply (Hin (a, b) Hr).
Qed.

Lemma sorted_NoDup (l : list nat) : StronglySorted lt l -> NoDup l.
Proof.
  induction 1 as [|x l Hs IH Hx]; constructor; [|exact IH].
  intro Hin. rewrite Forall_forall in Hx. specialize (Hx x Hin). lia.
Qed.

Lemma filter_filter {A : Type} (f g : A -> bool) (l : list A) :
  filter f (filter g l) = filter (fun x => g x && f x) l.
Proof.
  induction l as [|x l IH]; simpl; [reflexivity|].
  destruct (g x); simpl; [destruct (f x); simpl; congruence|exact IH].
Qed.

Lemma remove_rows_filter (rows : list edge) :
  forall arr,
    fold_left (fun a x => filter (fun f => negb (edge_eqb f x)) a) rows arr
    = filter (fun f => negb (existsb (edge_eqb f) rows)) arr.
Proof.
  induction rows as [|r rows IH]; intro arr; simpl.
  - induction arr as [|x arr IHa]; simpl; [reflexivity|]. f_equal. exact IHa.
  - rewrite IH, filter_filter. apply filter_ext. intro f.
    rewrite negb_orb. reflexivity.
Qed.

Lemma adj_sorted (es : list edge) (e : edge) :
  adj es (fst e) (snd e) -> adj es (fst (sort_edge e)) (snd (sort_edge e)).
Proof.
  intro H. unfold sort_edge. simpl.
  destruct (Nat.le_ge_cases (fst e) (snd e)) as [Hle|Hle].
  - rewrite Nat.min_l, Nat.max_r by exact Hle. exact H.
  - rewrite Nat.min_r, Nat.max_l by exact Hle. apply adj_sym, H.
Qed.

Lemma remove_row_lt (es rows : list edge) (r : edge) :
  In r rows -> adj es (fst r) (snd r) ->
  length (remove_row es rows) < length es.
Proof.
  intros Hr Ha. unfold remove_row. rewrite remove_rows_filter.
  rewrite <- (length_map sort_edge es).
  apply filter_length_lt with (x := sort_edge r).
  - destruct r as [a b]. apply in_sorted_rows. exact Ha.
  - rewrite negb_false_iff. apply existsb_exists. exists (sort_edge r).
    split; [apply in_map, Hr|apply edge_eqb_refl].
Qed.

Lemma remove_row_le (es rows : list edge) :
  length (remove_row es rows) <= length es.
Proof.
  unfold remove_row. rewrite <- (length_map sort_edge es).
  apply remove_rows_length_le.
Qed.

(** ** Edges on cycles *)

Lemma on_cycleb_spec (n : nat) (es : list edge) (e : edge) :
  Forall (edge_in_range n) es ->
  on_cycleb n es e = true <-> connected (g_remove es e) (fst e) (snd e).
Proof.
  intro Hr. unfold on_cycleb. rewrite Nat.eqb_eq. split.
  - apply same_label_conn.
  - apply conn_same_label. unfold g_remove.
    rewrite Forall_forall in *. intros x Hx. apply filter_In in Hx. apply Hr, Hx.
Qed.

(** C9, as stated, fails in its measure: on the knot the first round (three
    branch vertices on the triangle) leaves four edges on a cycle where
    there were three. *)
Lemma loop_measure_counterexample :
  ~ (forall nodes st st',
       find_cycle (snd st) (length nodes) <> [] ->
       loop_step nodes st (find_cycle (snd st) (length nodes)) = Returned st' ->
       cycle_edge_count (length nodes) (snd st')
       < cycle_edge_count (length nodes) (snd st)).
Proof.
  intro H.
  specialize (H (vertices knot) (edges knot, edges knot)
                ([(1, 3); (2, 4); (0, 5); (5, 6); (6, 7); (0, 7); (1, 7); (2, 7)],
                 [(1, 3); (2, 4); (0, 5); (5, 6); (6, 7); (0, 7); (1, 7); (2, 7)])
                ltac:(vm_compute; discriminate)
                ltac:(vm_compute; reflexivity)).
  vm_compute in H. lia.
Qed.

(** ** Loop removal: rows removed and added by a round *)

Section LoopRows.

Variables (nodes : list point) (G es found : list edge) (c : list nat).
Hypothesis Hc : NoDup c.
Hypothesis Hl : 3 <= length c.
Hypothesis Hf : map sort_edge found = map sort_edge (cycle_rows c).
Hypothesis Hin : forall e, In e found -> adj es (fst e) (snd e).

Let cyc := map sort_edge found.

Lemma cyc_rows_NoDup : NoDup (map sort_edge cyc).
Proof.
  unfold cyc. rewrite map_map.
  rewrite (map_ext _ sort_edge) by (intro; apply sort_edge_idem).
  rewrite Hf. apply cycle_rows_NoDup; assumption.
Qed.

Lemma cyc_rows_adj (r : edge) : In r cyc -> adj es (fst r) (snd r).
Proof.
  intro Hr. apply in_map_iff in Hr. destruct Hr as (e & <- & He).
  apply adj_sorted, Hin, He.
Qed.

Lemma cyc_length : length cyc = length c.
Proof.
  unfold cyc. rewrite length_map.
  rewrite <- (length_map sort_edge found), Hf, length_map.
  apply cycle_rows_length. destruct c; [simpl in Hl; lia|discriminate].
Qed.

Lemma cyc_removed : length (remove_row es cyc) + length c <= length es.
Proof.
  rewrite <- cyc_length.
  apply remove_row_length; [apply cyc_rows_NoDup|intros r Hr; apply cyc_rows_adj, Hr].
Qed.

Lemma cyc_nodes_in_cycle (v : nat) : In v (unique_nodes cyc) -> In v c.
Proof.
  intro Hv. apply unique_nodes_In in Hv. destruct Hv as (r & Hr & Hv).
  unfold cyc in Hr. rewrite Hf in Hr. apply in_map_iff in Hr.
  destruct Hr as ([a b] & <- & He).
  assert (Hab : In a c /\ In b c).
  { unfold cycle_rows in He. apply in_app_or in He. destruct He as [He|[He|[]]].
    - apply path2edge_vertices in He. exact He.
    - assert (Hne : c <> []) by (destruct c; [simpl in Hl; lia|discriminate]).
      injection He as <- <-. split; [apply last_in, Hne|].
      destruct c; [congruence|now left]. }
  unfold sort_edge in Hv. simpl in Hv. destruct Hab.
  destruct Hv as [<-|<-];
    [destruct (Nat.min_spec a b) as [[_ ->]|[_ ->]]
    |destruct (Nat.max_spec a b) as [[_ ->]|[_ ->]]]; assumption.
Qed.

Lemma branch_cycle_length : length (branch_cycle_of es cyc) <= length c.
Proof.
  unfold branch_cycle_of.
  etransitivity; [apply filter_length_le|].
  apply NoDup_incl_length; [apply sorted_NoDup, unique_nodes_sorted|].
  intros v Hv. apply cyc_nodes_in_cycle, Hv.
Qed.

Lemma path_misses_cycle_row (path : list nat) :
  NoDup path ->
  exists r, In r cyc /\
    negb (length (filter (edge_eqb r) (map sort_edge (path2edge path))) =? 1) = true.
Proof.
  intro Hp.
  destruct (existsb (fun r => negb (length (filter (edge_eqb r)
              (map sort_edge (path2edge path))) =? 1)) cyc) eqn:E.
  - apply existsb_exists in E. exact E.
  - exfalso.
    assert (Hall : forall r, In r cyc -> In r (map sort_edge (path2edge path))).
    { intros r Hr.
      assert (Hv : negb (length (filter (edge_eqb r)
                    (map sort_edge (path2edge path))) =? 1) = false).
      { destruct (negb _) eqn:En; [|reflexivity].
        assert (existsb (fun r => negb (length (filter (edge_eqb r)
                  (map sort_edge (path2edge path))) =? 1)) cyc = true)
          by (apply existsb_exists; eauto).
        congruence. }
      rewrite negb_false_iff, Nat.eqb_eq in Hv.
      destruct (filter (edge_eqb r) (map sort_edge (path2edge path))) as [|x l] eqn:Ef;
        [discriminate|].
      assert (Hx : In x (filter (edge_eqb r) (map sort_edge (path2edge path))))
        by (rewrite Ef; now left).
      apply filter_In in Hx. destruct Hx as [Hx Hxe].
      apply edge_eqb_eq in Hxe. subst x. exact Hx. }
    apply (acyclic_no_simple_cycle (cycle_rows c) c);
      [|apply cycle_rows_simple_cycle; assumption].
    apply acyclic_sub with (es := path2edge path); [|apply acyclic_path, Hp].
    intros a b Hab. apply in_sorted_rows in Hab. rewrite <- Hf in Hab.
    apply in_sorted_rows. apply Hall. exact Hab.
Qed.

End LoopRows.

Lemma loop_case3_length (nodes : list point) (G es cyc : list edge) (B : list nat) :
  length (snd (loop_case3 nodes (G, es) cyc B))
  <= length (remove_row es cyc) + length B.
Proof.
  unfold loop_case3. cbn [snd]. rewrite length_app, length_map.
  pose proof (filter_length_le
                (fun b => negb (b =? intersect_node_of nodes B)) B).
  lia.
Qed.

(** C9, amended.  The cycle-elimination loop ends exactly when the cycle
    finder finds no cycle.  On a detected simple cycle of [k >= 3] vertices
    whose edges are rows of the array, a round never lengthens the edge
    array: with no branch vertex on the cycle it removes the [k] cycle rows;
    with one it removes them and adds one row; with two it removes at
    least one row and adds none; with three or more, [B], it removes them
    and adds at most [|B| <= k] rows.  So a round with at most two branch
    vertices strictly shortens the array.  (The number of edges lying on
    cycles can grow in a round with three or more branch vertices, and
    termination on every input is not established.) *)
Theorem loop_round_rows
  (cycle_finder : list edge -> nat -> list edge)
  (nodes : list point) (G es found : list edge) (c : list nat) (st' : loop_state)
  (Hc : NoDup c) (Hl : 3 <= length c)
  (Hf : map sort_edge found = map sort_edge (cycle_rows c))
  (Hin : forall e, In e found -> adj es (fst e) (snd e))
  (Hs : loop_step nodes (G, es) found = Returned st') :
  let B := branch_cycle_of es (map sort_edge found) in
  length B <= length c /\
  (length B = 0 -> length (snd st') + length c <= length es) /\
  (length B = 1 -> length (snd st') + length c <= length es + 1) /\
  (length B = 2 -> length (snd st') < length es) /\
  (3 <= length B -> length (snd st') + length c <= length es + length B) /\
  length (snd st') <= length es /\
  (length B <= 2 -> length (snd st') < length es) /\
  (forall fuel st0 st1,
     loop_removal cycle_finder fuel nodes st0 = Returned st1 ->
     cycle_finder (snd st1) (length nodes) = []).
Proof.
  intro B.
  pose proof (branch_cycle_length es found c Hc Hl Hf) as HB.
  pose proof (cyc_removed es found c Hc Hl Hf Hin) as Hrem.
  fold B in HB.
  assert (Hexit : forall fuel st0 st1,
            loop_removal cycle_finder fuel nodes st0 = Returned st1 ->
            cycle_finder (snd st1) (length nodes) = []).
  { induction fuel as [|fuel IH]; intros st0 st1 H; simpl in H; [discriminate|].
    destruct (cycle_finder (snd st0) (length nodes)) as [|e fs] eqn:E.
    - injection H as <-. exact E.
    - destruct (loop_step nodes st0 (e :: fs)) as [st2| |]; simpl in H;
        try discriminate.
      eapply IH. exact H. }
  assert (Hcases :
    (length B = 0 -> length (snd st') + length c <= length es) /\
    (length B = 1 -> length (snd st') + length c <= length es + 1) /\
    (length B = 2 -> length (snd st') < length es) /\
    (3 <= length B -> length (snd st') + length c <= length es + length B)).
  { unfold loop_step in Hs. simpl snd in Hs. fold B in Hs.
    destruct B as [|b0 [|b1 [|b2 B']]] eqn:EB.
    - injection Hs as <-. simpl. repeat split; intros; try discriminate; try lia.
    - injection Hs as <-. unfold loop_case1. cbn [snd]. rewrite length_app.
      simpl length. repeat split; intros; try discriminate; try lia.
    - unfold loop_case2 in Hs.
      destruct (shortest_path G b0 b1) as [path| |] eqn:Ep; simpl in Hs;
        try discriminate.
      injection Hs as <-. cbn [snd].
      split; [discriminate|]. split; [discriminate|]. split; [|simpl; lia].
      intros _.
      destruct (path_misses_cycle_row found c Hc Hl Hf path
                  (shortest_path_NoDup _ _ _ _ Ep)) as (r & Hr & Hv).
      apply remove_row_lt with (r := r).
      + apply filter_In. split; [exact Hr|exact Hv].
      + apply (cyc_rows_adj es found Hin r Hr).
    - assert (Est : st' = loop_case3 nodes (G, es) (map sort_edge found)
                                     (b0 :: b1 :: b2 :: B'))
        by (injection Hs as <-; reflexivity).
      pose proof (loop_case3_length nodes G es (map sort_edge found)
                    (b0 :: b1 :: b2 :: B')) as Hle.
      rewrite <- Est in Hle.
      split; [discriminate|]. split; [discriminate|]. split; [discriminate|].
      intros _. lia. }
  destruct Hcases as (H0 & H1 & H2 & H3).
  split; [exact HB|]. split; [exact H0|]. split; [exact H1|].
  split; [exact H2|]. split; [exact H3|]. split; [|split; [|exact Hexit]].
  - destruct (length B) as [|[|[|n]]] eqn:E.
    + specialize (H0 eq_refl). lia.
    + specialize (H1 eq_refl). lia.
    + specialize (H2 eq_refl). lia.
    + assert (H3' : 3 <= S (S (S n))) by lia. specialize (H3 H3'). lia.
  - intro Hle. destruct (length B) as [|[|[|n]]] eqn:E.
    + specialize (H0 eq_refl). lia.
    + specialize (H1 eq_refl). lia.
    + specialize (H2 eq_refl). lia.
    + lia.
Qed.

Lemma loop_round_rows_witness :
  length [(1, 3); (2, 4); (0, 5); (5, 6); (6, 7); (0, 7); (1, 7); (2, 7)]
  <= length (edges knot).
Proof.
  refine (proj1 (proj2 (proj2 (proj2 (proj2 (proj2
    (loop_round_rows find_cycle (vertices knot) (edges knot) (edges knot)
       (find_cycle (edges knot) 8) [0; 1; 2]
       ([(1, 3); (2, 4); (0, 5); (5, 6); (6, 7); (0, 7); (1, 7); (2, 7)],
        [(1, 3); (2, 4); (0, 5); (5, 6); (6, 7); (0, 7); (1, 7); (2, 7)])
       _ _ _ _ _))))))).
  - repeat (constructor; [simpl; intuition discriminate|]). constructor.
  - simpl. lia.
  - vm_compute. reflexivity.
  - intros e He. vm_compute in He.
    destruct He as [<-|[<-|[<-|[]]]]; reflexivity.
  - vm_compute. reflexivity.
Defined.

Lemma loop_removal_pinched (fuel : nat) :
  loop_removal find_cycle fuel (vertices pinched) (edges pinched, edges pinched)
  = OutOfFuel.
Proof.
  assert (H : forall n, loop_removal find_cycle n (vertices pinched)
                          ([(0, 3); (0, 0)], [(0, 3); (0, 0)]) = OutOfFuel).
  { induction n as [|n IH]; [reflexivity|].
    change (loop_removal find_cycle (S n) (vertices pinched)
              ([(0, 3); (0, 0)], [(0, 3); (0, 0)]))
      with (loop_removal find_cycle n (vertices pinched)
              ([(0, 3); (0, 0)], [(0, 3); (0, 0)])).
    exact IH. }
  destruct fuel as [|fuel]; [reflexivity|].
  change (loop_removal find_cycle (S fuel) (vertices pinched)
            (edges pinched, edges pinched))
    with (loop_removal find_cycle fuel (vertices pinched)
            ([(0, 3); (0, 0)], [(0, 3); (0, 0)])).
  apply H.
Qed.

(** ** Tick removal after a repeated row *)


(** ** The end-to-end scenarios *)

(** A path whose last segment is shorter than the tick threshold has no
    branch vertex: its supergraph is a single superedge and nothing is
    pruned. *)
Example trim_path_with_short_end :
  let s := mkSkeleton [pt 0 0 0; pt 100 0 0; pt 200 0 0; pt 200 50 0]
                      [(0, 1); (1, 2); (2, 3)] [1; 1; 1; 1]%Q 1 in
  trim_skeleton isqrtQ find_cycle 20 s 10 75 = Returned s.
Proof. vm_compute. reflexivity. Qed.

(** A ring without branch vertex loses all its edges. *)
Example trim_ring :
  trim_skeleton isqrtQ find_cycle 20 ring 10 75 = Returned (mkSkeleton [] [] [] 0).
Proof. vm_compute. reflexivity. Qed.

(** A lollipop keeps one edge from the branch vertex to the farthest ring
    vertex. *)
Example remove_loops_lollipop :
  remove_loops find_cycle 20
    (mkSkeleton [pt 0 0 0; pt 100 0 0; pt 200 0 0; pt 300 0 0; pt 300 200 0]
                [(0, 1); (1, 2); (2, 3); (3, 4); (4, 2)] [1; 1; 1; 1; 1]%Q 1)
  = Returned (mkSkeleton [pt 0 0 0; pt 100 0 0; pt 200 0 0; pt 300 200 0]
                         [(0, 1); (1, 2); (2, 3)] [1; 1; 1; 1]%Q 1).
Proof. vm_compute. reflexivity. Qed.

(** A detached segment of length 500 is dust at threshold 4000; the path of
    length 5000 stays. *)
Example remove_dust_drop :
  remove_dust isqrtQ
    (mkSkeleton [pt 0 0 0; pt 2500 0 0; pt 5000 0 0; pt 0 9000 0; pt 500 9000 0]
                [(0, 1); (1, 2); (3, 4)] [1; 1; 1; 1; 1]%Q 1) 4000
  = mkSkeleton [pt 0 0 0; pt 2500 0 0; pt 5000 0 0] [(0, 1); (1, 2)]
               [1; 1; 1]%Q 1.
Proof. vm_compute. reflexivity. Qed.

(** ** A second application of the pipeline *)

Lemma g_add_NoDup (G : list edge) (e : edge) :
  NoDup (map sort_edge G) -> NoDup (map sort_edge (g_add G e)).
Proof.
  intro Hn. unfold g_add. destruct (g_has G e) eqn:E; [exact Hn|].
  rewrite map_app. simpl.
  apply Permutation_NoDup with (l := sort_edge e :: map sort_edge G);
    [apply Permutation_cons_append|].
  constructor; [|exact Hn]. intro Hin. apply in_map_iff in Hin.
  destruct Hin as (f & Hf & Hin).
  assert (g_has G e = true) by (apply g_has_true; exists f; auto). congruence.
Qed.

Lemma g_add_edges_from_NoDup (es : list edge) :
  forall G, NoDup (map sort_edge G) ->
            NoDup (map sort_edge (g_add_edges_from G es)).
Proof.
  unfold g_add_edges_from.
  induction es as [|e es IH]; intros G Hn; simpl; [exact Hn|].
  apply IH, g_add_NoDup, Hn.
Qed.

Lemma find_cycle_from_acyclic (N : nat) (es : list edge) :
  forall seen,
    NoDup (map sort_edge (seen ++ es)) ->
    acyclic (seen ++ es) ->
    find_cycle_from (labels N seen) seen es = [].
Proof.
  induction es as [|e es IH]; intros seen Hn Ha; simpl; [reflexivity|].
  destruct (label_of (labels N seen) (fst e) =? label_of (labels N seen) (snd e))
    eqn:E.
  - exfalso. apply Nat.eqb_eq in E. apply same_label_conn in E.
    apply (Ha e); [apply in_or_app; right; now left|].
    eapply conn_mono; [|exact E].
    intros a b Hab. apply adj_remove. split; [apply adj_app; now left|].
    intro Es. apply in_sorted_rows in Hab. rewrite <- Es in Hab.
    rewrite map_app in Hn. simpl in Hn.
    apply NoDup_remove_2 in Hn. apply Hn. apply in_or_app. now left.
  - rewrite <- labels_snoc. apply IH; rewrite <- app_assoc; assumption.
Qed.

Lemma find_cycle_acyclic (es : list edge) (n : nat) :
  acyclic es -> find_cycle es n = [].
Proof.
  intro Ha. unfold find_cycle.
  apply (find_cycle_from_acyclic _ _ []); simpl.
  - apply g_add_edges_from_NoDup. constructor.
  - eapply acyclic_sub; [|exact Ha]. intros a b. apply adj_add_edges_from_nil.
Qed.

Lemma mapM_same {A : Type} (f : A -> outcome A) (l : list A) :
  (forall a, In a l -> f a = Returned a) -> mapM f l = Returned l.
Proof.
  induction l as [|a l IH]; intro H; simpl; [reflexivity|].
  rewrite (H a (or_introl eq_refl)). simpl.
  rewrite IH by (intros b Hb; apply H; now right). reflexivity.
Qed.

Lemma set_edges_same (s : Skeleton) : set_edges s (edges s) = s.
Proof. destruct s. reflexivity. Qed.

Lemma remove_dust_acyclic (fsqrt : Q -> Q) (s : Skeleton) (t : Q) :
  wf s -> acyclic (edges s) -> acyclic (edges (remove_dust fsqrt s t)).
Proof.
  intros Hw Ha. unfold remove_dust. destruct (empty s); [exact Ha|].
  fold (survivors fsqrt s t).
  apply acyclic_consolidate; [apply simple_merge_wf, survivors_wf, Hw|].
  apply acyclic_simple_merge; [apply survivors_wf, Hw|].
  apply Forall_forall. intros c Hc. apply survivors_In in Hc.
  eapply acyclic_components; [exact Hw|exact Ha|apply Hc].
Qed.

(** C7, amended.  In a second application of [trim_skeleton] with the same
    thresholds to its own result [r]: if [r] is empty (no vertex or no
    edge) the result is [r] again; in any case the loop-removal pass finds
    no cycle, every component being returned as it is.  Nothing more holds
    in general: tick removal and loop removal can bring a component down to
    the dust threshold or below, and the dust pass of the second
    application then removes it. *)
Theorem trim_second_application
  (fsqrt : Q -> Q) (cycle_finder : list edge -> nat -> list edge)
  (fuel : nat) (s r : Skeleton) (d t : Q)
  (Hcf : finder_ok cycle_finder)
  (Hsound : forall es n, acyclic es -> cycle_finder es n = [])
  (Hw : wf s)
  (Hr : trim_skeleton fsqrt cycle_finder fuel s d t = Returned r) :
  (empty r = true ->
     trim_skeleton fsqrt cycle_finder fuel r d t = Returned r) /\
  (forall c, In c (components (remove_dust fsqrt r d)) ->
     _remove_loops cycle_finder (S fuel) c = Returned c) /\
  (empty (remove_dust fsqrt r d) = false ->
     remove_loops cycle_finder (S fuel) (remove_dust fsqrt r d)
     = Returned (consolidate (simple_merge (components (remove_dust fsqrt r d))))).
Proof.
  assert (Hloops : forall s1 r1, wf s1 ->
             remove_loops cycle_finder fuel s1 = Returned r1 ->
             wf r1 /\ acyclic (edges r1)).
  { intros s1 r1 Hw1 H1. destruct (empty s1) eqn:E.
    - unfold remove_loops in H1. rewrite E in H1. injection H1 as <-.
      split; [exact Hw1|apply empty_acyclic; assumption].
    - eapply remove_loops_acyclic; eassumption. }
  assert (Hra : wf r /\ acyclic (edges r)).
  { unfold trim_skeleton in Hr.
    destruct (remove_loops cycle_finder fuel (remove_dust fsqrt s d)) as [s2| |] eqn:E2;
      simpl in Hr; try discriminate.
    destruct (connect_pieces fsqrt fuel s2) as [s3| |] eqn:E3; simpl in Hr;
      try discriminate.
    destruct (Hloops _ _ (remove_dust_wf fsqrt s d Hw) E2) as [Hw2 Ha2].
    destruct (connect_pieces_acyclic fsqrt fuel s2 s3 Hw2 Ha2 E3) as [Hw3 Ha3].
    apply (remove_ticks_acyclic fsqrt fuel s3 r t Hw3 Ha3 Hr). }
  destruct Hra as [Hwr Har].
  assert (Hcomp : forall c, In c (components (remove_dust fsqrt r d)) ->
            _remove_loops cycle_finder (S fuel) c = Returned c).
  { intros c Hc.
    assert (Hac : acyclic (edges c)).
    { eapply acyclic_components; [apply remove_dust_wf, Hwr| |exact Hc].
      apply remove_dust_acyclic; assumption. }
    unfold _remove_loops. simpl.
    rewrite (Hsound _ _ Hac). simpl. rewrite set_edges_same. reflexivity. }
  split; [apply trim_skeleton_empty|]. split; [exact Hcomp|].
  intro He. unfold remove_loops. rewrite He.
  rewrite (mapM_same _ _ Hcomp). reflexivity.
Qed.

Lemma trim_second_application_witness :
  remove_loops find_cycle 21 (remove_dust isqrtQ tripod_trimmed 10)
  = Returned (consolidate (simple_merge
                (components (remove_dust isqrtQ tripod_trimmed 10)))).
Proof.
  refine (proj2 (proj2
    (trim_second_application isqrtQ find_cycle 20 tripod tripod_trimmed 10 75
       find_cycle_ok find_cycle_acyclic _ _)) _).
  - split; [|reflexivity]. repeat constructor; simpl; lia.
  - vm_compute. reflexivity.
  - reflexivity.
Defined.

(* ================================================================== *)
(** ** Pairs of components *)

Lemma wrap16_small (x : nat) : (N.of_nat x < 65536)%N -> wrap16 x = x.
Proof.
  intro H. unfold wrap16. rewrite N.mod_small by exact H. apply Nat2N.id.
Qed.

Lemma triangle_sum (n k : nat) :
  k <= n -> 2 * list_sum (map (fun i => n - i - 1) (seq (n - k) k)) = k * (k - 1).
Proof.
  induction k as [|k IH]; intro Hk; [reflexivity|].
  simpl seq. replace (S (n - S k)) with (n - k) by lia.
  simpl map. simpl list_sum.
  specialize (IH ltac:(lia)). nia.
Qed.

Lemma combination_pairs_length (n : nat) :
  length (combination_pairs n) = n * (n - 1) / 2.
Proof.
  unfold combination_pairs. rewrite length_flat_map.
  rewrite (map_ext _ (fun i => n - i - 1))
    by (intro i; rewrite length_map, length_seq; reflexivity).
  pose proof (triangle_sum n n (le_n n)) as H. rewrite Nat.sub_diag in H.
  apply Nat.div_unique_exact; lia.
Qed.

Lemma flat_map_ext_on {A B : Type} (f g : A -> list B) (l : list A) :
  (forall a, In a l -> f a = g a) -> flat_map f l = flat_map g l.
Proof.
  induction l as [|a l IH]; intro H; simpl; [reflexivity|].
  rewrite (H a (or_introl eq_refl)), IH; [reflexivity|].
  intros b Hb. apply H. now right.
Qed.

Lemma combination_pairs_plain (n : nat) :
  (N.of_nat n <= 65536)%N ->
  combination_pairs n
  = flat_map (fun i => map (fun j => (i, i + j + 1)) (seq 0 (n - i - 1))) (seq 0 n).
Proof.
  intro Hn. unfold combination_pairs. apply flat_map_ext_on.
  intros i Hi. apply in_seq in Hi. apply map_ext_in. intros j Hj.
  apply in_seq in Hj. rewrite !wrap16_small by lia. reflexivity.
Qed.

Lemma StronglySorted_app {A : Type} (R : A -> A -> Prop) (l1 l2 : list A) :
  StronglySorted R l1 -> StronglySorted R l2 ->
  (forall x y, In x l1 -> In y l2 -> R x y) ->
  StronglySorted R (l1 ++ l2).
Proof.
  induction l1 as [|a l1 IH]; intros H1 H2 H; simpl; [exact H2|].
  inversion H1; subst. constructor.
  - apply IH; auto. intros x y Hx Hy. apply H; [now right|exact Hy].
  - apply Forall_app. split; [assumption|].
    apply Forall_forall. intros y Hy. apply H; [now left|exact Hy].
Qed.

Lemma row_sorted (i a k : nat) :
  StronglySorted pair_lt (map (fun j => (i, i + j + 1)) (seq a k)).
Proof.
  revert a. induction k as [|k IH]; intro a; simpl; constructor; [apply IH|].
  apply Forall_forall. intros p Hp. apply in_map_iff in Hp.
  destruct Hp as (j & <- & Hj). apply in_seq in Hj. right. simpl. lia.
Qed.

Lemma rows_sorted (n a k : nat) :
  StronglySorted pair_lt
    (flat_map (fun i => map (fun j => (i, i + j + 1)) (seq 0 (n - i - 1))) (seq a k)).
Proof.
  revert a. induction k as [|k IH]; intro a; simpl; [constructor|].
  apply StronglySorted_app; [apply row_sorted|apply IH|].
  intros x y Hx Hy. apply in_map_iff in Hx. destruct Hx as (j & <- & _).
  apply in_flat_map in Hy. destruct Hy as (i & Hi & Hy).
  apply in_map_iff in Hy. destruct Hy as (j' & <- & _).
  apply in_seq in Hi. left. simpl. lia.
Qed.

Lemma combination_pairs_In (n : nat) (i j : nat) :
  (N.of_nat n <= 65536)%N ->
  (In (i, j) (combination_pairs n) <-> i < j < n).
Proof.
  intro Hn. rewrite (combination_pairs_plain n Hn), in_flat_map. split.
  - intros (i' & Hi & Hp). apply in_map_iff in Hp. destruct Hp as (j' & E & Hj).
    apply in_seq in Hi. apply in_seq in Hj. injection E as -> <-. lia.
  - intros [Hij Hj]. exists i. split; [apply in_seq; lia|].
    apply in_map_iff. exists (j - i - 1). split; [f_equal; lia|apply in_seq; lia].
Qed.

(** [combination_pairs(n)], for at most 65536 components, lists exactly the
    pairs [(i, j)] with [i < j < n], in lexicographic order, each once:
    [n (n - 1) / 2] pairs in all. *)
Theorem combination_pairs_enumeration (n : nat) (Hn : (N.of_nat n <= 65536)%N) :
  (forall i j, In (i, j) (combination_pairs n) <-> i < j < n) /\
  StronglySorted pair_lt (combination_pairs n) /\
  length (combination_pairs n) = n * (n - 1) / 2.
Proof.
  split; [intros i j; apply combination_pairs_In, Hn|].
  split; [|apply combination_pairs_length].
  rewrite (combination_pairs_plain n Hn). apply rows_sorted.
Qed.

Lemma combination_pairs_enumeration_witness :
  In (1, 3) (combination_pairs 4) /\ length (combination_pairs 4) = 6.
Proof.
  assert (H : (N.of_nat 4 <= 65536)%N) by (vm_compute; discriminate).
  split.
  - apply (proj1 (combination_pairs_enumeration 4 H)). lia.
  - exact (proj2 (proj2 (combination_pairs_enumeration 4 H))).
Defined.

(** Beyond 65536 components the 16-bit storage wraps: every listed index is
    below 65536 and the pair [(0, 65536)] is listed as [(0, 0)], a component
    paired with itself. *)
Theorem combination_pairs_overflow (n : nat) (Hn : (65536 < N.of_nat n)%N) :
  In (0, 0) (combination_pairs n) /\
  forall i j, In (i, j) (combination_pairs n) -> (N.of_nat i < 65536 /\ N.of_nat j < 65536)%N.
Proof.
  split.
  - unfold combination_pairs. apply in_flat_map. exists 0. split; [apply in_seq; lia|].
    apply in_map_iff. exists (N.to_nat 65535). split.
    + unfold wrap16.
      replace (N.of_nat (0 + N.to_nat 65535 + 1)) with 65536%N by lia. reflexivity.
    + apply in_seq. lia.
  - intros i j H. unfold combination_pairs in H. apply in_flat_map in H.
    destruct H as (i' & _ & H). apply in_map_iff in H. destruct H as (j' & E & _).
    injection E as <- <-. unfold wrap16. rewrite !N2Nat.id.
    split; apply N.mod_lt; discriminate.
Qed.

Lemma combination_pairs_overflow_witness :
  In (0, 0) (combination_pairs (N.to_nat 65537)).
Proof.
  refine (proj1 (combination_pairs_overflow (N.to_nat 65537) _)).
  rewrite N2Nat.id. reflexivity.
Defined.
(* ================================================================== *)
(** ** Component masks *)

Lemma mask_nth (l : list nat) (i v : nat) :
  nth_error (map (fun x => x =? i) l) v = Some true
  <-> v < length l /\ label_of l v = i.
Proof.
  rewrite nth_error_map. unfold label_of. split.
  - destruct (nth_error l v) as [x|] eqn:E; simpl; [|discriminate].
    intro H. injection H as H. apply Nat.eqb_eq in H.
    split; [apply nth_error_Some; congruence|].
    rewrite (nth_error_nth _ _ _ E). exact H.
  - intros [Hv Hl]. destruct (nth_error l v) as [x|] eqn:E.
    + simpl. rewrite (nth_error_nth _ _ v E) in Hl. subst. now rewrite Nat.eqb_refl.
    + apply nth_error_None in E. lia.
Qed.

Lemma edge_labels_In (l : list nat) (es : list edge) (i : nat) :
  In i (edge_labels l es)
  <-> i < length l /\
      exists e, In e es /\ (label_of l (fst e) = i \/ label_of l (snd e) = i).
Proof.
  unfold edge_labels. rewrite filter_In, in_seq, existsb_exists. split.
  - intros [Hi (e & He & Ht)]. split; [lia|]. exists e. split; [exact He|].
    apply orb_true_iff in Ht. rewrite !Nat.eqb_eq in Ht. exact Ht.
  - intros [Hi (e & He & Ht)]. split; [lia|]. exists e. split; [exact He|].
    apply orb_true_iff. rewrite !Nat.eqb_eq. exact Ht.
Qed.

(** The masks of [find_connected] are the connected components that hold an
    edge: every mask covers all the vertices, a vertex lies in some mask
    exactly when a row mentions it, two vertices of a mask are joined by a
    path of edges and a mask holds every vertex joined to one of its own,
    and no vertex lies in two masks. *)
Theorem find_connected_components
  (nodes : list point) (es : list edge) (masks : list (list bool))
  (H : find_connected nodes es = Returned masks) :
  Forall (fun m => length m = length nodes) masks /\
  (forall v, used es v = true <-> exists m, In m masks /\ nth_error m v = Some true) /\
  (forall m u v, In m masks -> nth_error m u = Some true ->
     (nth_error m v = Some true <-> connected es u v)) /\
  (forall m m' v, In m masks -> In m' masks ->
     nth_error m v = Some true -> nth_error m' v = Some true -> m = m').
Proof.
  destruct (find_connected_inv _ _ _ H) as [Hr ->].
  set (n := length nodes) in *. set (L := labels n es).
  assert (HL : length L = n) by apply labels_length.
  assert (Hcan : forall v, label_of L v <= v) by (intro v; apply (canon_labels n es)).
  split; [|split; [|split]].
  - apply Forall_forall. intros m Hm. apply in_map_iff in Hm.
    destruct Hm as (i & <- & _). now rewrite length_map.
  - intro v. split.
    + intro Hu. pose proof (used_range n es v Hr Hu) as Hv.
      exists (map (fun x => x =? label_of L v) L). split.
      * apply in_map_iff. exists (label_of L v). split; [reflexivity|].
        apply edge_labels_In. split; [specialize (Hcan v); lia|].
        apply used_true in Hu. destruct Hu as (e & He & [E|E]); exists e; subst; auto.
      * apply mask_nth. split; [lia|reflexivity].
    + intros (m & Hm & Hv). exact (find_connected_mask _ _ _ _ _ H Hm Hv).
  - intros m u v Hm Hu. apply in_map_iff in Hm. destruct Hm as (i & <- & _).
    apply mask_nth in Hu. destruct Hu as [Hu Hi]. rewrite mask_nth. split.
    + intros [_ Hv]. apply (same_label_conn n). fold L. congruence.
    + intro Hc. pose proof (conn_same_label n es u v Hr Hc) as E. fold L in E.
      split; [|congruence].
      destruct (Nat.lt_ge_cases v (length L)) as [Hlt|Hge]; [exact Hlt|].
      rewrite (label_of_out L v Hge) in E. specialize (Hcan u). lia.
  - intros m m' v Hm Hm' Hv Hv'.
    apply in_map_iff in Hm. destruct Hm as (i & <- & _).
    apply in_map_iff in Hm'. destruct Hm' as (j & <- & _).
    apply mask_nth in Hv. apply mask_nth in Hv'.
    replace j with i by (destruct Hv, Hv'; congruence). reflexivity.
Qed.

Lemma find_connected_components_witness :
  exists m, In m [[true; true; true; false; false; false];
                  [false; false; false; true; true; true]]
            /\ nth_error m 4 = Some true.
Proof.
  apply (proj1 (proj2 (find_connected_components
           (vertices (two_paths 3)) (edges (two_paths 3)) _ eq_refl)) 4).
  reflexivity.
Defined.
(* ================================================================== *)
(** ** Row search and row deletion *)

Lemma where_from_sorted (mask : list bool) :
  forall k, StronglySorted lt (where_from k mask).
Proof.
  induction mask as [|b m IH]; intro k; simpl; [constructor|].
  destruct b; [|apply IH]. constructor; [apply IH|].
  apply Forall_forall. intros v Hv. apply where_from_In in Hv. lia.
Qed.

Lemma row_loc_two (array : list (list nat)) (row : list nat) (i : nat) :
  Forall (fun r => length r = 2) array -> length row = 2 ->
  (nth_error (row_loc 2 array row) i = Some true <-> nth_error array i = Some row).
Proof.
  intros Ha Hr. unfold row_loc. rewrite nth_error_map.
  destruct (nth_error array i) as [r|] eqn:E; simpl; [|split; discriminate].
  assert (Hl : length r = 2).
  { rewrite Forall_forall in Ha. apply Ha. eapply nth_error_In, E. }
  destruct r as [|a [|b [|? ?]]]; try discriminate.
  destruct row as [|c [|d [|? ?]]]; try discriminate.
  unfold column_eq. simpl. split.
  - intro H. injection H as H. apply andb_true_iff in H.
    rewrite !Nat.eqb_eq in H. destruct H; subst. reflexivity.
  - intro H. injection H as -> ->. now rewrite !Nat.eqb_refl.
Qed.

(** [find_row] on an array of two columns returns the positions of the rows
    equal to the searched row, in increasing order, and -1 exactly when no
    row of the array equals it. *)
Theorem find_row_two_columns
  (array : list (list nat)) (row : list nat)
  (Ha : Forall (fun r => length r = 2) array) (Hr : length row = 2) :
  (find_row 2 array row = Returned None <-> ~ In row array) /\
  (forall idx, find_row 2 array row = Returned (Some idx) ->
     idx <> [] /\ StronglySorted lt idx /\
     forall i, In i idx <-> nth_error array i = Some row).
Proof.
  unfold find_row. rewrite Hr. simpl negb. cbv iota.
  assert (Hw : forall i, In i (where_ (row_loc 2 array row))
                         <-> nth_error array i = Some row).
  { intro i. rewrite where_In. apply row_loc_two; assumption. }
  destruct (where_ (row_loc 2 array row)) as [|i0 rest] eqn:E.
  - split.
    + split; [|reflexivity]. intros _ Hin. apply In_nth_error in Hin.
      destruct Hin as (i & Hi). apply Hw in Hi. exact Hi.
    + intros idx Hx. discriminate.
  - split.
    + split; [discriminate|]. intro Hn. exfalso. apply Hn.
      eapply nth_error_In. apply Hw. now left.
    + intros idx Hx. injection Hx as <-. split; [discriminate|]. split.
      * rewrite <- E. apply where_from_sorted.
      * exact Hw.
Qed.

Lemma find_row_two_columns_witness :
  find_row 2 [[0; 1]; [1; 2]; [0; 1]] [0; 1] = Returned (Some [0; 2]) /\
  forall i, In i [0; 2] <-> nth_error [[0; 1]; [1; 2]; [0; 1]] i = Some [0; 1].
Proof.
  split; [reflexivity|].
  apply (proj2 (find_row_two_columns [[0; 1]; [1; 2]; [0; 1]] [0; 1]
                  ltac:(repeat constructor) eq_refl) [0; 2] eq_refl).
Defined.

Lemma where_false {A : Type} (array : list A) :
  forall k, where_from k (map (fun _ => false) array) = [].
Proof. induction array as [|a l IH]; intro k; simpl; [reflexivity|apply IH]. Qed.

(** [find_row] raises [ValueError] exactly when the size of the row differs
    from the number of columns, and on an array that has neither two nor
    three columns it answers -1 even for a row that the array holds. *)
Theorem find_row_other_widths
  (ndim : nat) (array : list (list nat)) (row : list nat) :
  (find_row ndim array row = Raised ValueError <-> length row <> ndim) /\
  (length row = ndim -> ndim <> 2 -> ndim <> 3 ->
   find_row ndim array row = Returned None).
Proof.
  unfold find_row. split.
  - destruct (ndim =? length row) eqn:E; simpl.
    + apply Nat.eqb_eq in E. split; [|lia].
      destruct (where_ (row_loc ndim array row)); discriminate.
    + apply Nat.eqb_neq in E. split; [lia|reflexivity].
  - intros Hl H2 H3. rewrite <- Hl, Nat.eqb_refl. simpl negb. cbv iota.
    replace (row_loc (length row) array row) with (map (fun _ : list nat => false) array).
    + unfold where_. now rewrite where_false.
    + unfold row_loc. rewrite Hl.
      destruct ndim as [|[|[|[|k]]]]; try reflexivity; lia.
Qed.

Lemma find_row_other_widths_witness :
  find_row 4 [[1; 2; 3; 4]] [1; 2; 3; 4] = Returned None.
Proof.
  apply (proj2 (find_row_other_widths 4 [[1; 2; 3; 4]] [1; 2; 3; 4]));
    [reflexivity|lia|lia].
Defined.

Lemma delete_from_spec {A : Type} (p : A -> bool) (d : A) (idx : list nat) :
  forall (array : list A) (k : nat),
    (forall j, j < length array ->
               (mem (k + j) idx = true <-> p (nth j array d) = true)) ->
    delete_from k idx array = filter (fun a => negb (p a)) array.
Proof.
  induction array as [|a l IH]; intros k H; simpl; [reflexivity|].
  assert (Hl : delete_from (S k) idx l = filter (fun a => negb (p a)) l).
  { apply IH. intros j Hj. specialize (H (S j) ltac:(simpl; lia)).
    simpl in H. now rewrite Nat.add_succ_r in H. }
  specialize (H 0 ltac:(simpl; lia)). rewrite Nat.add_0_r in H. simpl in H.
  destruct (mem k idx) eqn:Em, (p a) eqn:Ep; simpl; rewrite Hl; try reflexivity.
  - destruct H as [H _]. specialize (H eq_refl). discriminate.
  - destruct H as [_ H]. specialize (H eq_refl). discriminate.
Qed.

Lemma row_of_inj (e f : edge) : row_of e = row_of f -> e = f.
Proof. destruct e, f. unfold row_of. simpl. intro H. now injection H as -> ->. Qed.

Lemma rows_width (arr : list edge) :
  Forall (fun r => length r = 2) (map row_of arr).
Proof. apply Forall_forall. intros r Hr. apply in_map_iff in Hr. now destruct Hr as (e & <- & _). Qed.

Lemma row_loc_rows (arr : list edge) (r : edge) :
  row_loc 2 (map row_of arr) (row_of r) = map (fun f => edge_eqb f r) arr.
Proof. unfold row_loc. rewrite map_map. reflexivity. Qed.

Lemma delete_from_map {A B : Type} (g : A -> B) (idx : list nat) (l : list A) :
  forall k, delete_from k idx (map g l) = map g (delete_from k idx l).
Proof.
  induction l as [|a l IH]; intro k; simpl; [reflexivity|].
  destruct (mem k idx); simpl; now rewrite IH.
Qed.

Lemma delete_where {A : Type} (p : A -> bool) (l : list A) :
  delete_from 0 (where_ (map p l)) l = filter (fun a => negb (p a)) l.
Proof.
  destruct l as [|d l'] eqn:El; [reflexivity|]. rewrite <- El. clear El l'.
  apply (delete_from_spec p d). intros j Hj. change (0 + j) with j.
  rewrite mem_In, where_In, nth_error_map.
  rewrite (nth_error_nth' l d Hj). simpl. split; [now intros [= ->]|now intros ->].
Qed.

Lemma delete_from_nil {A : Type} (l : list A) :
  forall k, delete_from k [] l = l.
Proof. induction l as [|a l IH]; intro k; simpl; [reflexivity|now rewrite IH]. Qed.

Lemma where_in_range (mask : list bool) :
  forallb (fun i => i <? length mask) (where_ mask) = true.
Proof.
  apply forallb_forall. intros i Hi. apply where_In in Hi.
  apply Nat.ltb_lt. apply nth_error_Some. congruence.
Qed.

Lemma remove_row_step (arr : list edge) (r : edge) :
  (idx <- find_row 2 (map row_of arr) (row_of r) ;;
   match idx with
   | None => Returned (map row_of arr)
   | Some idx => np_delete (map row_of arr) idx
   end)
  = Returned (map row_of (filter (fun f => negb (edge_eqb f r)) arr)).
Proof.
  unfold find_row. simpl negb. cbv iota. rewrite row_loc_rows.
  pose proof (delete_where (fun f => edge_eqb f r) arr) as Hd.
  pose proof (where_in_range (map (fun f => edge_eqb f r) arr)) as Hr.
  destruct (where_ (map (fun f => edge_eqb f r) arr)) as [|i idx] eqn:E; simpl.
  - rewrite <- Hd, delete_from_nil. reflexivity.
  - unfold np_delete. rewrite !length_map in *. rewrite Hr.
    rewrite delete_from_map, Hd. reflexivity.
Qed.

Lemma remove_row_loop_rows (rows : list edge) :
  forall arr,
    remove_row_loop (map row_of arr) (map row_of rows)
    = Returned (map row_of
        (fold_left (fun a x => filter (fun f => negb (edge_eqb f x)) a) rows arr)).
Proof.
  induction rows as [|r rows IH]; intro arr; simpl; [reflexivity|].
  pose proof (remove_row_step arr r) as Hs.
  destruct (find_row 2 (map row_of arr) (row_of r)) as [[idx|]| |]; simpl in *;
    try discriminate.
  - rewrite Hs. simpl. apply IH.
  - injection Hs as Hs. rewrite Hs. apply IH.
Qed.

(** The row-by-row deletion of [remove_row], through [find_row] and
    [np.delete], never fails on edge arrays and yields the rows of
    [remove_row]: the sorted rows of the array, in their order, that are not
    among the sorted rows to remove. *)
Theorem remove_row_steps_filter (array rows2remove : list edge) :
  remove_row_steps array rows2remove
  = Returned (map row_of (remove_row array rows2remove)) /\
  remove_row array rows2remove
  = filter (fun f => negb (g_has rows2remove f)) (map sort_edge array).
Proof.
  split.
  - unfold remove_row_steps, remove_row.
    rewrite <- !(map_map sort_edge row_of). apply remove_row_loop_rows.
  - unfold remove_row. rewrite remove_rows_filter. apply filter_ext_in.
    intros f Hf. f_equal. unfold g_has.
    apply in_map_iff in Hf. destruct Hf as (e & <- & _).
    induction rows2remove as [|r rs IH]; simpl; [reflexivity|].
    rewrite IH. f_equal. unfold same_edge. rewrite sort_edge_idem.
    reflexivity.
Qed.
(* ================================================================== *)
(** ** Tick removal: what is never pruned *)

Lemma adj_neighbors (G : list edge) (u w : nat) :
  adj G u w -> In w (neighbors G u).
Proof.
  intro H. apply adj_iff in H. unfold neighbors. apply in_flat_map.
  destruct H as [H|H].
  - exists (u, w). split; [exact H|]. simpl. rewrite Nat.eqb_refl. now left.
  - exists (w, u). split; [exact H|]. simpl.
    destruct (w =? u) eqn:E; [apply Nat.eqb_eq in E; subst; now left|].
    rewrite Nat.eqb_refl. now left.
Qed.

Lemma dedup_In (l : list nat) :
  forall seen x, In x (dedup l seen) <-> In x l /\ ~ In x seen.
Proof.
  induction l as [|a l IH]; intros seen x; simpl; [tauto|].
  destruct (mem a seen) eqn:E.
  - apply mem_In in E. rewrite IH. split; [tauto|].
    intros [[->|H] Hn]; tauto.
  - assert (Hn : ~ In a seen) by (rewrite <- mem_In; congruence).
    simpl. rewrite IH. simpl. split.
    + intros [->|[H1 H2]]; [tauto|]. split; [tauto|]. tauto.
    + intros [[->|H1] H2]; [tauto|].
      destruct (Nat.eq_dec a x); [tauto|]. right. split; [exact H1|]. tauto.
Qed.

Lemma dedup_length (l : list nat) :
  forall seen, length (dedup l seen) <= length l.
Proof.
  induction l as [|a l IH]; intro seen; simpl; [lia|].
  destruct (mem a seen); simpl; [specialize (IH seen)|specialize (IH (a :: seen))]; lia.
Qed.

Lemma node_order_In (es : list edge) (v : nat) :
  In v (node_order es) <-> used es v = true.
Proof.
  unfold node_order. rewrite dedup_In, used_true, in_flat_map. split.
  - intros [(e & He & Hv) _]. exists e. split; [exact He|].
    simpl in Hv. destruct Hv as [Hv|[Hv|[]]]; auto.
  - intros (e & He & Hv). split; [|tauto]. exists e. split; [exact He|].
    simpl. tauto.
Qed.

Lemma g_edges_from_complete (G : list edge) (order : list nat) :
  forall seen a b,
    adj G a b -> In a order \/ In b order -> ~ In a seen -> ~ In b seen ->
    adj (g_edges_from G order seen) a b.
Proof.
  induction order as [|n order IH]; intros seen a b Hab Hin Ha Hb; simpl;
    [destruct Hin as [[]|[]]|].
  destruct (Nat.eq_dec n a) as [->|Hna].
  - apply adj_iff. left. apply in_or_app. left. apply in_map_iff. exists b.
    split; [reflexivity|]. apply filter_In. split; [apply adj_neighbors, Hab|].
    destruct (mem b seen) eqn:E; [apply mem_In in E; tauto|reflexivity].
  - destruct (Nat.eq_dec n b) as [->|Hnb].
    + apply adj_iff. right. apply in_or_app. left. apply in_map_iff. exists a.
      split; [reflexivity|]. apply filter_In.
      split; [apply adj_neighbors, adj_sym, Hab|].
      destruct (mem a seen) eqn:E; [apply mem_In in E; tauto|reflexivity].
    + assert (H : adj (g_edges_from G order (n :: seen)) a b).
      { apply IH; [exact Hab| | |]; simpl; try tauto.
        destruct Hin as [[?|?]|[?|?]]; tauto. }
      apply adj_iff in H. apply adj_iff.
      destruct H as [H|H]; [left|right]; apply in_or_app; right; exact H.
Qed.

Lemma graph_rows_adj (es : list edge) (u v : nat) :
  adj (graph_rows es) u v <-> adj es u v.
Proof.
  unfold graph_rows. split.
  - intro H. apply adj_add_edges_from_nil. apply adj_iff in H.
    destruct H as [H|H]; apply g_edges_from_adj in H; [exact H|apply adj_sym, H].
  - intro H. apply g_edges_from_complete; [apply adj_add_edges_from_nil, H| |tauto|tauto].
    left. apply node_order_In. apply (adj_used es u v H).
Qed.

Lemma filter_none {A : Type} (p : A -> bool) (l : list A) :
  (forall x, In x l -> p x = false) -> filter p l = [].
Proof.
  induction l as [|a l IH]; intro H; simpl; [reflexivity|].
  rewrite (H a (or_introl eq_refl)). apply IH. intros x Hx. apply H. now right.
Qed.

Lemma neighbors_length (es : list edge) (v : nat) :
  length (neighbors es v) <= degree es v.
Proof.
  unfold neighbors. induction es as [|e es IH]; simpl; [lia|].
  rewrite length_app.
  destruct (fst e =? v), (snd e =? v); simpl; lia.
Qed.

Section TicksKept.

Variable fsqrt : Q -> Q.

(** [_remove_ticks] needs a terminal vertex to start from: on a skeleton
    with an edge where no vertex has degree 1, a ring for one, it raises
    [IndexError], whatever the threshold. *)
Theorem remove_ticks_no_terminal
  (fuel : nat) (s : Skeleton) (t : Q)
  (He : empty s = false)
  (Hd : forall v, degree (edges s) v <> 1) :
  _create_distance_graph fsqrt fuel s = Raised IndexError /\
  _remove_ticks fsqrt fuel s t = Raised IndexError.
Proof.
  assert (H : _create_distance_graph fsqrt fuel s = Raised IndexError).
  { unfold _create_distance_graph, terminal_nodes_of.
    rewrite filter_none; [reflexivity|].
    intros v _. unfold is_terminal. apply Nat.eqb_neq, Hd. }
  split; [exact H|]. unfold _remove_ticks. rewrite He, H. reflexivity.
Qed.

Lemma tick_loop_stop (T : list nat) (thr : Q) (fuel : nat) (st st' : tick_state) :
  (forall st1, tick_round T thr st <> Returned (Pruned st1)) ->
  tick_loop fuel T thr st = Returned st' -> st' = st.
Proof.
  intros Hn H. destruct fuel as [|fuel]; simpl in H; [discriminate|].
  destruct (tick_round T thr st) as [r| |] eqn:E; simpl in H; try discriminate.
  destruct r as [| | |st1]; try (injection H as <-; reflexivity).
  exfalso. apply (Hn st1). reflexivity.
Qed.

Lemma remove_ticks_unpruned (fuel : nat) (s r : Skeleton) (t : Q) :
  empty s = false ->
  (forall dgraph st1,
     _create_distance_graph fsqrt fuel s = Returned dgraph ->
     tick_round (terminal_nodes_of (edges s)) t (tick_init s dgraph)
     <> Returned (Pruned st1)) ->
  _remove_ticks fsqrt fuel s t = Returned r ->
  r = consolidate (set_edges s (graph_rows (edges s))).
Proof.
  intros He Hn H. unfold _remove_ticks in H. rewrite He in H.
  destruct (_create_distance_graph fsqrt fuel s) as [dgraph| |] eqn:Ed;
    simpl in H; try discriminate.
  destruct (tick_loop fuel _ t (tick_init s dgraph)) as [st| |] eqn:El;
    simpl in H; try discriminate.
  apply tick_loop_stop in El; [|intro st1; apply Hn; reflexivity].
  subst st. injection H as <-. reflexivity.
Qed.

(** *** A threshold of zero *)

Hypothesis fsqrt_nonneg : forall q, (0 <= fsqrt q)%Q.

Lemma dict_set_Forall (P : edge * Q -> Prop) (k : edge) (w : Q) (d : dict) :
  (forall k', P (k', w)) -> Forall P d -> Forall P (dict_set k w d).
Proof.
  intros Hk Hd. induction d as [|[k' w'] d IH]; simpl.
  - constructor; [apply Hk|constructor].
  - inversion Hd; subst. destruct (edge_eqb k' k).
    + constructor; [apply Hk|assumption].
    + constructor; [assumption|apply IH; assumption].
Qed.

Lemma dfs_nonneg (fuel : nat) (s : Skeleton) :
  forall stack d d',
    Forall (fun fr => (0 <= f_dist fr)%Q) stack ->
    Forall (fun kw => (0 <= snd kw)%Q) d ->
    dfs fsqrt fuel s stack d = Returned d' ->
    Forall (fun kw => (0 <= snd kw)%Q) d'.
Proof.
  induction fuel as [|fuel IH]; intros stack d d' Hs Hd H.
  - destruct stack; simpl in H; [injection H as <-; exact Hd|discriminate].
  - destruct stack as [|fr rest]; simpl in H; [injection H as <-; exact Hd|].
    inversion Hs as [|? ? Hfr Hrest]; subst.
    eapply IH; [| |exact H].
    + apply Forall_app. split; [|exact Hrest].
      apply Forall_rev, Forall_forall. intros f Hf.
      apply in_map_iff in Hf. destruct Hf as (c & <- & _). simpl.
      pose proof (fsqrt_nonneg (sqdist (vertex s (f_node fr)) (vertex s c))) as Hq.
      unfold dist.
      destruct (is_critical (edges s) (f_node fr) && negb (f_node fr =? f_root fr)); lra.
    + destruct (is_critical (edges s) (f_node fr) && negb (f_node fr =? f_root fr));
        [|exact Hd].
      apply dict_set_Forall; [intro; exact Hfr|exact Hd].
Qed.

(** With a threshold of zero or less and a square root that is never
    negative, [_remove_ticks] prunes nothing: what it returns is the
    consolidated skeleton with its undirected edges listed once each, the
    same adjacency as the input. *)
Theorem remove_ticks_threshold_zero
  (fuel : nat) (s r : Skeleton) (t : Q)
  (Ht : (t <= 0)%Q)
  (He : empty s = false)
  (Hr : _remove_ticks fsqrt fuel s t = Returned r) :
  r = consolidate (set_edges s (graph_rows (edges s))) /\
  forall u v, adj (graph_rows (edges s)) u v <-> adj (edges s) u v.
Proof.
  split; [|apply graph_rows_adj].
  apply (remove_ticks_unpruned fuel s r t He); [|exact Hr].
  intros dgraph st1 Hd Hp.
  assert (Hpos : Forall (fun kw => (0 <= snd kw)%Q) dgraph).
  { unfold _create_distance_graph in Hd.
    destruct (terminal_nodes_of (edges s)) as [|t0 ?]; [discriminate|].
    eapply dfs_nonneg; [| |exact Hd]; repeat constructor. simpl. lra. }
  unfold tick_round in Hp. simpl t_dgraph in Hp.
  destruct (length dgraph <=? 1); [discriminate|].
  destruct (first_min snd (terminal_superedges (terminal_nodes_of (edges s)) dgraph))
    as [[k w]|] eqn:Em; [|discriminate].
  apply min_edge_in_dgraph in Em.
  rewrite Forall_forall in Hpos. specialize (Hpos _ Em). simpl in Hpos.
  destruct (_ && _)%bool; [discriminate|].
  replace (Qle_bool t w) with true in Hp; [discriminate|].
  symmetry. apply Qle_bool_iff. lra.
Qed.

End TicksKept.

Lemma isqrtQ_nonneg (q : Q) : (0 <= isqrtQ q)%Q.
Proof.
  unfold isqrtQ. change 0%Q with (inject_Z 0). rewrite <- Zle_Qle.
  apply Z.sqrt_nonneg.
Qed.

Lemma remove_ticks_no_terminal_witness :
  _remove_ticks isqrtQ 20 ring 75 = Raised IndexError.
Proof.
  refine (proj2 (remove_ticks_no_terminal isqrtQ 20 ring 75 eq_refl _)).
  intro v. do 4 (destruct v as [|v]; [simpl; lia|]). simpl. lia.
Defined.

Lemma remove_ticks_threshold_zero_witness :
  _remove_ticks isqrtQ 20 tripod 0 = Returned tripod /\
  tripod = consolidate (set_edges tripod (graph_rows (edges tripod))).
Proof.
  split; [reflexivity|].
  refine (proj1 (remove_ticks_threshold_zero isqrtQ isqrtQ_nonneg 20 tripod tripod 0
                   _ eq_refl eq_refl)).
  apply Qle_refl.
Defined.
(* ================================================================== *)
(** ** Tick removal on a skeleton without branch vertex *)

Section NoBranch.

Variable fsqrt : Q -> Q.
Variable s : Skeleton.
Hypothesis no_branch : forall v, degree (edges s) v <= 2.

Lemma pushed_frames (fr : frame) :
  frame_ok (edges s) fr ->
  let F := filter (fun child => negb (is_parent child (f_parent fr)))
                  (children_of (edges s) (f_node fr)) in
  length F <= 1 /\
  (is_critical (edges s) (f_node fr) && negb (f_node fr =? f_root fr) = true ->
   F = []) /\
  (forall c, In c F -> In (f_node fr) (neighbors (edges s) c)).
Proof.
  intros Hok F.
  assert (HC : length (children_of (edges s) (f_node fr)) <= degree (edges s) (f_node fr)).
  { unfold children_of. etransitivity; [apply dedup_length|apply neighbors_length]. }
  assert (HF : forall c, In c F -> In (f_node fr) (neighbors (edges s) c)).
  { intros c Hc. apply filter_In in Hc. destruct Hc as [Hc _].
    apply dedup_In in Hc. destruct Hc as [Hc _].
    apply adj_neighbors, adj_sym, neighbors_adj, Hc. }
  pose proof (no_branch (f_node fr)) as Hdeg.
  unfold frame_ok in Hok. subst F.
  destruct (f_parent fr) as [y|] eqn:Ep.
  - assert (Hlt : length (filter (fun child => negb (is_parent child (Some y)))
                                 (children_of (edges s) (f_node fr)))
                  < length (children_of (edges s) (f_node fr))).
    { apply (filter_length_lt _ _ y).
      - apply dedup_In. split; [exact Hok|tauto].
      - simpl. now rewrite Nat.eqb_refl. }
    split; [lia|]. split; [|exact HF].
    intro Hhit. apply andb_true_iff in Hhit. destruct Hhit as [Hc _].
    unfold is_critical, is_terminal, is_branch in Hc.
    apply orb_true_iff in Hc. destruct Hc as [Hc|Hc].
    + apply Nat.eqb_eq in Hc. apply length_zero_iff_nil. lia.
    + apply Nat.leb_le in Hc. lia.
  - destruct Hok as [Hd Hroot]. split.
    + etransitivity; [apply filter_length_le|]. lia.
    + split; [|exact HF]. rewrite Hroot, Nat.eqb_refl, andb_false_r. discriminate.
Qed.

Lemma dfs_single (fuel : nat) :
  forall stack d d',
    (stack = [] /\ length d <= 1)
    \/ (exists fr, stack = [fr] /\ d = [] /\ frame_ok (edges s) fr) ->
    dfs fsqrt fuel s stack d = Returned d' -> length d' <= 1.
Proof.
  induction fuel as [|fuel IH]; intros stack d d' Hinv H.
  - destruct Hinv as [[-> Hd]|(fr & -> & _)]; simpl in H;
      [injection H as <-; exact Hd|discriminate].
  - destruct Hinv as [[-> Hd]|(fr & -> & -> & Hok)]; simpl in H;
      [injection H as <-; exact Hd|].
    destruct (pushed_frames fr Hok) as (Hlen & Hhit & Hnb).
    set (F := filter (fun child => negb (is_parent child (f_parent fr)))
                     (children_of (edges s) (f_node fr))) in *.
    eapply IH; [|exact H]. rewrite app_nil_r.
    destruct F as [|c [|c' F']] eqn:EF; simpl in Hlen; [| |lia].
    + left. split; [reflexivity|].
      destruct (is_critical (edges s) (f_node fr) && negb (f_node fr =? f_root fr));
        simpl; lia.
    + right. eexists. split; [reflexivity|]. split.
      * destruct (is_critical (edges s) (f_node fr) && negb (f_node fr =? f_root fr));
          [discriminate (Hhit eq_refl)|reflexivity].
      * unfold frame_ok. simpl. apply Hnb. now left.
Qed.

(** A skeleton without branch vertex, a single path for one, is never
    pruned, whatever the threshold: its distance graph has at most one
    superedge, the pruning loop is not entered, and [_remove_ticks] returns
    the consolidated skeleton with its undirected edges listed once each,
    the same adjacency as the input. *)
Theorem remove_ticks_no_branch
  (fuel : nat) (r : Skeleton) (t : Q)
  (He : empty s = false)
  (Hr : _remove_ticks fsqrt fuel s t = Returned r) :
  (forall dgraph, _create_distance_graph fsqrt fuel s = Returned dgraph ->
                  length dgraph <= 1) /\
  r = consolidate (set_edges s (graph_rows (edges s))) /\
  forall u v, adj (graph_rows (edges s)) u v <-> adj (edges s) u v.
Proof.
  assert (Hd : forall dgraph, _create_distance_graph fsqrt fuel s = Returned dgraph ->
                              length dgraph <= 1).
  { intros dgraph Hd. unfold _create_distance_graph in Hd.
    destruct (terminal_nodes_of (edges s)) as [|t0 ts] eqn:Et; [discriminate|].
    eapply dfs_single; [|exact Hd]. right. eexists. split; [reflexivity|].
    split; [reflexivity|]. unfold frame_ok. simpl. split; [|reflexivity].
    assert (Hin : In t0 (terminal_nodes_of (edges s))) by (rewrite Et; now left).
    apply filter_In in Hin. apply Nat.eqb_eq, Hin. }
  split; [exact Hd|]. split; [|apply graph_rows_adj].
  apply (remove_ticks_unpruned fsqrt fuel s r t He); [|exact Hr].
  intros dgraph st1 Hg Hp. specialize (Hd dgraph Hg).
  unfold tick_round in Hp. simpl t_dgraph in Hp.
  apply Nat.leb_le in Hd. rewrite Hd in Hp. discriminate.
Qed.

End NoBranch.

Lemma remove_ticks_no_branch_witness :
  _remove_ticks isqrtQ 20 tripod_trimmed 1000 = Returned tripod_trimmed /\
  tripod_trimmed
  = consolidate (set_edges tripod_trimmed (graph_rows (edges tripod_trimmed))).
Proof.
  split; [reflexivity|].
  refine (proj1 (proj2 (remove_ticks_no_branch isqrtQ tripod_trimmed _ 20
                          tripod_trimmed 1000 eq_refl eq_refl))).
  intro v. do 3 (destruct v as [|v]; [simpl; lia|]). simpl. lia.
Defined.
(* ================================================================== *)
(** ** Tick removal only removes *)

Section TicksOnlyRemove.

Variable fsqrt : Q -> Q.

Lemma _remove_ticks_sub (fuel : nat) (c r : Skeleton) (t : Q) :
  wf c -> _remove_ticks fsqrt fuel c t = Returned r ->
  wf r /\
  forall sg, In sg (segments r) ->
             In sg (segments c) \/ In (flip sg) (segments c).
Proof.
  intros Hw H. unfold _remove_ticks in H.
  destruct (empty c); [injection H as <-; auto|].
  destruct (_create_distance_graph fsqrt fuel c) as [dgraph| |]; simpl in H;
    try discriminate.
  destruct (tick_loop fuel _ t (tick_init c dgraph)) as [st| |] eqn:El; simpl in H;
    try discriminate.
  injection H as <-.
  set (E := g_edges_from (t_G st) (node_order (edges c)) []).
  assert (Hsub : forall a b, In (a, b) E -> adj (edges c) a b).
  { intros a b Hab. apply g_edges_from_adj in Hab.
    apply (tick_loop_adj _ _ _ _ _ _ _ El) in Hab. simpl in Hab.
    exact (proj1 (adj_add_edges_from_nil _ _ _) Hab). }
  assert (Hw' : wf (set_edges c E)).
  { split; [|apply Hw]. simpl. apply Forall_forall. intros [a b] He.
    apply (adj_range _ (edges c)); [apply Hw|]. apply Hsub, He. }
  split; [apply consolidate_wf, Hw'|].
  intros sg Hsg. rewrite (consolidate_segments _ Hw') in Hsg.
  unfold segments in Hsg. simpl in Hsg. apply in_map_iff in Hsg.
  destruct Hsg as ([a b] & <- & He). apply Hsub, adj_iff in He.
  destruct He as [He|He]; [left|right];
    unfold segments; apply in_map_iff; eexists; (split; [|exact He]); reflexivity.
Qed.

(** Tick removal never adds an edge and never moves a vertex: every
    segment of the skeleton returned by [remove_ticks] is a segment of the
    input, read from one end or from the other. *)
Theorem remove_ticks_only_removes
  (fuel : nat) (s r : Skeleton) (t : Q)
  (Hw : wf s)
  (Hr : remove_ticks fsqrt fuel s t = Returned r) :
  wf r /\
  forall sg, In sg (segments r) ->
             In sg (segments s) \/ In (flip sg) (segments s).
Proof.
  unfold remove_ticks in Hr.
  destruct (empty s); [injection Hr as <-; auto|].
  destruct (mapM _ (components s)) as [skels| |] eqn:Em; simpl in Hr; try discriminate.
  injection Hr as <-. apply mapM_inv in Em.
  assert (H0 : Forall (fun c => wf c /\ In c (components s)) (components s)).
  { apply Forall_forall. intros c Hc. split; [|exact Hc].
    pose proof (components_wf s Hw) as Hcw. rewrite Forall_forall in Hcw. auto. }
  assert (H1 : Forall (fun x => wf x /\
                         forall sg, In sg (segments x) ->
                                    In sg (segments s) \/ In (flip sg) (segments s))
                      skels).
  { eapply Forall2_Forall; [|exact H0|exact Em].
    intros c x [Hwc Hc] Hcx. simpl in Hcx.
    destruct (_remove_ticks_sub _ _ _ _ Hwc Hcx) as [Hwx Hx].
    split; [exact Hwx|]. intros sg Hsg.
    destruct (Hx sg Hsg) as [H|H]; [left|right];
      eapply component_segments_incl; eassumption. }
  assert (Hwf : Forall wf skels)
    by (eapply Forall_impl; [|exact H1]; intros a Hx; apply Hx).
  split; [apply consolidate_wf, simple_merge_wf, Hwf|].
  intros sg Hsg.
  rewrite consolidate_segments in Hsg by (apply simple_merge_wf, Hwf).
  rewrite simple_merge_segments in Hsg by exact Hwf.
  apply in_flat_map in Hsg. destruct Hsg as (x & Hx & Hsg).
  rewrite Forall_forall in H1. exact (proj2 (H1 x Hx) sg Hsg).
Qed.

End TicksOnlyRemove.

Lemma remove_ticks_only_removes_witness :
  In (pt 0 0 0, 1%Q, (pt 0 40 0, 1%Q)) (segments tripod)
  \/ In (flip (pt 0 0 0, 1%Q, (pt 0 40 0, 1%Q))) (segments tripod).
Proof.
  refine (proj2 (remove_ticks_only_removes isqrtQ 20 tripod tripod_trimmed 75 _ _)
                (pt 0 0 0, 1%Q, (pt 0 40 0, 1%Q)) _).
  - split; [|reflexivity]. repeat constructor; simpl; lia.
  - vm_compute. reflexivity.
  - left. reflexivity.
Defined.
(* ================================================================== *)
(** ** Dust removal and its threshold *)

Section DustThreshold.

Variable fsqrt : Q -> Q.

Lemma remove_dust_segments (s : Skeleton) (t : Q) (sg : segment) :
  wf s -> empty s = false ->
  (In sg (segments (remove_dust fsqrt s t))
   <-> exists c, In c (components s) /\ (t < cable_length fsqrt c)%Q
                 /\ In sg (segments c)).
Proof.
  intros Hw He. unfold remove_dust. rewrite He. fold (survivors fsqrt s t).
  pose proof (survivors_wf fsqrt s t Hw) as Hsw.
  rewrite consolidate_segments by (apply simple_merge_wf, Hsw).
  rewrite simple_merge_segments by exact Hsw.
  rewrite in_flat_map. split.
  - intros (c & Hc & Hsg). apply survivors_In in Hc. exists c. tauto.
  - intros (c & Hc & Ht & Hsg). exists c. split; [|exact Hsg].
    apply survivors_In. auto.
Qed.

(** Dust removal is monotone in its threshold: what survives a threshold
    survives every smaller one, so every segment of the skeleton cleaned
    with the larger threshold is a segment of the skeleton cleaned with the
    smaller one. *)
Theorem remove_dust_monotone
  (s : Skeleton) (t1 t2 : Q) (Hw : wf s) (Ht : (t1 <= t2)%Q) :
  (forall c, In c (survivors fsqrt s t2) -> In c (survivors fsqrt s t1)) /\
  (forall sg, In sg (segments (remove_dust fsqrt s t2)) ->
              In sg (segments (remove_dust fsqrt s t1))).
Proof.
  split.
  - intros c Hc. apply survivors_In in Hc. apply survivors_In.
    split; [tauto|]. eapply Qle_lt_trans; [exact Ht|tauto].
  - intros sg Hsg. destruct (empty s) eqn:He.
    + unfold remove_dust in *. rewrite He in *. exact Hsg.
    + apply (remove_dust_segments s t2 sg Hw He) in Hsg.
      destruct Hsg as (c & Hc & Hlt & Hsg).
      apply (remove_dust_segments s t1 sg Hw He). exists c.
      split; [exact Hc|]. split; [|exact Hsg]. eapply Qle_lt_trans; eassumption.
Qed.

Hypothesis fsqrt_nonneg : forall q, (0 <= fsqrt q)%Q.

Lemma cable_length_nonneg (c : Skeleton) : (0 <= cable_length fsqrt c)%Q.
Proof.
  unfold cable_length. induction (edges c) as [|e es IH]; simpl; [lra|].
  pose proof (fsqrt_nonneg (sqdist (vertex c (fst e)) (vertex c (snd e)))) as H.
  fold (dist fsqrt (vertex c (fst e)) (vertex c (snd e))) in H. lra.
Qed.

(** With a negative threshold and a square root that is never negative
    dust removal drops no component: the cleaned skeleton has exactly the
    segments of the input, isolated vertices apart. *)
Theorem remove_dust_negative_threshold
  (s : Skeleton) (t : Q) (Hw : wf s) (Ht : (t < 0)%Q) :
  survivors fsqrt s t = components s /\
  forall sg, In sg (segments (remove_dust fsqrt s t)) <-> In sg (segments s).
Proof.
  assert (Hall : forall c, (t < cable_length fsqrt c)%Q).
  { intro c. eapply Qlt_le_trans; [exact Ht|apply cable_length_nonneg]. }
  split.
  - unfold survivors. induction (components s) as [|c l IH]; simpl; [reflexivity|].
    rewrite (proj2 (Qltb_lt t (cable_length fsqrt c)) (Hall c)), IH. reflexivity.
  - intro sg. destruct (empty s) eqn:He.
    + unfold remove_dust. rewrite He. tauto.
    + rewrite (remove_dust_segments s t sg Hw He). split.
      * intros (c & Hc & _ & Hsg). eapply component_segments_incl; eassumption.
      * intro Hsg. destruct (segment_in_component s sg Hw Hsg) as (c & Hc & Hin).
        exists c. auto.
Qed.

End DustThreshold.

Lemma remove_dust_monotone_witness :
  In (pt 0 0 0, 3%Q, (pt 10 0 0, 3%Q))
     (segments (remove_dust isqrtQ (two_paths 3) 5)).
Proof.
  refine (proj2 (remove_dust_monotone isqrtQ (two_paths 3) 5 10 _ _)
                (pt 0 0 0, 3%Q, (pt 10 0 0, 3%Q)) _).
  - split; [|reflexivity]. repeat constructor; simpl; lia.
  - unfold Qle. simpl. lia.
  - left. reflexivity.
Defined.

Lemma remove_dust_negative_threshold_witness :
  survivors isqrtQ (two_paths 3) (-1) = components (two_paths 3).
Proof.
  refine (proj1 (remove_dust_negative_threshold isqrtQ isqrtQ_nonneg
                   (two_paths 3) (-1) _ _)).
  - split; [|reflexivity]. repeat constructor; simpl; lia.
  - reflexivity.
Defined.
(* ================================================================== *)
(** ** Piece connection: what is kept and what is added *)

Section ConnectKeeps.

Variable fsqrt : Q -> Q.




Lemma same_length_one (l : list nat) :
  NoDup l -> (forall i j, In i l -> In j l -> i = j) -> length l <= 1.
Proof.
  intros Hn Heq. destruct l as [|a [|b l]]; simpl; try lia.
  exfalso. inversion Hn as [|? ? Hna _]; subst. apply Hna.
  rewrite (Heq a b); simpl; auto.
Qed.

(** On a skeleton whose edges form a single component [connect_pieces]
    adds nothing: with any fuel for one round of its loop it returns the
    consolidated input. *)
Theorem connect_pieces_connected
  (fuel : nat) (s : Skeleton)
  (Hw : wf s) (He : empty s = false)
  (Hc : forall u v, used (edges s) u = true -> used (edges s) v = true ->
                    connected (edges s) u v) :
  connect_pieces fsqrt (S fuel) s = Returned (consolidate s).
Proof.
  unfold connect_pieces. rewrite He. simpl connect_loop.
  destruct Hw as [Hrange Hrad].
  unfold find_connected. rewrite (proj2 (forallb_range _ _) Hrange). simpl bind.
  rewrite length_map.
  set (L := labels (length (vertices s)) (edges s)).
  assert (Hlen : length (edge_labels L (edges s)) <= 1).
  { apply same_length_one.
    - unfold edge_labels. apply NoDup_filter, seq_NoDup.
    - intros i j Hi Hj. apply edge_labels_In in Hi, Hj.
      destruct Hi as (_ & e & He1 & Hi), Hj as (_ & f & Hf1 & Hj).
      assert (Hu : forall g x, In g (edges s) -> (x = fst g \/ x = snd g) ->
                               used (edges s) x = true).
      { intros g x Hg Hx. apply used_true. exists g. split; [exact Hg|].
        destruct Hx; subst; auto. }
      assert (Hl : forall x y, used (edges s) x = true -> used (edges s) y = true ->
                               label_of L x = label_of L y).
      { intros x y Hx Hy. apply conn_same_label; [exact Hrange|]. apply Hc; assumption. }
      destruct Hi as [<-|<-], Hj as [<-|<-]; apply Hl;
        first [apply (Hu e); [exact He1|tauto]|apply (Hu f); [exact Hf1|tauto]]. }
  replace (combination_pairs (length (edge_labels L (edges s)))) with (@nil (nat * nat)).
  - simpl. destruct s; reflexivity.
  - destruct (length (edge_labels L (edges s))) as [|[|n]]; try reflexivity. lia.
Qed.

End ConnectKeeps.


Lemma connect_pieces_connected_witness :
  connect_pieces isqrtQ 1 tripod = Returned (consolidate tripod).
Proof.
  apply (connect_pieces_connected isqrtQ 0 tripod).
  - split; [|reflexivity]. repeat constructor; simpl; lia.
  - reflexivity.
  - intros u v Hu Hv.
    assert (H0 : forall x, used (edges tripod) x = true -> connected (edges tripod) 0 x).
    { intros x Hx. do 4 (destruct x as [|x]; [apply same_label_conn with (n := 4); reflexivity|]).
      discriminate. }
    eapply conn_trans; [apply conn_sym, H0, Hu|apply H0, Hv].
Defined.
(* ================================================================== *)
(** * The merge task *)

(** ** Segment identifiers in file names *)

Lemma span_digits_run (ds rest : filename) :
  Forall (fun c => is_digit c = true) ds ->
  match rest with [] => True | c :: _ => is_digit c = false end ->
  span_digits (ds ++ rest) = (ds, rest).
Proof.
  intros Hd Hr. induction Hd as [|c ds Hc _ IH]; simpl.
  - destruct rest as [|c rest]; [reflexivity|]. simpl. now rewrite Hr.
  - rewrite Hc, IH. reflexivity.
Qed.

Lemma colon_not_digit : is_digit colon = false.
Proof. reflexivity. Qed.

Lemma match_here_digits (ds rest : filename) :
  ds <> [] -> Forall (fun c => is_digit c = true) ds ->
  match_here (ds ++ colon :: rest) = Some (int_of_digits ds).
Proof.
  intros Hne Hd. unfold match_here.
  rewrite (span_digits_run ds (colon :: rest) Hd colon_not_digit).
  destruct ds as [|d ds]; [contradiction|]. now rewrite Ascii.eqb_refl.
Qed.

Lemma span_digits_app (s : filename) :
  s = fst (span_digits s) ++ snd (span_digits s) /\
  Forall (fun c => is_digit c = true) (fst (span_digits s)).
Proof.
  induction s as [|c s [IH1 IH2]]; simpl; [split; [reflexivity|constructor]|].
  destruct (is_digit c) eqn:E; [|split; [reflexivity|constructor]].
  destruct (span_digits s) as [ds rest]. simpl in *. split; [now f_equal|].
  constructor; assumption.
Qed.

Lemma span_digits_head (s : filename) :
  match snd (span_digits s) with
  | [] => True
  | c :: _ => is_digit c = false
  end.
Proof.
  induction s as [|c s IH]; simpl; [exact I|].
  destruct (is_digit c) eqn:E; [|simpl; exact E].
  destruct (span_digits s) as [ds rest]. exact IH.
Qed.

Lemma span_in_prefix (pre s : filename) :
  pre <> [] -> is_digit (last pre colon) = false ->
  exists x rest, snd (span_digits (pre ++ s)) = x :: rest /\ In x pre.
Proof.
  induction pre as [|c pre IH]; intros Hne Hl; [contradiction|].
  destruct pre as [|c2 pre].
  - simpl in *. rewrite Hl. exists c, s. simpl. auto.
  - change ((c :: c2 :: pre) ++ s) with (c :: (c2 :: pre) ++ s).
    cbn [span_digits]. destruct (is_digit c) eqn:E.
    + destruct IH as (x & rest & Hx & Hin); [discriminate|exact Hl|].
      destruct (span_digits ((c2 :: pre) ++ s)) as [ds r]. simpl in *.
      exists x, rest. auto.
    + exists c. eexists. simpl. split; [reflexivity|auto].
Qed.

(** No match starts inside a prefix that holds no colon and does not end
    with a digit. *)
Lemma search_skip (pre : filename) :
  forall s,
    Forall (fun c => c <> colon) pre ->
    is_digit (last pre colon) = false ->
    search (pre ++ s) = search s.
Proof.
  induction pre as [|c pre IH]; intros s Hc Hl; [reflexivity|].
  inversion Hc as [|? ? Hc0 Hc1]; subst.
  assert (Hnone : match_here ((c :: pre) ++ s) = None).
  { unfold match_here.
    destruct (span_in_prefix (c :: pre) s ltac:(discriminate) Hl)
      as (x & rest & Hx & Hin).
    destruct (span_digits ((c :: pre) ++ s)) as [ds r]. simpl in Hx. subst r.
    destruct ds as [|d ds]; [reflexivity|].
    destruct (Ascii.eqb x colon) eqn:E; [|reflexivity].
    apply Ascii.eqb_eq in E. rewrite Forall_forall in Hc.
    exfalso. exact (Hc x Hin E). }
  change (search ((c :: pre) ++ s))
    with (match match_here ((c :: pre) ++ s) with
          | Some segid => Some segid
          | None => search (pre ++ s)
          end).
  rewrite Hnone. apply IH; [exact Hc1|].
  destruct pre as [|c2 pre]; [reflexivity|exact Hl].
Qed.

Lemma digit_char_value (d : N) :
  (d < 10)%N -> is_digit (digit_char d) = true /\ digit_value (digit_char d) = d.
Proof.
  intro H. unfold is_digit, digit_value, digit_char.
  rewrite Ascii.N_ascii_embedding by lia.
  split; [|lia]. apply andb_true_iff. split; apply N.leb_le; lia.
Qed.

Lemma digits_from_spec (fuel : nat) :
  forall n acc,
    (n < 2 ^ N.of_nat (S fuel))%N ->
    exists ds,
      digits_from (S fuel) n acc = ds ++ acc /\ ds <> [] /\
      Forall (fun c => is_digit c = true) ds /\
      forall a, fold_left (fun acc c => (10 * acc + digit_value c)%N) ds a
                = (a * 10 ^ N.of_nat (length ds) + n)%N.
Proof.
  induction fuel as [|fuel IH]; intros n acc Hn.
  - assert (H10 : (n < 10)%N) by (change (2 ^ N.of_nat 1)%N with 2%N in Hn; lia).
    cbn [digits_from]. rewrite (proj2 (N.ltb_lt n 10) H10).
    rewrite (N.mod_small n 10 H10).
    destruct (digit_char_value n H10) as [Hd Hv].
    exists [digit_char n]. split; [reflexivity|]. split; [discriminate|].
    split; [repeat constructor; exact Hd|].
    intro a. cbn [fold_left length]. rewrite Hv.
    change (N.of_nat 1) with 1%N. rewrite N.pow_1_r. lia.
  - assert (Hm : (n mod 10 < 10)%N) by (apply N.mod_lt; discriminate).
    destruct (digit_char_value _ Hm) as [Hd Hv].
    change (digits_from (S (S fuel)) n acc)
      with (if (n <? 10)%N then digit_char (n mod 10) :: acc
            else digits_from (S fuel) (n / 10) (digit_char (n mod 10) :: acc)).
    destruct (n <? 10)%N eqn:E.
    + apply N.ltb_lt in E. rewrite (N.mod_small n 10 E) in *.
      exists [digit_char n]. split; [reflexivity|]. split; [discriminate|].
      split; [repeat constructor; exact Hd|].
      intro a. cbn [fold_left length]. rewrite Hv.
    change (N.of_nat 1) with 1%N. rewrite N.pow_1_r. lia.
    + assert (Hq : (n / 10 < 2 ^ N.of_nat (S fuel))%N).
      { apply N.Div0.div_lt_upper_bound.
        rewrite (Nat2N.inj_succ (S fuel)), N.pow_succ_r' in Hn. lia. }
      destruct (IH (n / 10)%N (digit_char (n mod 10) :: acc) Hq)
        as (ds & Hds & Hne & Hdig & Hval).
      exists (ds ++ [digit_char (n mod 10)]). rewrite <- app_assoc.
      split; [exact Hds|]. split; [now destruct ds|].
      split; [apply Forall_app; split; [exact Hdig|repeat constructor; exact Hd]|].
      intro a. rewrite fold_left_app, Hval. cbn [fold_left]. rewrite Hv.
      rewrite length_app. cbn [length]. rewrite Nat.add_1_r, Nat2N.inj_succ.
      rewrite N.pow_succ_r'.
      pose proof (N.div_mod n 10 ltac:(discriminate)) as Hdm. nia.
Qed.

Lemma str_spec (n : N) :
  str n <> [] /\ Forall (fun c => is_digit c = true) (str n) /\
  int_of_digits (str n) = n.
Proof.
  unfold str.
  assert (Hn : (n < 2 ^ N.of_nat (S (N.to_nat (N.log2 n))))%N).
  { rewrite Nat2N.inj_succ, N2Nat.id.
    destruct n as [|p]; [reflexivity|]. apply N.log2_spec. reflexivity. }
  destruct (digits_from_spec _ n [] Hn) as (ds & Hds & Hne & Hdig & Hval).
  rewrite Hds, app_nil_r. split; [exact Hne|]. split; [exact Hdig|].
  unfold int_of_digits. rewrite Hval. lia.
Qed.

Lemma search_here (s : filename) (n : N) :
  match_here s = Some n -> search s = Some n.
Proof.
  intro H. destruct s as [|c s]; [discriminate H|].
  change (search (c :: s))
    with (match match_here (c :: s) with
          | Some segid => Some segid
          | None => search s
          end).
  now rewrite H.
Qed.

(** A fragment stored by [SkeletonTask.upload] as [id:roi] is filed by
    [get_filenames_subset] under [id]: the search for [(\d+):] in the listed
    name gives the identifier back, whatever the name of the bounding box,
    provided the directory before the name holds no colon and does not end
    with a digit. *)
Theorem search_fragment_name
  (pre roi : filename) (id : N)
  (Hc : Forall (fun c => c <> colon) pre)
  (Hl : is_digit (last pre colon) = false) :
  search (pre ++ fragment_name id roi) = Some id /\
  get_filenames_subset [pre ++ fragment_name id roi]
  = [(id, [pre ++ fragment_name id roi])].
Proof.
  assert (H : search (pre ++ fragment_name id roi) = Some id).
  { rewrite (search_skip pre _ Hc Hl). unfold fragment_name.
    destruct (str_spec id) as (Hne & Hd & Hv).
    apply search_here. rewrite (match_here_digits _ _ Hne Hd). congruence. }
  split; [exact H|]. unfold get_filenames_subset. simpl. now rewrite H.
Qed.

Section FragmentNames.

Import Ascii String.

Lemma search_fragment_name_witness :
  search (list_ascii_of_string "skeletons/1234:0-64_0-64_0-32") = Some 1234%N.
Proof.
  refine (proj1 (search_fragment_name
                   (list_ascii_of_string "skeletons/")
                   (list_ascii_of_string "0-64_0-64_0-32") 1234 _ _)).
  - repeat constructor; discriminate.
  - reflexivity.
Defined.

End FragmentNames.

(** ** Grouping the listed files *)

Lemma group_of_append (k segid : N) (f : filename) (d : list (N * list filename)) :
  group_of k (dict_append segid f d)
  = if (segid =? k)%N then group_of k d ++ [f] else group_of k d.
Proof.
  induction d as [|[k' fs] d IH]; simpl.
  - destruct (segid =? k)%N; reflexivity.
  - destruct (k' =? segid)%N eqn:E1; simpl.
    + apply N.eqb_eq in E1. subst k'. destruct (segid =? k)%N; reflexivity.
    + rewrite IH. destruct (k' =? k)%N eqn:E2; [|reflexivity].
      apply N.eqb_eq in E2. subst k'. now rewrite N.eqb_sym, E1.
Qed.

Lemma keys_append (segid : N) (f : filename) (d : list (N * list filename)) :
  NoDup (map fst d) -> Forall (fun kv => snd kv <> []) d ->
  NoDup (map fst (dict_append segid f d)) /\
  Forall (fun kv => snd kv <> []) (dict_append segid f d) /\
  (forall k, In k (map fst (dict_append segid f d)) <-> k = segid \/ In k (map fst d)).
Proof.
  induction d as [|[k' fs] d IH]; intros Hn Hf; simpl.
  - split; [repeat constructor; auto|]. split; [repeat constructor; discriminate|].
    intro k. simpl. intuition (subst; auto).
  - inversion Hn as [|? ? Hk Hn']; subst. inversion Hf as [|? ? Hfs Hf']; subst.
    destruct (k' =? segid)%N eqn:E; simpl.
    + apply N.eqb_eq in E. subst k'.
      split; [constructor; assumption|].
      split; [constructor; [simpl; now destruct fs|assumption]|].
      intro k. simpl. intuition (subst; auto).
    + apply N.eqb_neq in E. destruct (IH Hn' Hf') as (H1 & H2 & H3).
      split; [constructor; [|exact H1]|].
      * rewrite H3. intros [->|H]; [congruence|contradiction].
      * split; [constructor; assumption|].
        intro k. simpl. rewrite H3. intuition (subst; auto).
Qed.

Lemma group_of_In (k : N) (fs : list filename) (d : list (N * list filename)) :
  NoDup (map fst d) -> In (k, fs) d -> group_of k d = fs.
Proof.
  induction d as [|[k' fs'] d IH]; intros Hn Hin; simpl; [destruct Hin|].
  inversion Hn as [|? ? Hk Hn']; subst. destruct Hin as [E|Hin].
  - injection E as -> ->. now rewrite N.eqb_refl.
  - destruct (k' =? k)%N eqn:E; [|apply IH; assumption].
    apply N.eqb_eq in E. subst k'. exfalso. apply Hk.
    apply in_map_iff. exists (k, fs). auto.
Qed.

Lemma In_group_of (k : N) (d : list (N * list filename)) :
  group_of k d <> [] -> In (k, group_of k d) d.
Proof.
  induction d as [|[k' fs'] d IH]; simpl; [congruence|].
  destruct (k' =? k)%N eqn:E; [apply N.eqb_eq in E; subst; auto|].
  intro H. right. apply IH, H.
Qed.

Lemma grouping_fold (listing : list filename) :
  forall d,
    NoDup (map fst d) -> Forall (fun kv => snd kv <> []) d ->
    let r := fold_left (fun skeletons f =>
                          match search f with
                          | Some segid => dict_append segid f skeletons
                          | None => skeletons
                          end) listing d in
    NoDup (map fst r) /\ Forall (fun kv => snd kv <> []) r /\
    forall k, group_of k r = group_of k d ++ filter (has_segid k) listing.
Proof.
  induction listing as [|f l IH]; intros d Hn Hf; simpl.
  - split; [exact Hn|]. split; [exact Hf|]. intro k. now rewrite app_nil_r.
  - destruct (search f) as [segid|] eqn:E.
    + destruct (keys_append segid f d Hn Hf) as (H1 & H2 & _).
      destruct (IH _ H1 H2) as (H3 & H4 & H5).
      split; [exact H3|]. split; [exact H4|].
      intro k. rewrite H5, group_of_append.
      replace (has_segid k f) with (segid =? k)%N
        by (unfold has_segid; now rewrite E).
      destruct (segid =? k)%N; [now rewrite <- app_assoc|reflexivity].
    + destruct (IH _ Hn Hf) as (H3 & H4 & H5).
      split; [exact H3|]. split; [exact H4|].
      intro k. rewrite H5.
      replace (has_segid k f) with false by (unfold has_segid; now rewrite E).
      reflexivity.
Qed.

(** [get_filenames_subset] files every listed name that holds a match of
    [(\d+):] under the identifier of its leftmost match, and drops the
    others: each identifier is a key once, and its group is made of the
    listed names with that identifier, all of them, in the order of the
    listing. *)
Theorem get_filenames_subset_groups (listing : list filename) :
  NoDup (map fst (get_filenames_subset listing)) /\
  (forall segid fs,
     In (segid, fs) (get_filenames_subset listing)
     <-> fs <> [] /\ fs = filter (has_segid segid) listing) /\
  (forall f, In f listing ->
     match search f with
     | Some segid => exists fs, In (segid, fs) (get_filenames_subset listing) /\ In f fs
     | None => forall segid fs, In (segid, fs) (get_filenames_subset listing) -> ~ In f fs
     end).
Proof.
  destruct (grouping_fold listing [] ltac:(constructor) ltac:(constructor))
    as (Hn & Hf & Hg).
  fold (get_filenames_subset listing) in Hn, Hf, Hg. simpl in Hg.
  assert (Hiff : forall segid fs,
     In (segid, fs) (get_filenames_subset listing)
     <-> fs <> [] /\ fs = filter (has_segid segid) listing).
  { intros segid fs. split.
    - intro Hin. split.
      + rewrite Forall_forall in Hf. exact (Hf _ Hin).
      + rewrite <- Hg. symmetry. apply group_of_In; assumption.
    - intros [Hne ->]. rewrite <- Hg in *. apply In_group_of, Hne. }
  split; [exact Hn|]. split; [exact Hiff|].
  intros f Hin. destruct (search f) as [segid|] eqn:E.
  - exists (filter (has_segid segid) listing).
    assert (Hf' : In f (filter (has_segid segid) listing)).
    { apply filter_In. split; [exact Hin|]. unfold has_segid.
      rewrite E. apply N.eqb_refl. }
    split; [|exact Hf']. apply Hiff. split; [|reflexivity].
    intro H0. rewrite H0 in Hf'. destruct Hf'.
  - intros segid fs H Hfs. apply Hiff in H. destruct H as [_ ->].
    apply filter_In in Hfs. unfold has_segid in Hfs. rewrite E in Hfs.
    destruct Hfs. discriminate.
Qed.

(** ** Pairs of overlapping fragments *)

Section PairingFacts.

Variable bbox : Type.
Variable from_filename : filename -> bbox.
Variable intersects : bbox -> bbox -> bool.

(** [find_paired_skeletons] reports the pair of two listed names exactly
    when the first is listed before the second and their bounding boxes
    intersect; when no name is listed twice, no name is paired with
    itself. *)
Theorem find_paired_skeletons_pairs (filenames : list filename) :
  (forall f g,
     In (f, g) (find_paired_skeletons from_filename intersects filenames)
     <-> exists i j, i < j /\ nth_error filenames i = Some f /\
                     nth_error filenames j = Some g /\
                     intersects (from_filename f) (from_filename g) = true) /\
  (NoDup filenames ->
   forall f g,
     In (f, g) (find_paired_skeletons from_filename intersects filenames) ->
     f <> g).
Proof.
  assert (Hiff : forall f g,
     In (f, g) (find_paired_skeletons from_filename intersects filenames)
     <-> exists i j, i < j /\ nth_error filenames i = Some f /\
                     nth_error filenames j = Some g /\
                     intersects (from_filename f) (from_filename g) = true).
  { intros f g. unfold find_paired_skeletons. rewrite in_flat_map. split.
    - intros (i & Hi & H). apply in_flat_map in H. destruct H as (j & Hj & H).
      apply in_seq in Hi, Hj. cbv zeta in H.
      destruct (intersects _ _) eqn:E; [|destruct H].
      destruct H as [H|[]]. injection H as <- <-.
      exists i, j. split; [lia|].
      split; [apply nth_error_nth'; lia|]. split; [apply nth_error_nth'; lia|exact E].
    - intros (i & j & Hij & Hf & Hg & E).
      assert (Hj : j < length filenames) by (apply nth_error_Some; congruence).
      exists i. split; [apply in_seq; lia|]. apply in_flat_map.
      exists j. split; [apply in_seq; lia|]. cbv zeta.
      rewrite (nth_error_nth _ _ _ Hf), (nth_error_nth _ _ _ Hg), E. now left. }
  split; [exact Hiff|].
  intros Hn f g H Heq. apply Hiff in H. destruct H as (i & j & Hij & Hf & Hg & _).
  subst g. rewrite NoDup_nth_error in Hn.
  assert (i = j); [|lia].
  apply Hn; [apply nth_error_Some|]; congruence.
Qed.

End PairingFacts.

(** ** Fusing the fragments *)

Lemma wrap32_small (x : nat) : (N.of_nat x < 4294967296)%N -> wrap32 x = x.
Proof.
  intro H. unfold wrap32. rewrite N.mod_small by exact H. apply Nat2N.id.
Qed.

Lemma offset_edge_shift (offset n : nat) (e : edge) :
  edge_in_range n e -> (N.of_nat (offset + n) <= 4294967296)%N ->
  offset_edge offset e = shift_edge offset e.
Proof.
  intros [H1 H2] Hn. unfold offset_edge, shift_edge.
  rewrite (wrap32_small (fst e)), (wrap32_small (snd e)) by lia.
  rewrite !wrap32_small by lia. f_equal; lia.
Qed.

Lemma fusing_loop_merge (rest : list Skeleton) :
  forall fusing offset,
    Forall wf rest ->
    (N.of_nat (offset + total_vertices (with_edges rest)) <= 4294967296)%N ->
    fusing_loop fusing offset rest
    = let '(vs, es, rs) := merge_from offset (with_edges rest) in
      mkSkeleton (vertices fusing ++ vs) (edges fusing ++ es)
                 (radii fusing ++ rs) (id fusing).
Proof.
  induction rest as [|skel rest IH]; intros fusing offset Hw Hn; simpl.
  - rewrite !app_nil_r. now destruct fusing.
  - inversion Hw as [|? ? Hws Hwr]; subst. unfold with_edges in *. simpl in *.
    destruct (length (edges skel) =? 0) eqn:E; simpl in *.
    + apply IH; assumption.
    + unfold total_vertices in Hn. simpl in Hn. fold (total_vertices (with_edges rest)) in Hn.
      unfold with_edges in Hn.
      rewrite IH; [|exact Hwr|unfold total_vertices; lia]. simpl.
      destruct (merge_from (offset + length (vertices skel))
                  (filter (fun skel0 => negb (length (edges skel0) =? 0)) rest))
        as [[vs es] rs].
      rewrite <- !app_assoc. f_equal. f_equal. f_equal.
      apply map_ext_in. intros e He.
      apply (offset_edge_shift offset (length (vertices skel))).
      * destruct Hws as [Hr _]. rewrite Forall_forall in Hr. apply Hr, He.
      * unfold total_vertices in *. lia.
Qed.

(** The loop of [fuse_skeletons] starts its edge offset at 0, not at the
    number of vertices of the first fragment.  With well-formed fragments and
    fewer than 2^32 vertices, the fused arrays are those of the first
    fragment followed by the simple merge of the later fragments that have
    an edge: the edges of the later fragments are numbered as if the first
    fragment had no vertex, so an edge of the second fragment whose ends
    are below the vertex count of the first joins two vertices of the
    first. *)
Theorem fusing_loop_offsets
  (fusing : Skeleton) (rest : list Skeleton)
  (Hw : Forall wf rest)
  (Hn : (N.of_nat (total_vertices (with_edges rest)) <= 4294967296)%N) :
  vertices (fusing_loop fusing 0 rest)
  = vertices fusing ++ vertices (simple_merge (with_edges rest)) /\
  edges (fusing_loop fusing 0 rest)
  = edges fusing ++ edges (simple_merge (with_edges rest)) /\
  radii (fusing_loop fusing 0 rest)
  = radii fusing ++ radii (simple_merge (with_edges rest)) /\
  (forall skel rest' e,
     rest = skel :: rest' -> In e (edges skel) ->
     In e (edges (fusing_loop fusing 0 rest)) /\
     (fst e < length (vertices fusing) ->
      nth (fst e) (vertices (fusing_loop fusing 0 rest)) origin
      = nth (fst e) (vertices fusing) origin)).
Proof.
  rewrite (fusing_loop_merge rest fusing 0 Hw Hn). unfold simple_merge.
  destruct (merge_from 0 (with_edges rest)) as [[vs es] rs] eqn:Em. simpl.
  split; [reflexivity|]. split; [reflexivity|]. split; [reflexivity|].
  intros skel rest' e -> He. split.
  - apply in_or_app. right. unfold with_edges in Em. simpl in Em.
    destruct (length (edges skel) =? 0) eqn:E.
    + apply Nat.eqb_eq in E. destruct (edges skel); [destruct He|discriminate].
    + simpl in Em.
      destruct (merge_from (length (vertices skel)) (filter _ rest')) as [[vs' es'] rs'].
      injection Em as <- <- <-. apply in_or_app. left.
      apply in_map_iff. exists e. split; [|exact He]. now destruct e.
  - intro Hlt. now rewrite app_nth1.
Qed.

Lemma fusing_loop_offsets_witness :
  edges (fusing_loop tripod 0 [tripod_trimmed])
  = edges tripod ++ edges (simple_merge (with_edges [tripod_trimmed])) /\
  edges (fusing_loop tripod 0 [tripod_trimmed])
  = [(0, 1); (0, 2); (0, 3); (0, 1); (0, 2)].
Proof.
  split; [|reflexivity].
  refine (proj1 (proj2 (fusing_loop_offsets tripod [tripod_trimmed] _ _))).
  - repeat constructor; simpl; lia.
  - vm_compute. discriminate.
Defined.

(* ================================================================== *)
(** * The command line *)

(** The process count kept by [main] lies between 1 and the number of
    cores; it is the requested count when that lies in this range, the
    number of cores when the request is 0 or larger than it, and 1 for a
    negative request.  [execute] then never fails and starts exactly that
    many runs of its helper. *)
Theorem main_parallel_range
  (cpu_count parallel : Z) (A : Type) (args : A)
  (Hcpu : (1 <= cpu_count)%Z) :
  (1 <= main cpu_count parallel <= cpu_count)%Z /\
  ((1 <= parallel <= cpu_count)%Z -> main cpu_count parallel = parallel) /\
  ((parallel = 0 \/ cpu_count < parallel)%Z -> main cpu_count parallel = cpu_count) /\
  ((parallel < 0)%Z -> main cpu_count parallel = 1%Z) /\
  execute (main cpu_count parallel) args
  = Returned (repeat args (Z.to_nat (main cpu_count parallel))).
Proof.
  unfold main.
  assert (H : (1 <= Z.max (Z.min (if (parallel =? 0)%Z then cpu_count else parallel)
                                 cpu_count) 1 <= cpu_count)%Z).
  { destruct (parallel =? 0)%Z; lia. }
  split; [exact H|]. split; [|split; [|split]].
  - intro Hp. destruct (parallel =? 0)%Z eqn:E; [apply Z.eqb_eq in E|]; lia.
  - intro Hp. destruct (parallel =? 0)%Z eqn:E; [|apply Z.eqb_neq in E]; lia.
  - intro Hp. destruct (parallel =? 0)%Z eqn:E; [apply Z.eqb_eq in E|]; lia.
  - set (p := Z.max _ 1) in *. unfold execute.
    destruct (p =? 1)%Z eqn:E1; [apply Z.eqb_eq in E1; rewrite E1; reflexivity|].
    destruct (p <? 1)%Z eqn:E2; [apply Z.ltb_lt in E2; lia|reflexivity].
Qed.

Lemma main_parallel_range_witness :
  main 8 0 = 8%Z /\ length (repeat tt (Z.to_nat (main 8 0))) = 8.
Proof.
  split.
  - apply (proj1 (proj2 (proj2 (main_parallel_range 8 0 unit tt ltac:(lia))))).
    now left.
  - reflexivity.
Defined.

(* ================================================================== *)
(** ** Loop removal: the graph and the edge array agree *)

Lemma adj_rows (X : list edge) (u v : nat) :
  adj X u v <-> exists f, In f X /\ sort_edge f = sort_edge (u, v).
Proof. apply g_has_true. Qed.

Lemma adj_remove_edges_from_iff (G rs : list edge) (u v : nat) :
  adj (g_remove_edges_from G rs) u v
  <-> adj G u v /\ forall r, In r rs -> sort_edge r <> sort_edge (u, v).
Proof.
  rewrite !adj_rows. split.
  - intros (f & Hf & E). apply g_remove_edges_from_In in Hf. destruct Hf as [Hf Hn].
    split; [exists f; auto|]. intros r Hr. rewrite <- E. apply Hn, Hr.
  - intros [(f & Hf & E) Hn]. exists f. split; [|exact E].
    apply g_remove_edges_from_In. split; [exact Hf|].
    intros r Hr. rewrite E. apply Hn, Hr.
Qed.

Lemma adj_remove_row_iff (es rs : list edge) (u v : nat) :
  adj (remove_row es rs) u v
  <-> adj es u v /\ forall r, In r rs -> sort_edge r <> sort_edge (u, v).
Proof.
  rewrite adj_rows. split.
  - intros (f & Hf & E). apply remove_row_In in Hf. destruct Hf as [Hf Hn].
    assert (Ef : f = sort_edge (u, v)).
    { apply in_map_iff in Hf. destruct Hf as (e & <- & _).
      now rewrite sort_edge_idem in E. }
    subst f. split; [apply in_sorted_rows, Hf|].
    intros r Hr E'. apply Hn. apply in_map_iff. exists r. auto.
  - intros [Ha Hn]. exists (sort_edge (u, v)).
    split; [|apply sort_edge_idem]. apply remove_row_In.
    split; [apply in_sorted_rows, Ha|].
    intro Hin. apply in_map_iff in Hin. destruct Hin as (r & E & Hr).
    exact (Hn r Hr E).
Qed.

Lemma adj_add_iff (G : list edge) (e : edge) (u v : nat) :
  adj (g_add G e) u v <-> adj G u v \/ sort_edge e = sort_edge (u, v).
Proof. apply g_add_has. Qed.

Lemma adj_list_iff (rs : list edge) (u v : nat) :
  adj rs u v <-> exists r, In r rs /\ sort_edge r = sort_edge (u, v).
Proof. apply adj_rows. Qed.

Lemma adj_add_edges_from_iff (G rs : list edge) (u v : nat) :
  adj (g_add_edges_from G rs) u v <-> adj G u v \/ adj rs u v.
Proof.
  unfold adj at 1. rewrite g_add_edges_from_has, <- adj_list_iff. reflexivity.
Qed.

Lemma loop_step_bookkeeping (nodes : list point) (st st' : loop_state)
      (found : list edge) :
  same_graph (fst st) (snd st) ->
  loop_step nodes st found = Returned st' ->
  same_graph (fst st') (snd st').
Proof.
  destruct st as [G es]. simpl. intros H0 H. unfold loop_step in H. simpl snd in H.
  set (cyc := map sort_edge found) in *.
  assert (Hrem : forall rs, same_graph (g_remove_edges_from G rs) (remove_row es rs)).
  { intros rs u v. rewrite adj_remove_edges_from_iff, adj_remove_row_iff, (H0 u v).
    reflexivity. }
  destruct (branch_cycle_of es cyc) as [|b0 [|b1 [|b2 B]]].
  - injection H as <-. apply Hrem.
  - injection H as <-. unfold loop_case1. cbn [fst snd]. intros u v.
    rewrite adj_add_iff, adj_app, (Hrem cyc u v).
    split; (intros [Ha|Ha]; [now left|right]).
    + apply adj_list_iff. eexists. split; [now left|exact Ha].
    + apply adj_list_iff in Ha. destruct Ha as (r & [<-|[]] & E). exact E.
  - unfold loop_case2 in H.
    destruct (shortest_path G b0 b1) as [p| |]; simpl in H; try discriminate.
    injection H as <-. apply Hrem.
  - injection H as <-. unfold loop_case3. cbn [fst snd]. intros u v.
    rewrite adj_add_edges_from_iff, adj_app, (Hrem cyc u v). reflexivity.
Qed.

Lemma loop_removal_same_graph
      (cycle_finder : list edge -> nat -> list edge) (nodes : list point)
      (fuel : nat) :
  forall st st',
    same_graph (fst st) (snd st) ->
    loop_removal cycle_finder fuel nodes st = Returned st' ->
    same_graph (fst st') (snd st').
Proof.
  induction fuel as [|fuel IH]; intros st st' Hs Hr; simpl in Hr; [discriminate|].
  destruct (cycle_finder (snd st) (length nodes)) as [|e found];
    [injection Hr as <-; exact Hs|].
  destruct (loop_step nodes st (e :: found)) as [st1| |] eqn:Es; simpl in Hr;
    try discriminate.
  apply (IH st1 st'); [|exact Hr]. eapply loop_step_bookkeeping; eassumption.
Qed.

(** The double bookkeeping of [_remove_loops] is consistent: the graph
    [G] built from the edge array holds the same undirected edges as the
    array, every round of the loop keeps it so, and so does the loop as a
    whole when it ends. *)
Theorem loop_removal_bookkeeping
  (cycle_finder : list edge -> nat -> list edge)
  (fuel : nat) (nodes : list point) (es : list edge) (st' : loop_state)
  (Hr : loop_removal cycle_finder fuel nodes (g_add_edges_from [] es, es)
        = Returned st') :
  same_graph (g_add_edges_from [] es) es /\
  (forall st st1 found,
     same_graph (fst st) (snd st) ->
     loop_step nodes st found = Returned st1 ->
     same_graph (fst st1) (snd st1)) /\
  same_graph (fst st') (snd st').
Proof.
  assert (H0 : same_graph (g_add_edges_from [] es) es)
    by (intros u v; apply adj_add_edges_from_nil).
  split; [exact H0|]. split; [intros st st1 found; apply loop_step_bookkeeping|].
  eapply loop_removal_same_graph; [|exact Hr]. exact H0.
Qed.

Lemma loop_removal_bookkeeping_witness :
  same_graph [(0, 1); (2, 4); (3, 5); (2, 0); (3, 0)]
             [(0, 1); (2, 4); (3, 5); (1, 0); (2, 0); (3, 0)].
Proof.
  refine (proj2 (proj2 (loop_removal_bookkeeping find_cycle 20 (vertices burr)
                          (edges burr) (_, _) _))).
  vm_compute. reflexivity.
Defined.

(* ================================================================== *)
(** ** Loop removal: the cases of zero, one and two branch vertices *)


Lemma adj_remove_cycle (es found : list edge) (u v : nat) :
  adj (remove_row es (map sort_edge found)) u v
  <-> adj es u v /\ ~ adj found u v.
Proof.
  rewrite adj_remove_row_iff, (adj_list_iff found). split.
  - intros [Ha Hn]. split; [exact Ha|]. intros (r & Hr & E).
    apply (Hn (sort_edge r)); [apply in_map, Hr|]. now rewrite sort_edge_idem.
  - intros [Ha Hn]. split; [exact Ha|]. intros r Hr E. apply Hn.
    apply in_map_iff in Hr. destruct Hr as (r0 & <- & Hr0).
    rewrite sort_edge_idem in E. exists r0. auto.
Qed.

(** No branch vertex on the detected cycle: the round deletes every edge of
    the cycle, from the array and from [G], and adds nothing; no edge of the
    cycle is left in the array. *)
Theorem remove_loops_no_branch
  (nodes : list point) (G es found : list edge)
  (HB : branch_cycle_of es (map sort_edge found) = []) :
  loop_step nodes (G, es) found
  = Returned (g_remove_edges_from G (map sort_edge found),
              remove_row es (map sort_edge found)) /\
  (forall u v, adj (remove_row es (map sort_edge found)) u v
               <-> adj es u v /\ ~ adj found u v) /\
  (forall e, In e found ->
     ~ adj (remove_row es (map sort_edge found)) (fst e) (snd e)).
Proof.
  pose proof (adj_remove_cycle es found) as Hadj.
  split; [|split; [exact Hadj|]].
  - unfold loop_step. simpl snd. rewrite HB. reflexivity.
  - intros e He Ha. apply Hadj in Ha. destruct Ha as [_ Hn]. apply Hn.
    apply adj_list_iff. exists e. split; [exact He|]. now destruct e.
Qed.

Lemma remove_loops_no_branch_witness :
  loop_step (vertices ring) (edges ring, edges ring) (find_cycle (edges ring) 4)
  = Returned ([], []).
Proof.
  refine (eq_trans (proj1 (remove_loops_no_branch (vertices ring) (edges ring)
            (edges ring) (find_cycle (edges ring) 4) _)) _).
  - vm_compute. reflexivity.
  - vm_compute. reflexivity.
Defined.



Lemma count_NoDup (r : edge) (L : list edge) :
  NoDup L ->
  length (filter (edge_eqb r) L) = if existsb (edge_eqb r) L then 1 else 0.
Proof.
  induction L as [|x L IH]; intro Hn; simpl; [reflexivity|].
  inversion Hn as [|? ? Hx Hn']; subst.
  destruct (edge_eqb r x) eqn:E; simpl; [|apply IH, Hn'].
  apply edge_eqb_eq in E. subst x. rewrite (IH Hn').
  destruct (existsb (edge_eqb r) L) eqn:Ex; [|reflexivity].
  exfalso. apply Hx. apply existsb_exists in Ex. destruct Ex as (y & Hy & Ey).
  apply edge_eqb_eq in Ey. now subst y.
Qed.

Lemma row_on_path (P : list edge) (x : edge) :
  existsb (edge_eqb (sort_edge x)) (map sort_edge P) = g_has P (sort_edge x).
Proof.
  unfold g_has. induction P as [|f P IH]; simpl; [reflexivity|].
  rewrite IH. f_equal. unfold same_edge. now rewrite sort_edge_idem.
Qed.

Lemma g_has_same (P : list edge) (r e : edge) :
  sort_edge r = sort_edge e -> g_has P r = g_has P e.
Proof.
  intro E. unfold g_has. induction P as [|f P IH]; simpl; [reflexivity|].
  rewrite IH. f_equal. unfold same_edge. now rewrite E.
Qed.

(** Two branch vertices on the detected cycle: the round takes a shortest
    path of [G] between them and deletes the edges of the cycle that are not
    on this path; the edges outside the cycle, and those of the cycle that
    the path uses, are kept, and nothing is added.  Without a path between
    the two vertices the failure of the search is the failure of the
    round. *)
Theorem remove_loops_two_branches
  (nodes : list point) (G es found : list edge) (b0 b1 : nat)
  (HB : branch_cycle_of es (map sort_edge found) = [b0; b1]) :
  (forall p, shortest_path G b0 b1 = Returned p ->
     let off_path := filter (fun r => negb (g_has (path2edge p) r))
                            (map sort_edge found) in
     loop_step nodes (G, es) found
     = Returned (g_remove_edges_from G off_path, remove_row es off_path) /\
     forall u v,
       adj (remove_row es off_path) u v
       <-> adj es u v /\ (adj found u v -> adj (path2edge p) u v)) /\
  (forall e, shortest_path G b0 b1 = Raised e ->
     loop_step nodes (G, es) found = Raised e).
Proof.
  split.
  - intros p Hp off_path.
    assert (Hstep : loop_step nodes (G, es) found
                    = Returned (g_remove_edges_from G off_path,
                                remove_row es off_path)).
    { unfold loop_step. simpl snd. rewrite HB. unfold loop_case2. rewrite Hp.
      simpl bind.
      replace (filter _ (map sort_edge found)) with off_path; [reflexivity|].
      unfold off_path. apply filter_ext_in. intros r Hr.
      apply in_map_iff in Hr. destruct Hr as (x & <- & _).
      rewrite count_NoDup
        by (apply path_rows_NoDup; eapply shortest_path_NoDup; exact Hp).
      rewrite row_on_path. now destruct (g_has (path2edge p) (sort_edge x)). }
    split; [exact Hstep|]. intros u v. rewrite adj_remove_row_iff. split.
    + intros [Ha Hn]. split; [exact Ha|]. intro Hf.
      destruct (g_has (path2edge p) (u, v)) eqn:E; [exact E|]. exfalso.
      apply (Hn (sort_edge (u, v))); [|apply sort_edge_idem].
      unfold off_path. apply filter_In. split; [apply in_sorted_rows, Hf|].
      apply negb_true_iff. rewrite <- E. apply g_has_same, sort_edge_idem.
    + intros [Ha Himp]. split; [exact Ha|]. intros r Hr E.
      unfold off_path in Hr. apply filter_In in Hr. destruct Hr as [Hr Hg].
      apply negb_true_iff in Hg.
      assert (Hf : adj found u v).
      { apply in_sorted_rows. apply in_map_iff in Hr.
        destruct Hr as (x & <- & Hx). rewrite sort_edge_idem in E.
        rewrite <- E. apply in_map, Hx. }
      specialize (Himp Hf). unfold adj in Himp.
      rewrite (g_has_same (path2edge p) r (u, v) E) in Hg. congruence.
  - intros e He. unfold loop_step. simpl snd. rewrite HB. unfold loop_case2.
    rewrite He. reflexivity.
Qed.

Lemma remove_loops_two_branches_witness :
  loop_step (vertices two_tails) (edges two_tails, edges two_tails)
            (find_cycle (edges two_tails) 6)
  = Returned ([(0, 1); (1, 2); (2, 3); (3, 5)], [(0, 1); (1, 2); (2, 3); (3, 5)]).
Proof.
  refine (eq_trans (proj1 (proj1 (remove_loops_two_branches (vertices two_tails)
            (edges two_tails) (edges two_tails) (find_cycle (edges two_tails) 6)
            1 3 _) [1; 2; 3] _)) _).
  - vm_compute. reflexivity.
  - vm_compute. reflexivity.
  - vm_compute. reflexivity.
Defined.

(* ================================================================== *)
(** ** The distance graph: what a superedge measures *)

Lemma chain_snoc (es : list edge) (p : list nat) (c : nat) :
  p <> [] -> chain es p -> adj es (last p 0) c -> chain es (p ++ [c]).
Proof.
  induction p as [|u p IH]; intros Hne Hc Ha; [contradiction|].
  destruct p as [|v p].
  - simpl in *. auto.
  - change ((u :: v :: p) ++ [c]) with (u :: (v :: p) ++ [c]).
    destruct Hc as [Huv Hc]. split; [exact Huv|].
    apply IH; [discriminate|exact Hc|exact Ha].
Qed.

Lemma path_length_snoc (fsqrt : Q -> Q) (V : list point) (p : list nat) (c : nat) :
  p <> [] ->
  (path_length fsqrt V (p ++ [c])
   == path_length fsqrt V p
      + dist fsqrt (nth (last p 0%nat) V origin) (nth c V origin))%Q.
Proof.
  induction p as [|u p IH]; intro Hne; [contradiction|].
  destruct p as [|v p].
  - simpl. lra.
  - change ((u :: v :: p) ++ [c]) with (u :: (v :: p) ++ [c]).
    change (path_length fsqrt V (u :: (v :: p) ++ [c]))
      with (dist fsqrt (nth u V origin) (nth v V origin)
            + path_length fsqrt V ((v :: p) ++ [c]))%Q.
    rewrite (IH ltac:(discriminate)).
    change (path_length fsqrt V (u :: v :: p))
      with (dist fsqrt (nth u V origin) (nth v V origin)
            + path_length fsqrt V (v :: p))%Q.
    change (last (u :: v :: p) 0) with (last (v :: p) 0). lra.
Qed.

Section Superedges.

Variable fsqrt : Q -> Q.
Variable s : Skeleton.

Lemma dict_set_superedge (k : edge) (w : Q) (d : dict) :
  superedge_ok fsqrt s (k, w) -> Forall (superedge_ok fsqrt s) d ->
  Forall (superedge_ok fsqrt s) (dict_set k w d).
Proof.
  intros Hk Hd. induction d as [|[k' w'] d IH]; simpl.
  - constructor; [exact Hk|constructor].
  - inversion Hd; subst. destruct (edge_eqb k' k) eqn:E.
    + apply edge_eqb_eq in E. subst k'. constructor; assumption.
    + constructor; [assumption|apply IH; assumption].
Qed.

Lemma pushed_route (fr : frame) (child : nat) :
  frame_route fsqrt s fr ->
  In child (children_of (edges s) (f_node fr)) ->
  let hit := is_critical (edges s) (f_node fr)
             && negb (f_node fr =? f_root fr) in
  frame_route fsqrt s
    (mkFrame child (Some (f_node fr))
       ((if hit then 0 else f_dist fr)
        + dist fsqrt (vertex s (f_node fr)) (vertex s child))%Q
       (if hit then f_node fr else f_root fr)).
Proof.
  intros (Hroot & p & (Hne & Hhd & Hlast & Hch & Hint) & Hd) Hc hit.
  assert (Ha : adj (edges s) (f_node fr) child).
  { apply neighbors_adj. apply dedup_In in Hc. apply Hc. }
  unfold frame_route. cbn [f_root f_node f_dist]. destruct hit eqn:Eh.
  - apply andb_true_iff in Eh. destruct Eh as [Hcrit _].
    split; [exact Hcrit|]. exists [f_node fr; child]. split.
    + split; [discriminate|]. split; [reflexivity|]. split; [reflexivity|].
      split; [simpl; auto|]. simpl. constructor; [now right|constructor].
    + unfold vertex. simpl. lra.
  - split; [exact Hroot|]. exists (p ++ [child]). split.
    + split; [now destruct p|]. split; [now destruct p|].
      split; [apply last_last|].
      split; [apply chain_snoc; [exact Hne|exact Hch|now rewrite Hlast]|].
      rewrite removelast_last.
      rewrite (app_removelast_last 0 Hne). apply Forall_app. split; [exact Hint|].
      constructor; [|constructor]. rewrite Hlast.
      apply andb_false_iff in Eh. destruct Eh as [Eh|Eh]; [now left|right].
      apply negb_false_iff, Nat.eqb_eq in Eh. exact Eh.
    + rewrite (path_length_snoc fsqrt (vertices s) p child Hne), Hlast.
      unfold vertex. rewrite Hd. reflexivity.
Qed.

Lemma dfs_superedges (fuel : nat) :
  forall stack d d',
    Forall (frame_route fsqrt s) stack ->
    Forall (superedge_ok fsqrt s) d ->
    dfs fsqrt fuel s stack d = Returned d' ->
    Forall (superedge_ok fsqrt s) d'.
Proof.
  induction fuel as [|fuel IH]; intros stack d d' Hs Hd H.
  - destruct stack; simpl in H; [injection H as <-; exact Hd|discriminate].
  - destruct stack as [|fr rest]; simpl in H; [injection H as <-; exact Hd|].
    inversion Hs as [|? ? Hfr Hrest]; subst.
    eapply IH; [| |exact H].
    + apply Forall_app. split; [|exact Hrest].
      apply Forall_rev, Forall_forall. intros f Hf.
      apply in_map_iff in Hf. destruct Hf as (c & <- & Hc).
      apply filter_In in Hc. apply pushed_route; [exact Hfr|apply Hc].
    + destruct (is_critical (edges s) (f_node fr) && negb (f_node fr =? f_root fr))
        eqn:Eh; [|exact Hd].
      apply dict_set_superedge; [|exact Hd].
      apply andb_true_iff in Eh. destruct Eh as [Hcrit Hne].
      apply negb_true_iff, Nat.eqb_neq in Hne.
      destruct Hfr as (Hroot & p & Hp & Hw).
      unfold superedge_ok. simpl. split; [exact Hroot|]. split; [exact Hcrit|].
      split; [congruence|]. exists p. auto.
Qed.

(** Every superedge of the distance graph joins two distinct critical
    vertices, terminal or branch, and its weight is the length of a route of
    the skeleton from the first to the second that passes through no other
    critical vertex. *)
Theorem create_distance_graph_superedges
  (fuel : nat) (dgraph : dict)
  (Hd : _create_distance_graph fsqrt fuel s = Returned dgraph) :
  Forall (superedge_ok fsqrt s) dgraph.
Proof.
  unfold _create_distance_graph in Hd.
  destruct (terminal_nodes_of (edges s)) as [|t0 ts] eqn:Et; [discriminate|].
  eapply dfs_superedges; [| |exact Hd]; [|constructor].
  constructor; [|constructor]. unfold frame_route. simpl.
  assert (Hin : In t0 (terminal_nodes_of (edges s))) by (rewrite Et; now left).
  apply filter_In in Hin. destruct Hin as [_ Ht].
  split; [unfold is_critical; now rewrite Ht|].
  exists [t0]. split; [|simpl; lra].
  split; [discriminate|]. split; [reflexivity|]. split; [reflexivity|].
  split; [exact I|constructor].
Qed.

End Superedges.

Lemma create_distance_graph_superedges_witness :
  Forall (superedge_ok isqrtQ comb)
         [((1, 2), 60%Q); ((2, 5), 30%Q); ((2, 3), 60%Q); ((3, 6), 70%Q);
          ((3, 4), 60%Q)].
Proof.
  apply (create_distance_graph_superedges isqrtQ comb 20). vm_compute. reflexivity.
Defined.

(* ================================================================== *)
(** ** Paths as edge rows *)

(** For a path of at least one vertex (the source fails on the empty
    path, whose array would have -1 rows) [path2edge] gives one row less
    than the path has vertices, the row [i] joining the vertices [i] and
    [i + 1] of the path in this order; a path of a single vertex gives no
    row. *)
Theorem path2edge_rows (path : list nat) (Hne : path <> []) :
  length (path2edge path) = length path - 1 /\
  (forall i, i < length path - 1 ->
     nth i (path2edge path) (0, 0) = (nth i path 0, nth (S i) path 0)) /\
  (length path = 1 -> path2edge path = []).
Proof.
  split; [apply path2edge_length|]. split.
  - clear Hne. induction path as [|u path IH]; intros i Hi; [simpl in Hi; lia|].
    destruct path as [|v path]; [simpl in Hi; lia|].
    change (path2edge (u :: v :: path)) with ((u, v) :: path2edge (v :: path)).
    destruct i as [|i]; [reflexivity|].
    change (nth (S i) ((u, v) :: path2edge (v :: path)) (0, 0))
      with (nth i (path2edge (v :: path)) (0, 0)).
    rewrite IH by (simpl in *; lia). reflexivity.
  - intro H1. destruct path as [|u [|v path]]; try discriminate. reflexivity.
Qed.

Lemma path2edge_rows_witness :
  length (path2edge [4; 7; 2]) = 2 /\ nth 1 (path2edge [4; 7; 2]) (0, 0) = (7, 2).
Proof.
  pose proof (path2edge_rows [4; 7; 2] ltac:(discriminate)) as [H1 [H2 _]].
  split; [exact H1|]. apply (H2 1). simpl. lia.
Defined.

(* ================================================================== *)
(** ** The pruning loop ends *)

Lemma dict_set_length (k : edge) (w : Q) (d : dict) :
  length (dict_set k w d) <= S (length d).
Proof.
  induction d as [|[k' w'] d IH]; simpl; [lia|].
  destruct (edge_eqb k' k); simpl; lia.
Qed.

Lemma fuse_edge_length (d : dict) (c : counts) (e : nat) (d' : dict) (c' : counts) :
  fuse_edge d c e = Returned (d', c') -> length d' <= length d.
Proof.
  unfold fuse_edge.
  destruct (mem e (unique_nodes (map fst (filter (fun kw => touches e (fst kw)) d))))
    eqn:Em; [|discriminate].
  destruct (filter (fun v => negb (v =? e)) _) as [|a [|b [|? ?]]]; try discriminate.
  intro H. injection H as <- _.
  etransitivity; [apply dict_set_length|].
  destruct (filter (fun kw => touches e (fst kw)) d) as [|x unify] eqn:Eu;
    [discriminate|].
  assert (Hx : In x (filter (fun kw => touches e (fst kw)) d))
    by (rewrite Eu; now left).
  apply filter_In in Hx. destruct Hx as [Hx Ht].
  apply (filter_length_lt (fun kw => negb (touches e (fst kw))) d x Hx).
  now rewrite Ht.
Qed.

Lemma fuse_if_two_length (st st' : dict * counts) (e : nat) :
  fuse_if_two st e = Returned st' -> length (fst st') <= length (fst st).
Proof.
  unfold fuse_if_two. destruct (count_get e (snd st) =? 2)%Z.
  - destruct st' as [d' c']. apply fuse_edge_length.
  - intro H. injection H as <-. lia.
Qed.

Lemma prune_length (st st' : tick_state) (k : edge) (w : Q) :
  In (k, w) (t_dgraph st) -> prune st k = Returned st' ->
  length (t_dgraph st') < length (t_dgraph st).
Proof.
  intros Hin H. destruct k as [e1 e2]. unfold prune in H.
  destruct (shortest_path (t_G st) e1 e2) as [path| |]; simpl in H; try discriminate.
  destruct (fuse_if_two _ e1) as [st1| |] eqn:E1; simpl in H; try discriminate.
  destruct (fuse_if_two st1 e2) as [st2| |] eqn:E2; simpl in H; try discriminate.
  injection H as <-. simpl.
  apply fuse_if_two_length in E1, E2. simpl in E1.
  assert (Hd : length (dict_del (e1, e2) (t_dgraph st)) < length (t_dgraph st)).
  { apply (filter_length_lt _ _ ((e1, e2), w) Hin). cbn [fst].
    now rewrite (proj2 (edge_eqb_eq (e1, e2) (e1, e2)) eq_refl). }
  lia.
Qed.

Lemma tick_round_answers (T : list nat) (thr : Q) (st : tick_state) :
  tick_round T thr st <> OutOfFuel.
Proof.
  unfold tick_round. destruct (length (t_dgraph st) <=? 1); [discriminate|].
  destruct (first_min snd (terminal_superedges T (t_dgraph st))) as [[k w]|];
    [|discriminate].
  destruct (_ && _)%bool; [discriminate|].
  destruct (Qle_bool thr w); [discriminate|].
  destruct k as [e1 e2]. unfold prune.
  destruct (shortest_path (t_G st) e1 e2) as [path| |] eqn:Ep; simpl;
    [|discriminate|].
  - unfold fuse_if_two, fuse_edge.
    repeat (match goal with
            | |- context [if ?b then _ else _] => destruct b
            | |- context [match ?l with [] => _ | _ => _ end] => destruct l
            end; simpl; try discriminate).
  - unfold shortest_path in Ep. destruct (walk_back _ _ _ _ _); discriminate.
Qed.

(** The pruning loop of [_remove_ticks] ends: every round that prunes
    leaves the distance graph with fewer superedges, so that a distance
    graph of [n] superedges is left after fewer than [n] prunings, and one
    more round than superedges is fuel enough. *)
Theorem tick_loop_terminates
  (T : list nat) (thr : Q) (fuel : nat) (st : tick_state)
  (Hf : length (t_dgraph st) <= S fuel) :
  tick_loop (S fuel) T thr st <> OutOfFuel /\
  (forall st', tick_round T thr st = Returned (Pruned st') ->
               length (t_dgraph st') < length (t_dgraph st)).
Proof.
  assert (Hstep : forall st0 st', tick_round T thr st0 = Returned (Pruned st') ->
                    length (t_dgraph st') < length (t_dgraph st0)).
  { intros st0 st' H. apply tick_round_pruned in H.
    destruct H as (k & w & Hin & Hp). eapply prune_length; eassumption. }
  split; [|apply Hstep].
  revert st Hf. induction fuel as [|fuel IH]; intros st Hf.
  - simpl. unfold tick_round. rewrite (proj2 (Nat.leb_le _ _) Hf). discriminate.
  - change (tick_loop (S (S fuel)) T thr st)
      with (r <- tick_round T thr st ;;
            match r with
            | Pruned st' => tick_loop (S fuel) T thr st'
            | _ => Returned st
            end).
    pose proof (tick_round_answers T thr st) as Hr.
    destruct (tick_round T thr st) as [r| |] eqn:E; simpl;
      [|discriminate|contradiction].
    destruct r as [| | |st']; try discriminate.
    apply IH. specialize (Hstep st st' E). lia.
Qed.

Lemma tick_loop_terminates_witness :
  tick_loop 3 (terminal_nodes_of (edges tripod)) 75 (tick_init tripod tripod_dgraph)
  <> OutOfFuel /\
  exists st',
    tick_loop 3 (terminal_nodes_of (edges tripod)) 75 (tick_init tripod tripod_dgraph)
    = Returned st'.
Proof.
  split.
  - apply (tick_loop_terminates (terminal_nodes_of (edges tripod)) 75 2
             (tick_init tripod tripod_dgraph)).
    simpl. lia.
  - eexists. vm_compute. reflexivity.
Defined.

(* ================================================================== *)
(** ** The search of the distance graph on a skeleton with a loop *)

Section LoopsDiverge.

Variable fsqrt : Q -> Q.
Variable s : Skeleton.
Variable C : list nat.
Hypothesis core : loop_core (edges s) C.

Lemma child_of (node w : nat) (parent : option nat) :
  adj (edges s) node w -> is_parent w parent = false ->
  In w (filter (fun child => negb (is_parent child parent))
               (children_of (edges s) node)).
Proof.
  intros Ha Hp. apply filter_In. split; [|now rewrite Hp].
  apply dedup_In. split; [apply adj_neighbors, Ha|tauto].
Qed.

Lemma bound_for_pushes (fr : frame) :
  bound_for (edges s) C fr ->
  exists c,
    In c (filter (fun child => negb (is_parent child (f_parent fr)))
                 (children_of (edges s) (f_node fr))) /\
    forall d r, bound_for (edges s) C (mkFrame c (Some (f_node fr)) d r).
Proof.
  intros (q & Hch & Hnd & Hl & Hq). destruct q as [|x1 rest].
  - simpl in Hl. destruct (core _ Hl) as (w1 & w2 & Hne & H1 & H2 & A1 & A2).
    destruct (is_parent w1 (f_parent fr)) eqn:E.
    + exists w2. split.
      * apply child_of; [exact A2|].
        destruct (f_parent fr) as [y|]; [|reflexivity]. simpl in *.
        apply Nat.eqb_eq in E. apply Nat.eqb_neq. congruence.
      * intros d r. exists []. simpl. repeat split; auto.
        constructor; [intros []|constructor].
    + exists w1. split; [apply child_of; assumption|].
      intros d r. exists []. simpl. repeat split; auto.
      constructor; [intros []|constructor].
  - exists x1. split.
    + apply child_of; [apply Hch|].
      destruct (f_parent fr) as [y|]; [|reflexivity]. simpl.
      apply Nat.eqb_neq. congruence.
    + intros d r. exists rest. simpl f_node. simpl f_parent.
      split; [apply Hch|]. split; [now inversion Hnd|]. split; [exact Hl|].
      destruct rest as [|x2 rest]; [exact I|].
      inversion Hnd as [|? ? Hn _]; subst. intro E. injection E as E.
      apply Hn. rewrite E. right. now left.
Qed.

Lemma dfs_never_returns (fuel : nat) :
  forall stack d,
    Exists (bound_for (edges s) C) stack ->
    dfs fsqrt fuel s stack d = OutOfFuel.
Proof.
  induction fuel as [|fuel IH]; intros stack d Hex.
  - destruct stack; [inversion Hex|reflexivity].
  - destruct stack as [|fr rest]; [inversion Hex|]. simpl. apply IH.
    apply Exists_app. inversion Hex as [? ? Hfr|? ? Hrest]; subst; [left|now right].
    destruct (bound_for_pushes fr Hfr) as (c & Hc & Hb).
    apply Exists_exists. eexists. split; [|apply Hb].
    apply in_rev. rewrite rev_involutive. apply in_map_iff.
    exists c. split; [reflexivity|exact Hc].
Qed.

(** The search of [_create_distance_graph] keeps no record of the vertices
    it has visited.  On a skeleton where a simple chain of edges leads from
    the first terminal vertex to a loop the stack never empties: the search
    does not return, whatever the number of steps it is given, and neither
    does [_remove_ticks]. *)
Theorem create_distance_graph_loops
  (t0 : nat) (ts p : list nat) (t : Q)
  (Ht : terminal_nodes_of (edges s) = t0 :: ts)
  (Hch : chain (edges s) (t0 :: p))
  (Hnd : NoDup (t0 :: p))
  (Hl : In (last (t0 :: p) 0) C)
  (He : empty s = false) :
  forall fuel,
    _create_distance_graph fsqrt fuel s = OutOfFuel /\
    _remove_ticks fsqrt fuel s t = OutOfFuel.
Proof.
  intro fuel.
  assert (H : _create_distance_graph fsqrt fuel s = OutOfFuel).
  { unfold _create_distance_graph. rewrite Ht. apply dfs_never_returns.
    constructor. exists p. simpl. repeat split; try assumption.
    destruct p; [exact I|discriminate]. }
  split; [exact H|]. unfold _remove_ticks. rewrite He, H. reflexivity.
Qed.

End LoopsDiverge.

Lemma create_distance_graph_loops_witness :
  _remove_ticks isqrtQ 1000 lollipop 75 = OutOfFuel.
Proof.
  refine (proj2 (create_distance_graph_loops isqrtQ lollipop [2; 3; 4] _
                   0 [] [1; 2] 75 eq_refl _ _ _ eq_refl 1000)).
  - intros v [<-|[<-|[<-|[]]]].
    + exists 3, 4. repeat split; simpl; auto; discriminate.
    + exists 2, 4. repeat split; simpl; auto; discriminate.
    + exists 3, 2. repeat split; simpl; auto; discriminate.
  - simpl. repeat split.
  - repeat constructor; simpl; intuition discriminate.
  - simpl. auto.
Defined.

(* ================================================================== *)
(** ** Piece connection ends *)

Lemma filter_length_mono {A : Type} (f g : A -> bool) (l : list A) :
  (forall x, In x l -> f x = true -> g x = true) ->
  length (filter f l) <= length (filter g l).
Proof.
  induction l as [|a l IH]; intro H; simpl; [lia|].
  assert (IH' : length (filter f l) <= length (filter g l))
    by (apply IH; intros x Hx; apply H; now right).
  destruct (f a) eqn:Ef.
  - rewrite (H a (or_introl eq_refl) Ef). simpl. lia.
  - destruct (g a); simpl; lia.
Qed.

Section ConnectEnds.

Variable fsqrt : Q -> Q.

Lemma try_pair_answers nodes rad connected pr :
  try_pair fsqrt nodes rad connected pr <> OutOfFuel.
Proof.
  unfold try_pair, get.
  destruct (nth_error connected (fst pr)); simpl; [|discriminate].
  destruct (nth_error connected (snd pr)); simpl; [|discriminate].
  destruct (closest fsqrt nodes _ _) as [[[p q] d]|]; [|discriminate].
  destruct (nth_error rad p); simpl; [|discriminate].
  destruct (nth_error rad q); simpl; [|discriminate].
  destruct (Qle_bool _ _); discriminate.
Qed.

Lemma sweep_answers nodes rad connected pairs :
  sweep fsqrt nodes rad connected pairs <> OutOfFuel.
Proof.
  induction pairs as [|pr pairs IH]; simpl; [discriminate|].
  pose proof (try_pair_answers nodes rad connected pr) as H.
  destruct (try_pair fsqrt nodes rad connected pr) as [[e|]| |]; simpl;
    [discriminate|exact IH|discriminate|contradiction].
Qed.

(** A bridge found by the sweep joins two vertices with different labels. *)
Lemma sweep_joins_classes nodes rad es connected p q :
  find_connected nodes es = Returned connected ->
  (N.of_nat (length connected) <= 65536)%N ->
  sweep fsqrt nodes rad connected (combination_pairs (length connected))
    = Returned (Some (p, q)) ->
  let L := labels (length nodes) es in
  p < length nodes /\ q < length nodes /\
  label_of L p <> label_of L q /\
  In (label_of L p) (edge_labels L es) /\ In (label_of L q) (edge_labels L es).
Proof.
  intros Hf Hk Hs L.
  destruct (find_connected_inv _ _ _ Hf) as [Hr Hc].
  apply sweep_some in Hs. destruct Hs as ([i j] & Hin & Ht).
  apply combination_pairs_In in Hin; [|exact Hk].
  unfold try_pair in Ht. simpl fst in Ht. simpl snd in Ht.
  destruct (get connected i) as [Pm| |] eqn:EP; simpl in Ht; try discriminate.
  destruct (get connected j) as [Qm| |] eqn:EQ; simpl in Ht; try discriminate.
  destruct (closest fsqrt nodes (where_ Pm) (where_ Qm)) as [[[p' q'] d]|] eqn:Ec;
    [|discriminate].
  destruct (get rad p') as [rp| |]; simpl in Ht; try discriminate.
  destruct (get rad q') as [rq| |]; simpl in Ht; try discriminate.
  destruct (Qle_bool d (rp + rq)); [|discriminate].
  injection Ht as -> ->.
  apply closest_spec in Ec. destruct Ec as (Hp & Hq & _).
  apply where_In in Hp, Hq. apply get_some in EP, EQ.
  fold L in Hc. rewrite Hc in EP, EQ. rewrite nth_error_map in EP, EQ.
  destruct (nth_error (edge_labels L es) i) as [li|] eqn:Ei; [|discriminate].
  destruct (nth_error (edge_labels L es) j) as [lj|] eqn:Ej; [|discriminate].
  simpl in EP, EQ. injection EP as <-. injection EQ as <-.
  apply mask_nth in Hp, Hq. destruct Hp as [Hp1 Hp2], Hq as [Hq1 Hq2].
  unfold L in Hp1, Hq1. rewrite labels_length in Hp1, Hq1.
  split; [exact Hp1|]. split; [exact Hq1|]. rewrite Hp2, Hq2.
  split; [|split; eapply nth_error_In; eassumption].
  intro E. subst lj.
  assert (Hnd : NoDup (edge_labels L es))
    by (unfold edge_labels; apply NoDup_filter, seq_NoDup).
  rewrite NoDup_nth_error in Hnd.
  assert (i = j); [|lia].
  apply Hnd; [apply nth_error_Some|]; congruence.
Qed.

(** A bridge between two classes leaves one class less. *)
Lemma bridge_merges (n : nat) (es : list edge) (p q : nat) :
  Forall (edge_in_range n) es -> p < n -> q < n ->
  let L := labels n es in
  label_of L p <> label_of L q ->
  In (label_of L p) (edge_labels L es) -> In (label_of L q) (edge_labels L es) ->
  length (edge_labels (labels n (es ++ [(p, q)])) (es ++ [(p, q)]))
  < length (edge_labels L es).
Proof.
  intros Hr Hp Hq L Hne Hip Hiq.
  set (a := Nat.min (label_of L p) (label_of L q)).
  set (b := Nat.max (label_of L p) (label_of L q)).
  assert (HL : length L = n) by apply labels_length.
  assert (Hb : In b (edge_labels L es)) by (unfold b; destruct (Nat.max_dec (label_of L p) (label_of L q)) as [->| ->]; assumption).
  assert (Ha : In a (edge_labels L es)) by (unfold a; destruct (Nat.min_dec (label_of L p) (label_of L q)) as [->| ->]; assumption).
  assert (Hab : a <> b) by (unfold a, b; lia).
  rewrite labels_snoc. fold L.
  assert (Hlab : forall v, v < n ->
            label_of (merge_labels L (p, q)) v
            = if label_of L v =? b then a else label_of L v).
  { intros v Hv. rewrite label_of_merge. simpl fst. simpl snd.
    rewrite HL, (proj2 (Nat.ltb_lt v n) Hv). reflexivity. }
  assert (Hnew : forall v, v < n -> label_of (merge_labels L (p, q)) v <> b /\
                   (label_of (merge_labels L (p, q)) v = a
                    \/ label_of (merge_labels L (p, q)) v = label_of L v)).
  { intros v Hv. rewrite (Hlab v Hv).
    destruct (label_of L v =? b) eqn:E; [auto|].
    apply Nat.eqb_neq in E. auto. }
  set (L' := merge_labels L (p, q)) in *.
  assert (HL' : length L' = n) by (unfold L'; now rewrite merge_labels_length).
  assert (Hincl : incl (edge_labels L' (es ++ [(p, q)]))
                       (filter (fun r => negb (r =? b)) (edge_labels L es))).
  { intros r Hin. apply edge_labels_In in Hin. destruct Hin as (Hrn & e & He & Hl).
    assert (Hv : exists v, v < n /\ label_of L' v = r /\
                   ((exists f, In f es /\ (fst f = v \/ snd f = v)) \/ v = p \/ v = q)).
    { apply in_app_or in He. destruct He as [He|[<-|[]]].
      - rewrite Forall_forall in Hr. destruct (Hr e He) as [H1 H2].
        destruct Hl as [Hl|Hl]; [exists (fst e)|exists (snd e)];
          (split; [assumption|]); (split; [exact Hl|]); left; exists e; auto.
      - simpl in Hl. destruct Hl as [Hl|Hl]; [exists p|exists q]; auto. }
    destruct Hv as (v & Hvn & <- & Hwho).
    destruct (Hnew v Hvn) as [Hnb Hcase].
    apply filter_In. split; [|now apply negb_true_iff, Nat.eqb_neq].
    destruct Hcase as [->| ->]; [exact Ha|].
    destruct Hwho as [(f & Hf & Hfv)|Hpq].
    - apply edge_labels_In. split; [specialize (canon_labels n es v); fold L; lia|].
      exists f. split; [exact Hf|]. destruct Hfv as [<-|<-]; auto.
    - destruct Hpq as [->| ->]; assumption. }
  eapply Nat.le_lt_trans.
  - apply NoDup_incl_length; [|exact Hincl].
    unfold edge_labels. apply NoDup_filter, seq_NoDup.
  - apply (filter_length_lt _ _ b Hb). now rewrite Nat.eqb_refl.
Qed.

Lemma connect_loop_ends nodes rad (fuel : nat) :
  forall es,
    Forall (edge_in_range (length nodes)) es ->
    length (edge_labels (labels (length nodes) es) es) <= S fuel ->
    (N.of_nat (length (edge_labels (labels (length nodes) es) es)) <= 65536)%N ->
    connect_loop fsqrt (S fuel) nodes rad es <> OutOfFuel.
Proof.
  induction fuel as [|fuel IH]; intros es Hr Hk H16.
  - simpl. unfold find_connected. rewrite (proj2 (forallb_range _ _) Hr). simpl.
    rewrite length_map.
    replace (combination_pairs _) with (@nil (nat * nat)); [discriminate|].
    destruct (length (edge_labels _ es)) as [|[|k]]; try reflexivity. lia.
  - change (connect_loop fsqrt (S (S fuel)) nodes rad es)
      with (connected <- find_connected nodes es ;;
            r <- sweep fsqrt nodes rad connected
                       (combination_pairs (length connected)) ;;
            match r with
            | Some e => connect_loop fsqrt (S fuel) nodes rad (es ++ [e])
            | None => Returned es
            end).
    destruct (find_connected nodes es) as [connected| |] eqn:Ef; simpl;
      [|discriminate|].
    + pose proof (sweep_answers nodes rad connected
                    (combination_pairs (length connected))) as Hs.
      assert (Hlen : length connected
                     = length (edge_labels (labels (length nodes) es) es)).
      { destruct (find_connected_inv _ _ _ Ef) as [_ ->]. apply length_map. }
      destruct (sweep fsqrt nodes rad connected _) as [[[p q]|]| |] eqn:Es; simpl;
        [|discriminate|discriminate|contradiction].
      destruct (sweep_joins_classes nodes rad es connected p q Ef
                  ltac:(rewrite Hlen; exact H16) Es)
        as (Hp & Hq & Hne & Hip & Hiq).
      pose proof (bridge_merges (length nodes) es p q Hr Hp Hq Hne Hip Hiq) as Hlt.
      cbv zeta in Hlt. apply IH.
      * apply Forall_app. split; [exact Hr|]. repeat constructor; assumption.
      * apply Nat.lt_succ_r. eapply Nat.lt_le_trans; [exact Hlt|exact Hk].
      * match goal with
        | |- (N.of_nat ?k <= _)%N =>
            assert (Hle : k <= length (edge_labels (labels (length nodes) es) es))
              by (apply Nat.lt_le_incl; exact Hlt)
        end.
        lia.
    + unfold find_connected in Ef.
      destruct (forallb _ es); discriminate.
Qed.

Lemma edge_labels_components (s : Skeleton) :
  length (edge_labels (labels (length (vertices s)) (edges s)) (edges s))
  <= length (components s).
Proof.
  unfold components. rewrite length_map.
  set (L := labels (length (vertices s)) (edges s)).
  apply NoDup_incl_length; [unfold edge_labels; apply NoDup_filter, seq_NoDup|].
  intros r Hr. apply edge_labels_In in Hr. destruct Hr as (Hlt & e & _ & Hl).
  unfold representatives. apply filter_In. split; [apply in_seq; lia|].
  apply Nat.eqb_eq. pose proof (canon_labels (length (vertices s)) (edges s)) as Hc.
  fold L in Hc. destruct Hl as [<-|<-]; apply Hc.
Qed.

(** Piece connection ends: a bridge joins two different components, so
    every round of the loop that adds a bridge leaves one component less,
    and with at most 65536 components one round per component is fuel
    enough for [connect_pieces] to return or to raise. *)
Theorem connect_pieces_terminates
  (fuel : nat) (s : Skeleton)
  (Hw : wf s)
  (Hk : length (components s) <= S fuel)
  (H16 : (N.of_nat (length (components s)) <= 65536)%N) :
  connect_pieces fsqrt (S fuel) s <> OutOfFuel /\
  (forall es p q connected,
     find_connected (vertices s) es = Returned connected ->
     (N.of_nat (length connected) <= 65536)%N ->
     sweep fsqrt (vertices s) (radii s) connected
           (combination_pairs (length connected)) = Returned (Some (p, q)) ->
     forall connected',
       find_connected (vertices s) (es ++ [(p, q)]) = Returned connected' ->
       length connected' < length connected).
Proof.
  split.
  - unfold connect_pieces. destruct (empty s); [discriminate|].
    pose proof (edge_labels_components s) as Hle.
    pose proof (connect_loop_ends (vertices s) (radii s) fuel (edges s)
                  (proj1 Hw) ltac:(lia) ltac:(lia)) as H.
    destruct (connect_loop fsqrt (S fuel) (vertices s) (radii s) (edges s));
      [discriminate|discriminate|contradiction].
  - intros es p q connected Hf H Hs connected' Hf'.
    destruct (sweep_joins_classes _ _ _ _ _ _ Hf H Hs) as (Hp & Hq & Hne & Hip & Hiq).
    destruct (find_connected_inv _ _ _ Hf) as [Hr ->].
    destruct (find_connected_inv _ _ _ Hf') as [_ ->].
    rewrite !length_map.
    exact (bridge_merges (length (vertices s)) es p q Hr Hp Hq Hne Hip Hiq).
Qed.

End ConnectEnds.

Lemma connect_pieces_terminates_witness :
  connect_pieces isqrtQ 2 (two_paths 6) <> OutOfFuel /\
  connect_pieces isqrtQ 2 (two_paths 6)
  = Returned (set_edges (two_paths 6) (edges (two_paths 6) ++ [(2, 3)])).
Proof.
  split; [|vm_compute; reflexivity].
  refine (proj1 (connect_pieces_terminates isqrtQ 1 (two_paths 6) _ _ _)).
  - split; [|reflexivity]. repeat constructor; simpl; lia.
  - apply Nat.leb_le. vm_compute. reflexivity.
  - apply N.leb_le. vm_compute. reflexivity.
Defined.

(* ================================================================== *)
(** ** What a pruning round removes *)

(** A pruning round of [_remove_ticks] on the superedge [(e1, e2)] takes
    a shortest path of [G] from [e1] to [e2], a simple chain of edges, and
    removes exactly the edges of this path from [G]; every other edge
    stays. *)
Theorem prune_removes_path
  (st st' : tick_state) (e1 e2 : nat)
  (H : prune st (e1, e2) = Returned st') :
  exists path,
    shortest_path (t_G st) e1 e2 = Returned path /\
    chain (t_G st) path /\ hd 0 path = e1 /\ last path 0 = e2 /\ NoDup path /\
    t_G st' = g_remove_edges_from (t_G st) (path2edge path) /\
    forall u v,
      adj (t_G st') u v <-> adj (t_G st) u v /\ ~ adj (path2edge path) u v.
Proof.
  unfold prune in H.
  destruct (shortest_path (t_G st) e1 e2) as [path| |] eqn:Ep; simpl in H;
    try discriminate.
  destruct (fuse_if_two _ e1) as [st1| |]; simpl in H; try discriminate.
  destruct (fuse_if_two st1 e2) as [st2| |]; simpl in H; try discriminate.
  injection H as <-. simpl. exists path.
  destruct (shortest_path_ok _ _ _ _ Ep) as (Hc & Hh & Hl & _).
  split; [reflexivity|]. split; [exact Hc|]. split; [exact Hh|].
  split; [exact Hl|]. split; [eapply shortest_path_NoDup, Ep|].
  split; [reflexivity|].
  intros u v. rewrite adj_remove_edges_from_iff, (adj_list_iff (path2edge path)).
  split; intros [Ha Hn]; (split; [exact Ha|]).
  - intros (r & Hr & E). exact (Hn r Hr E).
  - intros r Hr E. apply Hn. exists r. auto.
Qed.

Lemma prune_removes_path_witness :
  exists path,
    shortest_path (t_G (tick_init tripod tripod_dgraph)) 1 0 = Returned path /\
    chain (t_G (tick_init tripod tripod_dgraph)) path.
Proof.
  destruct (prune_removes_path (tick_init tripod tripod_dgraph)
              (mkTick [(0, 2); (0, 3)] [((2, 3), 90%Q)] [(0, 0%Z); (1, (-1)%Z)]) 1 0)
    as (path & H1 & H2 & _).
  - vm_compute. reflexivity.
  - exists path. split; assumption.
Defined.

(* ================================================================== *)
(** ** Prefixes of the merge tasks *)

Lemma starts_with_app (dir p n : filename) :
  starts_with (dir ++ p) (dir ++ n) = starts_with p n.
Proof.
  induction dir as [|c dir IH]; simpl; [reflexivity|].
  now rewrite Ascii.eqb_refl, IH.
Qed.

Lemma str_small (n : N) : (n < 10)%N -> str n = [digit_char n].
Proof.
  intro H. unfold str. cbn [digits_from].
  rewrite (proj2 (N.ltb_lt n 10) H), (N.mod_small n 10 H). reflexivity.
Qed.

(** The merge tasks share the fragments by the prefix of their names.  A
    fragment stored as [id:roi] is listed under exactly one prefix made of
    the directory and one digit, the first digit of [id]; under a prefix
    made of the directory and two digits no fragment with an identifier
    below 10 is listed. *)
Theorem fragment_prefixes (dir roi : filename) (id : N) :
  (exists d, is_digit d = true /\
     forall d', starts_with (dir ++ [d']) (dir ++ fragment_name id roi) = true
                <-> d' = d) /\
  ((id < 10)%N ->
   forall d1 d2, is_digit d2 = true ->
     starts_with (dir ++ [d1; d2]) (dir ++ fragment_name id roi) = false).
Proof.
  destruct (str_spec id) as (Hne & Hd & _). split.
  - unfold fragment_name. destruct (str id) as [|d ds]; [contradiction|].
    exists d. split; [now inversion Hd|].
    intro d'. rewrite starts_with_app. simpl. rewrite andb_true_r.
    apply Ascii.eqb_eq.
  - intros Hlt d1 d2 Hd2. rewrite starts_with_app. unfold fragment_name.
    rewrite (str_small id Hlt). simpl.
    destruct (Ascii.eqb d2 colon) eqn:E.
    + apply Ascii.eqb_eq in E. subst d2. discriminate.
    + now rewrite andb_false_r.
Qed.

Section Prefixes.

Import Ascii String.

Lemma fragment_prefixes_witness :
  starts_with (list_ascii_of_string "skeletons/12")
              (list_ascii_of_string "skeletons/7:0-64_0-64_0-32") = false.
Proof.
  refine (proj2 (fragment_prefixes (list_ascii_of_string "skeletons/")
                   (list_ascii_of_string "0-64_0-64_0-32") 7) _ "1"%char "2"%char _);
    reflexivity.
Defined.

End Prefixes.
